(** * Pulse: document chunking, embedding, indexing and retrieval

    A shallow embedding of the document subsystem of the Pulse chat
    application: lib/vectorUtils.ts, lib/pinecone.ts, lib/localStorage.ts
    (the first module of unnamed/part_001), and the storage and fallback
    paths of components/DocumentManager.tsx, hooks/useChat.ts and
    processFile (utils/fileProcessor, found in utils/markdownParser.ts),
    with the properties of its specification, and the chat sessions of
    useChatHistory (found in utils/markdownParser.ts). *)

From Stdlib Require Import Ascii String.
From Stdlib Require Import ZArith NArith List Bool Lia Sorted DecimalString.
From Stdlib Require Import PrimFloat Uint63 FloatAxioms.
From Stdlib Require DecimalZ.
Import ListNotations.
Set Warnings "-inexact-float".

(** ** JavaScript strings

    A JavaScript string is a sequence of UTF-16 code units; [length],
    [charCodeAt], [split], [trim] and [includes] all work on code units. *)

Definition CodeUnit := N.
Definition JSString := list CodeUnit.

(** String literals of the development (ASCII text). *)
Definition js (s : string) : JSString :=
  map N_of_ascii (list_ascii_of_string s).

Definition codeUnit_eqb (a b : CodeUnit) : bool := N.eqb a b.

Fixpoint jsstring_eqb (s t : JSString) : bool :=
  match s, t with
  | [], [] => true
  | a :: s', b :: t' => codeUnit_eqb a b && jsstring_eqb s' t'
  | _, _ => false
  end.

(** The regular-expression class [\s], which is also the set [trim]
    removes: WhiteSpace and LineTerminator of ECMAScript. *)
Definition isWhiteSpace (c : CodeUnit) : bool :=
  ((9 <=? c) && (c <=? 13) || (c =? 32) || (c =? 160) || (c =? 5760)
   || (8192 <=? c) && (c <=? 8202) || (c =? 8232) || (c =? 8233)
   || (c =? 8239) || (c =? 8287) || (c =? 12288) || (c =? 65279))%N.

(** The regular-expression class [\w]: [A-Za-z0-9_]. *)
Definition isWordChar (c : CodeUnit) : bool :=
  ((48 <=? c) && (c <=? 57) || (65 <=? c) && (c <=? 90)
   || (97 <=? c) && (c <=? 122) || (c =? 95))%N.

(** The class [[.!?]] of sentence terminators. *)
Definition isTerminator (c : CodeUnit) : bool :=
  ((c =? 46) || (c =? 33) || (c =? 63))%N.

(** ^ of a multi-line regular expression matches after a LineTerminator. *)
Definition isLineTerminator (c : CodeUnit) : bool :=
  ((c =? 10) || (c =? 13) || (c =? 8232) || (c =? 8233))%N.

Definition DOT : CodeUnit := 46%N.
Definition SPACE : CodeUnit := 32%N.
Definition NEWLINE : CodeUnit := 10%N.

Fixpoint trimStart (s : JSString) : JSString :=
  match s with
  | [] => []
  | c :: s' => if isWhiteSpace c then trimStart s' else s
  end.

Definition trimEnd (s : JSString) : JSString := rev (trimStart (rev s)).

(** [String.prototype.trim] *)
Definition trim (s : JSString) : JSString := trimEnd (trimStart s).

(** [s.split(/[sep]+/)]: the pieces between the maximal runs of separator
    code units; a run at either end of [s] leaves an empty piece there, and
    the empty string splits into one empty piece. *)
Fixpoint split_runs (sep : CodeUnit -> bool) (s : JSString) : list JSString :=
  match s with
  | [] => [[]]
  | c :: s' =>
      if sep c then
        match s' with
        | c' :: _ => if sep c' then split_runs sep s' else [] :: split_runs sep s'
        | [] => [] :: split_runs sep s'
        end
      else
        match split_runs sep s' with
        | piece :: rest => (c :: piece) :: rest
        | [] => [[c]]
        end
  end.

(** [s.startsWith(t)] and [s.includes(t)] *)
Fixpoint startsWith (s t : JSString) {struct t} : bool :=
  match t, s with
  | [], _ => true
  | _ :: _, [] => false
  | b :: t', a :: s' => codeUnit_eqb a b && startsWith s' t'
  end.

Fixpoint includes (s t : JSString) : bool :=
  startsWith s t ||
  match s with
  | [] => false
  | _ :: s' => includes s' t
  end.

(** [s.substring(0, n)] *)
Definition substring0 (n : nat) (s : JSString) : JSString := firstn n s.

(** [a.slice(i, j)] on arrays, for [0 <= i <= j]. *)
Definition slice {A : Type} (i j : nat) (a : list A) : list A :=
  firstn (j - i) (skipn i a).

(** The start indices [0, step, 2*step, ...] below [n] of a loop
    [for (let i = 0; i < n; i += step)]. *)
Definition loop_starts (n step : nat) : list nat :=
  map (fun k => k * step) (seq 0 (Nat.div (n + step - 1) step)).

(** ** The chunker: [chunkText] of vectorUtils.ts *)

(** [text.split(/[.!?]+/).filter(s => s.trim().length > 0)] *)
Definition sentences_of (text : JSString) : list JSString :=
  filter (fun s => 0 <? length (trim s)) (split_runs isTerminator text).

(** One iteration of the loop over the sentences; the state is
    [(chunks, currentChunk)]. *)
Definition chunk_step (maxChunkSize : Z)
    (st : list JSString * JSString) (sentence : JSString)
  : list JSString * JSString :=
  let '(chunks, currentChunk) := st in
  if (Z.of_nat (length currentChunk) + Z.of_nat (length sentence) >? maxChunkSize)%Z
     && (0 <? length currentChunk)
  then (chunks ++ [trim currentChunk], sentence)
  else (chunks, currentChunk ++ sentence ++ [DOT]).

Definition chunk_loop (maxChunkSize : Z) (sentences : list JSString)
    (st : list JSString * JSString) : list JSString * JSString :=
  fold_left (chunk_step maxChunkSize) sentences st.

Definition chunk_flush (st : list JSString * JSString) : list JSString :=
  let '(chunks, currentChunk) := st in
  if 0 <? length (trim currentChunk) then chunks ++ [trim currentChunk]
  else chunks.

Definition chunkText (text : JSString) (maxChunkSize : Z) : list JSString :=
  chunk_flush (chunk_loop maxChunkSize (sentences_of text) ([], [])).

(** How a run of consecutive sentences is laid out in the buffer: every
    sentence is followed by the separator, except the sentence that opened a
    buffer after an earlier chunk was closed. *)
Definition withDot (s : JSString) : JSString := s ++ [DOT].

Definition render (dotted : bool) (group : list JSString) : JSString :=
  match group with
  | [] => []
  | s :: rest => (if dotted then withDot s else s) ++ concat (map withDot rest)
  end.

Definition render_groups (groups : list (list JSString)) : list JSString :=
  match groups with
  | [] => []
  | g :: gs => render true g :: map (render false) gs
  end.

Definition nonblank (s : JSString) : Prop := trim s <> [].

(** ** The parts of the JavaScript runtime the code calls but does not define

    The Unicode case mapping of [String.prototype.toLowerCase], the
    transcendental functions of [Math] and the formatting done by
    [Date.prototype.toISOString] belong to the engine; the code is modelled
    over any choice of them. *)
Record Runtime := {
  toLowerCase : JSString -> JSString;
  Math_sin : float -> float;
  Math_cos : float -> float;
  Math_tan : float -> float;
  Math_log : float -> float;
  Math_log2 : float -> float;
  toISOString : Z -> JSString
}.

(** [toLowerCase] on ASCII text: A-Z become a-z. *)
Definition toLowerCaseASCII (s : JSString) : JSString :=
  map (fun c => if ((65 <=? c) && (c <=? 90))%N then (c + 32)%N else c) s.

(** A runtime for running the code on ASCII inputs. The examples below use
    it only on texts without a token longer than two letters, for which the
    embedder calls none of the [Math] functions; these, and the date format,
    are placeholders whose values enter no statement. *)
Definition asciiRuntime : Runtime := {|
  toLowerCase := toLowerCaseASCII;
  Math_sin := fun x => x;
  Math_cos := fun x => x;
  Math_tan := fun x => x;
  Math_log := fun x => x;
  Math_log2 := fun x => x;
  toISOString := fun _ => js "1970-01-01T00:00:00.000Z"
|}.

(** Truthiness of an optional string parameter ([userId ? ... : ...],
    [!apiKey]): [undefined] and the empty string are falsy. *)
Definition truthy (o : option JSString) : bool :=
  match o with
  | Some (_ :: _) => true
  | _ => false
  end.

(** [a === b] between an optional string property and a string. *)
Definition optstring_eqb (a b : option JSString) : bool :=
  match a, b with
  | Some s, Some t => jsstring_eqb s t
  | None, None => true
  | _, _ => false
  end.

(** [Array.prototype.sort(cmp)]: the sort is stable (ECMAScript 2019);
    [x] goes before the first element it does not compare greater than. *)
Fixpoint sort_insert {A : Type} (cmp : A -> A -> Z) (x : A) (l : list A) : list A :=
  match l with
  | [] => [x]
  | y :: l' => if (cmp x y <=? 0)%Z then x :: l else y :: sort_insert cmp x l'
  end.

Definition js_sort {A : Type} (cmp : A -> A -> Z) (l : list A) : list A :=
  fold_right (sort_insert cmp) [] l.

(** [[...new Set(a)]]: the distinct elements in first-occurrence order. *)
Definition dedup (a : list JSString) : list JSString :=
  fold_left (fun seen w => if existsb (jsstring_eqb w) seen then seen else seen ++ [w])
            a [].

(** ** The local store: localStorage.ts (unnamed/part_001) *)

Record LocalDocument := {
  ld_id : JSString;
  ld_fileName : JSString;
  ld_fileType : JSString;
  ld_content : JSString;
  ld_timestamp : JSString;
  ld_userId : option JSString
}.

Section LocalSearch.
Variable rt : Runtime.

(** [`${doc.fileName} ${doc.content}`.toLowerCase()] *)
Definition searchText (doc : LocalDocument) : JSString :=
  toLowerCase rt (ld_fileName doc ++ [SPACE] ++ ld_content doc).

(** [query.toLowerCase().split(/\s+/)] *)
Definition searchTerms (query : JSString) : list JSString :=
  split_runs isWhiteSpace (toLowerCase rt query).

(** [searchTerms.filter(term => text.includes(term)).length] *)
Definition termMatches (terms : list JSString) (doc : LocalDocument) : nat :=
  length (filter (fun term => includes (searchText doc) term) terms).

Definition filterByUser (userId : option JSString) (documents : list LocalDocument)
  : list LocalDocument :=
  if truthy userId
  then filter (fun doc => optstring_eqb (ld_userId doc) userId) documents
  else documents.

(** [searchDocumentsLocal], over the collection [getStoredDocuments()]
    returns. *)
Definition searchDocumentsLocal (documents : list LocalDocument)
    (query : JSString) (userId : option JSString) : list LocalDocument :=
  let filteredDocs := filterByUser userId documents in
  let terms := searchTerms query in
  js_sort
    (fun a b => (Z.of_nat (termMatches terms b) - Z.of_nat (termMatches terms a))%Z)
    (filter (fun doc => existsb (fun term => includes (searchText doc) term) terms)
            filteredDocs).

(** [getUserDocumentsLocal] *)
Definition getUserDocumentsLocal (documents : list LocalDocument)
    (userId : option JSString) : list LocalDocument :=
  filterByUser userId documents.

(** The number of distinct query tokens found in a record: the ranking key
    the specification words. *)
Definition distinctTermMatches (terms : list JSString) (doc : LocalDocument) : nat :=
  length (dedup (filter (fun term => includes (searchText doc) term) terms)).
End LocalSearch.

(** A ranking of [input] by [key]: non-increasing keys, and the records of
    every key value in their order of [input]. *)
Definition ranked_by {A : Type} (key : A -> nat) (input output : list A) : Prop :=
  StronglySorted (fun a b => key b <= key a) output /\
  forall k, filter (fun d => key d =? k) output = filter (fun d => key d =? k) input.

(** [t] occurs in [s] as a substring. *)
Definition substring_of (t s : JSString) : Prop :=
  exists pre post, s = pre ++ t ++ post.

(** The records a search considers for a user. *)
Definition visible_to (userId : option JSString) (doc : LocalDocument) : Prop :=
  truthy userId = true -> ld_userId doc = userId.

(** ** Numbers

    JavaScript numbers are IEEE 754 binary64 values: the primitive floats. *)

(** The number with integer value [z]. *)
Definition num (z : Z) : float :=
  if (z <? 0)%Z then (- of_uint63 (Uint63.of_Z (- z)))%float
  else of_uint63 (Uint63.of_Z z).

(** [Math.max(a, b)] *)
Definition Math_max (a b : float) : float :=
  if is_nan a || is_nan b then nan
  else if (a <? b)%float then b
  else if (b <? a)%float then a
  else if get_sign a then b else a.

(** ToInt32, and the operators [<<] and [&] on 32-bit integers. *)
Definition toInt32 (z : Z) : Z :=
  let m := (z mod 2 ^ 32)%Z in
  if (m >=? 2 ^ 31)%Z then (m - 2 ^ 32)%Z else m.

Definition shl32 (x k : Z) : Z := toInt32 (Z.shiftl (toInt32 x) k).

Definition and32 (x y : Z) : Z := toInt32 (Z.land (toInt32 x) (toInt32 y)).

(** [a[i] += x] on an array of numbers. Inside the array it adds in place;
    beyond the end JavaScript grows the array and stores
    [undefined + x], which is NaN (the slots skipped are written as NaN
    here as well). *)
Fixpoint add_at (i : nat) (x : float) (a : list float) : list float :=
  match a with
  | v :: a' =>
      match i with
      | O => (v + x)%float :: a'
      | S i' => v :: add_at i' x a'
      end
  | [] => repeat nan i ++ [nan]
  end.

(** [a.forEach((x, i) => ...)] threading a state. *)
Fixpoint foldi {A S : Type} (f : S -> A -> nat -> S) (l : list A) (i : nat) (s : S) : S :=
  match l with
  | [] => s
  | x :: l' => foldi f l' (Datatypes.S i) (f s x i)
  end.

(** [a.map((x, i) => ...)] *)
Fixpoint mapi {A B : Type} (f : A -> nat -> B) (l : list A) (i : nat) : list B :=
  match l with
  | [] => []
  | x :: l' => f x i :: mapi f l' (S i)
  end.

(** ** Errors *)

(** A thrown [Error], by its message. *)
Definition Error := JSString.

Inductive Result (A : Type) : Type :=
| Ok (a : A)
| Throw (e : Error).
Arguments Ok {A} a.
Arguments Throw {A} e.

(** ** Word-frequency objects

    [wordFreq] and [freq] are plain objects [{}] used as maps from words to
    counts, so a lookup of a word that is not an own property goes to
    [Object.prototype]. *)
Inductive FreqVal :=
| Count (n : Z)          (* a number *)
| Text.                  (* a string that is not a number *)

(** Own properties, in creation order. *)
Definition FreqObj := list (JSString * FreqVal).

Fixpoint own (o : FreqObj) (k : JSString) : option FreqVal :=
  match o with
  | [] => None
  | (k', v) :: o' => if jsstring_eqb k' k then Some v else own o' k
  end.

Fixpoint set_own (o : FreqObj) (k : JSString) (v : FreqVal) : FreqObj :=
  match o with
  | [] => [(k, v)]
  | (k', v') :: o' =>
      if jsstring_eqb k' k then (k', v) :: o' else (k', v') :: set_own o' k v
  end.

(** The function-valued properties of [Object.prototype]. *)
Definition inherited_function (k : JSString) : bool :=
  existsb (fun name => jsstring_eqb (js name) k)
    ["constructor"; "hasOwnProperty"; "isPrototypeOf"; "propertyIsEnumerable";
     "toLocaleString"; "toString"; "valueOf"; "__defineGetter__";
     "__defineSetter__"; "__lookupGetter__"; "__lookupSetter__"]%string.

(** [o[word] = (o[word] || 0) + 1]. An inherited function or the inherited
    [__proto__] object is truthy, and adding 1 to it makes a string; the
    string becomes an own property, except under [__proto__], whose setter
    ignores it. *)
Definition freq_bump (o : FreqObj) (word : JSString) : FreqObj :=
  match own o word with
  | Some (Count n) => set_own o word (Count (n + 1))
  | Some Text => set_own o word Text
  | None =>
      if jsstring_eqb word (js "__proto__") then o
      else if inherited_function word then set_own o word Text
      else set_own o word (Count 1)
  end.

(** The number [o[word]] is when divided: a string of this kind, an object,
    a function and [undefined] all convert to NaN. *)
Definition freq_number (o : FreqObj) (word : JSString) : float :=
  match own o word with
  | Some (Count n) => num n
  | _ => nan
  end.

(** A property name that is an array index: the canonical decimal form of
    an integer below 2^32 - 1. *)
Definition arrayIndex (k : JSString) : option N :=
  let digit c := ((48 <=? c) && (c <=? 57))%N in
  let value := fold_left (fun acc c => (acc * 10 + (c - 48))%N) k 0%N in
  match k with
  | [] => None
  | c :: rest =>
      if forallb digit k
         && (negb (c =? 48)%N || match rest with [] => true | _ => false end)
         && (value <=? 4294967294)%N
      then Some value else None
  end.

(** [Object.values(o)]: array-index keys first, ascending, then the other
    keys in creation order. *)
Definition own_values (o : FreqObj) : list FreqVal :=
  let indexed :=
    flat_map (fun kv => match arrayIndex (fst kv) with
                        | Some i => [(i, snd kv)]
                        | None => []
                        end) o in
  let named :=
    filter (fun kv => match arrayIndex (fst kv) with
                      | Some _ => false
                      | None => true
                      end) o in
  map snd (js_sort (fun a b => (Z.of_N (fst a) - Z.of_N (fst b))%Z) indexed)
  ++ map snd named.

(** ** The embedder: [generateEmbedding] and [calculateEntropy] *)

(** [s.replace(/[^\w\s]/g, ' ')] *)
Definition blank_punctuation (s : JSString) : JSString :=
  map (fun c => if isWordChar c || isWhiteSpace c then c else SPACE) s.

(** [s.replace(/\s+/g, ' ')] *)
Fixpoint collapse_whitespace (s : JSString) : JSString :=
  match s with
  | [] => []
  | c :: s' =>
      if isWhiteSpace c then
        match s' with
        | c' :: _ =>
            if isWhiteSpace c' then collapse_whitespace s'
            else SPACE :: collapse_whitespace s'
        | [] => [SPACE]
        end
      else c :: collapse_whitespace s'
  end.

Section Embedder.
Variable rt : Runtime.

Definition calculateEntropy (words : list JSString) : float :=
  let freq := fold_left freq_bump words [] in
  let total := num (Z.of_nat (length words)) in
  fold_left
    (fun entropy count =>
       let p := ((match count with Count n => num n | Text => nan end) / total)%float in
       if (0 <? p)%float then (entropy - p * Math_log2 rt p)%float else entropy)
    (own_values freq) 0%float.

Definition cleanText (text : JSString) : JSString :=
  trim (collapse_whitespace (blank_punctuation (toLowerCase rt text))).

(** [cleanText.split(/\s+/).filter(word => word.length > 2)] *)
Definition words_of (text : JSString) : list JSString :=
  filter (fun word => 2 <? length word) (split_runs isWhiteSpace (cleanText text)).

(** The hash of a word under seed [hashFunc]. *)
Definition wordHash (hashFunc : Z) (word : JSString) : Z :=
  fold_left
    (fun hash char =>
       and32 (shl32 hash 5 - hash + Z.of_N char + hashFunc * 31) 2147483647)%Z
    word 0%Z.

(** The position hash of the word at position [i]. *)
Definition positionHash (i : Z) (word : JSString) : Z :=
  fold_left
    (fun posHash char => and32 (shl32 posHash 3 + Z.of_N char + i) 2147483647)%Z
    word 0%Z.

(** The body of one pass [hashFunc] for a unique word. *)
Definition hash_pass (tf : float) (uniqueCount : nat) (wordIndex : nat)
    (word : JSString) (embedding : list float) (hashFunc : Z) : list float :=
  let hash := wordHash hashFunc word in
  let len := Z.of_nat (length embedding) in
  let dim1 := Z.rem hash len in
  let dim2 := Z.rem (hash * 31) len in
  let dim3 := Z.rem (hash * 97) len in
  let weight :=
    (tf * Math_log rt (num (Z.of_nat uniqueCount) / num (1 + Z.of_nat wordIndex)))%float in
  let e1 := add_at (Z.to_nat dim1) (weight * Math_sin rt (num hash * 0.001))%float embedding in
  let e2 := add_at (Z.to_nat dim2) (weight * Math_cos rt (num hash * 0.001))%float e1 in
  add_at (Z.to_nat dim3) (weight * Math_tan rt (num hash * 0.0001))%float e2.

(** The callback of [uniqueWords.forEach]. *)
Definition semantic_features (words uniqueWords : list JSString) (wordFreq : FreqObj)
    (embedding : list float) (word : JSString) (wordIndex : nat) : list float :=
  let tf := (freq_number wordFreq word / num (Z.of_nat (length words)))%float in
  fold_left (hash_pass tf (length uniqueWords) wordIndex word) [0; 1; 2; 3; 4]%Z embedding.

(** The positional loop, over the indices [i]; reading [word.length] of a
    missing element would throw a TypeError. *)
Fixpoint positional_encoding (words : list JSString) (indices : list nat)
    (embedding : list float) : Result (list float) :=
  match indices with
  | [] => Ok embedding
  | i :: rest =>
      match nth_error words i with
      | None => Throw (js "Cannot read properties of undefined (reading 'length')")
      | Some word =>
          let positionWeight := (1 / num (Z.of_nat i + 1))%float in
          let posHash := positionHash (Z.of_nat i) word in
          let dim := Z.rem posHash (Z.of_nat (length embedding)) in
          positional_encoding words rest
            (add_at (Z.to_nat dim) (positionWeight * 0.1)%float embedding)
      end
  end.

(** The L2 normalisation at the end of the [try] block. *)
Definition normalize (embedding : list float) : list float :=
  let norm := PrimFloat.sqrt (fold_left (fun sum val => (sum + val * val)%float) embedding 0%float) in
  if (0 <? norm)%float then map (fun v => (v / norm)%float) embedding else embedding.

(** The [try] block of [generateEmbedding]. *)
Definition generateEmbedding_try (text : JSString) : Result (list float) :=
  let words := words_of text in
  let uniqueWords := dedup words in
  let embedding := repeat 0%float 384 in
  let wordFreq := fold_left freq_bump words [] in
  let embedding := foldi (semantic_features words uniqueWords wordFreq) uniqueWords 0 embedding in
  match positional_encoding words (seq 0 (Nat.min (length words) 50)) embedding with
  | Throw e => Throw e
  | Ok embedding =>
      let avgWordLength :=
        (num (fold_left (fun sum word => sum + Z.of_nat (length word))%Z words 0%Z)
         / num (Z.of_nat (length words)))%float in
      let textEntropy := calculateEntropy words in
      let sentenceCount := length (split_runs isTerminator text) in
      let embedding := add_at 0 (avgWordLength * 0.01)%float embedding in
      let embedding := add_at 1 (textEntropy * 0.01)%float embedding in
      let embedding := add_at 2 (num (Z.of_nat sentenceCount) * 0.001)%float embedding in
      let embedding := add_at 3 (num (Z.of_nat (length words)) * 0.0001)%float embedding in
      Ok (normalize embedding)
  end.

(** The [catch] block: a normalised vector of 384 draws of
    [Math.random() - 0.5]. *)
Definition fallbackEmbedding (draws : list float) : list float :=
  let fallback := map (fun r => (r - 0.5)%float) draws in
  let norm := PrimFloat.sqrt (fold_left (fun sum val => (sum + val * val)%float) fallback 0%float) in
  map (fun val => (val / norm)%float) fallback.
End Embedder.

(** Squared Euclidean norm, summed the way [reduce] does. *)
Definition norm2 (v : list float) : float :=
  fold_left (fun sum val => (sum + val * val)%float) v 0%float.

(** ** Search results of the fallback path *)

Record SearchResult := {
  sr_score : float;
  sr_fileName : JSString;
  sr_fileType : JSString;
  sr_content : JSString;
  sr_timestamp : option JSString
}.

(** [Math.max(0.9 - index * 0.1, 0.1)] *)
Definition synthesizedScore (index : nat) : float :=
  Math_max (0.9 - num (Z.of_nat index) * 0.1)%float 0.1%float.

(** The fallback of [handleMockResponse] in useChat.ts:
    [localResults.slice(0, 3).map((doc, index) => ...)]. *)
Definition chatFallbackResults (localResults : list LocalDocument) : list SearchResult :=
  mapi (fun doc index =>
          {| sr_score := synthesizedScore index;
             sr_fileName := ld_fileName doc;
             sr_fileType := ld_fileType doc;
             sr_content := ld_content doc;
             sr_timestamp := None |})
       (slice 0 3 localResults) 0.

(** The fallback of [handleSearch] in DocumentManager.tsx:
    [localResults.slice(0, 10).map((doc, index) => ...)]. *)
Definition managerFallbackResults (localResults : list LocalDocument) : list SearchResult :=
  mapi (fun doc index =>
          {| sr_score := synthesizedScore index;
             sr_fileName := ld_fileName doc;
             sr_fileType := ld_fileType doc;
             sr_content :=
               substring0 200 (ld_content doc)
               ++ (if 200 <? length (ld_content doc) then js "..." else []);
             sr_timestamp := Some (ld_timestamp doc) |})
       (slice 0 10 localResults) 0.

(** A list of scores is non-increasing ([s[i] >= s[i+1]]). *)
Fixpoint nonincreasing (scores : list float) : bool :=
  match scores with
  | a :: (b :: _) as rest => (b <=? a)%float && nonincreasing rest
  | _ => true
  end.

Definition score_in_range (s : float) : bool :=
  (0.1 <=? s)%float && (s <=? 0.9)%float.

(** ** Regular-expression replacement

    [s.replace(re, by)] for a global [re] whose matches are never empty.
    [m prev rest] is the length of the match of [re] at the current position,
    where [prev] is the code unit before it in [s] and [rest] the input from
    there on; scanning resumes after a match. *)
Fixpoint replace_all (m : option CodeUnit -> JSString -> option nat) (by_ : JSString)
    (prev : option CodeUnit) (skip : nat) (s : JSString) : JSString :=
  match s with
  | [] => []
  | c :: s' =>
      match skip with
      | S k => replace_all m by_ (Some c) k s'
      | O =>
          match m prev s with
          | Some (S len) => by_ ++ replace_all m by_ (Some c) len s'
          | _ => c :: replace_all m by_ (Some c) 0 s'
          end
      end
  end.

Definition js_replace (m : option CodeUnit -> JSString -> option nat) (by_ s : JSString)
  : JSString :=
  replace_all m by_ None 0 s.

(** Length of the maximal run of code units satisfying [p] at the start. *)
Fixpoint run_length (p : CodeUnit -> bool) (s : JSString) : nat :=
  match s with
  | c :: s' => if p c then S (run_length p s') else 0
  | [] => 0
  end.

(** ^ under the [m] flag. *)
Definition at_line_start (prev : option CodeUnit) : bool :=
  match prev with
  | None => true
  | Some c => isLineTerminator c
  end.

Definition isHash (c : CodeUnit) : bool := (c =? 35)%N.
Definition isStar (c : CodeUnit) : bool := (c =? 42)%N.
Definition isNewline (c : CodeUnit) : bool := (c =? 10)%N.
Definition isBullet (c : CodeUnit) : bool := ((c =? 45) || (c =? 42) || (c =? 43))%N.

(** [/\*\*/] *)
Definition re_bold (_ : option CodeUnit) (s : JSString) : option nat :=
  match s with
  | a :: b :: _ => if isStar a && isStar b then Some 2 else None
  | _ => None
  end.

(** [/#{1,6}\s/]: the run of # is taken greedily; giving some back never
    helps, the next code unit being a # again. *)
Definition re_header (_ : option CodeUnit) (s : JSString) : option nat :=
  let r := run_length isHash s in
  if (1 <=? r) && (r <=? 6) then
    match nth_error s r with
    | Some c => if isWhiteSpace c then Some (r + 1) else None
    | None => None
    end
  else None.

(** [/^\s*[-*+]\s/m] *)
Definition re_bullet (prev : option CodeUnit) (s : JSString) : option nat :=
  if at_line_start prev then
    let n := run_length isWhiteSpace s in
    match nth_error s n, nth_error s (n + 1) with
    | Some b, Some c => if isBullet b && isWhiteSpace c then Some (n + 2) else None
    | _, _ => None
    end
  else None.

(** [/\n{3,}/] and [/\n\n+/] *)
Definition re_newlines (least : nat) (_ : option CodeUnit) (s : JSString) : option nat :=
  let r := run_length isNewline s in
  if least <=? r then Some r else None.

(** [/^#+ /m] *)
Definition re_heading_line (prev : option CodeUnit) (s : JSString) : option nat :=
  if at_line_start prev then
    let r := run_length isHash s in
    match nth_error s r with
    | Some c => if (1 <=? r) && (c =? 32)%N then Some (r + 1) else None
    | None => None
    end
  else None.

(** [/^- /m] *)
Definition re_dash_line (prev : option CodeUnit) (s : JSString) : option nat :=
  if at_line_start prev then
    match s with
    | a :: b :: _ => if (a =? 45)%N && (b =? 32)%N then Some 2 else None
    | _ => None
    end
  else None.

(** The cleaning [storeDocument] applies to [content]. *)
Definition cleanContent (content : JSString) : JSString :=
  trim (js_replace (re_newlines 3) [NEWLINE; NEWLINE]
         (js_replace re_bullet []
           (js_replace re_header []
             (js_replace re_bold [] content)))).

(** The cleaning [processFile] applies to [fileInfo.content]. *)
Definition processFile_cleanContent (content : JSString) : JSString :=
  trim (js_replace (re_newlines 2) [NEWLINE]
         (js_replace re_dash_line []
           (js_replace re_heading_line []
             (js_replace re_bold [] content)))).

(** [fileName.replace(/[^a-zA-Z0-9.-]/g, '_')] *)
Definition sanitizeFileName (fileName : JSString) : JSString :=
  map (fun c =>
         if ((48 <=? c) && (c <=? 57) || (65 <=? c) && (c <=? 90)
             || (97 <=? c) && (c <=? 122) || (c =? 46) || (c =? 45))%N
         then c else 95%N) fileName.

(** The decimal form of an integer in a template literal. *)
Definition decimal (z : Z) : JSString := js (NilZero.string_of_int (Z.to_int z)).

(** ** The remote index and the browser, as the code sees them *)

Record Metadata := {
  md_fileName : JSString;
  md_fileType : JSString;
  md_content : JSString;
  md_timestamp : JSString;
  md_userId : JSString;
  md_chunkIndex : Z;
  md_totalChunks : Z;
  md_chunkLength : Z
}.

Record DocumentVector := {
  dv_id : JSString;
  dv_values : list float;
  dv_metadata : Metadata
}.

(** What a query returns for a match; the service may leave fields out. *)
Record MatchMetadata := {
  mm_fileName : option JSString;
  mm_fileType : option JSString;
  mm_timestamp : option JSString;
  mm_totalChunks : option Z
}.

Record Match := {
  match_id : JSString;
  match_score : option float;
  match_metadata : option MatchMetadata
}.

(** [includeMetadata: true, includeValues: false] in every request. *)
Record QueryRequest := {
  q_vector : list float;
  q_topK : Z;
  q_filter_userId : option JSString
}.

(** The item under 'pulse-documents', in the three states this
    development follows. A string that parses to something other than an
    array of records (null, an object, an array holding another value) is
    none of them: what is proved of a store that is written to assumes the
    item is absent or a collection. *)
Inductive StoredItem :=
| Missing                              (* no item under 'pulse-documents' *)
| Docs (documents : list LocalDocument)  (* the JSON of a collection *)
| Corrupt.                             (* a string JSON.parse rejects *)

(** The calls that leave the program. *)
Inductive Event :=
| ListIndexes
| CreateIndex (name : JSString)
| DescribeIndexStats (name : JSString)
| Upsert (index : JSString) (batch : list DocumentVector)
| Query (index : JSString) (request : QueryRequest)
| DeleteMany (index : JSString) (ids : list JSString)
| GetItem
| SetItem (documents : list LocalDocument)
| RemoveItem
| Sleep (ms : Z).

(** How the outside answers: the outcome of the [n]-th call that consults
    it, by kind of call. *)
Record Oracle := {
  o_listIndexes : nat -> Result (option (list JSString));
  o_createIndex : nat -> Result unit;
  o_describeIndexStats : nat -> Result unit;
  o_upsert : nat -> Result unit;
  o_query : nat -> Result (option (list Match));
  o_deleteMany : nat -> Result unit;
  o_storage : nat -> Result unit;
  o_now : nat -> Z;
  o_random : nat -> float
}.

Record World := {
  oracle : Oracle;
  tick : nat;                                   (* calls answered so far *)
  VITE_PINECONE_API_KEY : option JSString;
  VITE_PINECONE_INDEX_NAME : option JSString;
  pineconeClient : bool;                        (* the cached client of pinecone.ts *)
  localItem : StoredItem;                       (* localStorage['pulse-documents'] *)
  trace : list Event                            (* the calls made, oldest first *)
}.

Definition advance (n : nat) (events : list Event) (w : World) : World :=
  {| oracle := oracle w; tick := tick w + n;
     VITE_PINECONE_API_KEY := VITE_PINECONE_API_KEY w;
     VITE_PINECONE_INDEX_NAME := VITE_PINECONE_INDEX_NAME w;
     pineconeClient := pineconeClient w;
     localItem := localItem w;
     trace := trace w ++ events |}.

Definition set_pineconeClient (b : bool) (w : World) : World :=
  {| oracle := oracle w; tick := tick w;
     VITE_PINECONE_API_KEY := VITE_PINECONE_API_KEY w;
     VITE_PINECONE_INDEX_NAME := VITE_PINECONE_INDEX_NAME w;
     pineconeClient := b;
     localItem := localItem w;
     trace := trace w |}.

Definition set_localItem (item : StoredItem) (w : World) : World :=
  {| oracle := oracle w; tick := tick w;
     VITE_PINECONE_API_KEY := VITE_PINECONE_API_KEY w;
     VITE_PINECONE_INDEX_NAME := VITE_PINECONE_INDEX_NAME w;
     pineconeClient := pineconeClient w;
     localItem := item;
     trace := trace w |}.

(** ** Computations: state and exceptions *)

Definition M (A : Type) : Type := World -> Result A * World.

Definition ret {A : Type} (a : A) : M A := fun w => (Ok a, w).

Definition throw {A : Type} (e : Error) : M A := fun w => (Throw e, w).

Definition bind {A B : Type} (m : M A) (k : A -> M B) : M B :=
  fun w =>
    match m w with
    | (Ok a, w') => k a w'
    | (Throw e, w') => (Throw e, w')
    end.

(** [try { m } catch (e) { handler e }] *)
Definition try_catch {A : Type} (m : M A) (handler : Error -> M A) : M A :=
  fun w =>
    match m w with
    | (Ok a, w') => (Ok a, w')
    | (Throw e, w') => handler e w'
    end.

Declare Scope m_scope.
Delimit Scope m_scope with M.
Notation "x <- m ;; k" := (bind m (fun x => k))
  (at level 100, m at next level, right associativity) : m_scope.
Notation "m ;; k" := (bind m (fun _ => k))
  (at level 100, right associativity) : m_scope.
Open Scope m_scope.

Definition get {A : Type} (f : World -> A) : M A := fun w => (Ok (f w), w).

(** [if (c) { m }] *)
Definition when (c : bool) (m : M unit) : M unit := if c then m else ret tt.

(** [for (const x of l) { body x }] *)
Fixpoint for_each {A : Type} (l : list A) (body : A -> M unit) : M unit :=
  match l with
  | [] => ret tt
  | x :: l' => body x ;; for_each l' body
  end.

(** A loop that carries a local variable. *)
Fixpoint fold_each {A S : Type} (l : list A) (body : S -> A -> M S) (s : S) : M S :=
  match l with
  | [] => ret s
  | x :: l' => s' <- body s x ;; fold_each l' body s'
  end.

(** A call that leaves the program: it is recorded and the oracle answers. *)
Definition consult {A : Type} (event : Event) (answer : Oracle -> nat -> Result A) : M A :=
  fun w => (answer (oracle w) (tick w), advance 1 [event] w).

(** [await new Promise(resolve => setTimeout(resolve, ms))] *)
Definition sleep (ms : Z) : M unit := fun w => (Ok tt, advance 0 [Sleep ms] w).

(** [Date.now()] *)
Definition Date_now : M Z := fun w => (Ok (o_now (oracle w) (tick w)), advance 1 [] w).

(** [n] successive values of [Math.random()]. *)
Definition Math_random (n : nat) : M (list float) :=
  fun w => (Ok (map (o_random (oracle w)) (seq (tick w) n)), advance n [] w).

(** *** localStorage *)

Definition localStorage_getItem : M StoredItem :=
  consult GetItem o_storage ;; get localItem.

Definition localStorage_setItem (documents : list LocalDocument) : M unit :=
  consult (SetItem documents) o_storage ;;
  fun w => (Ok tt, set_localItem (Docs documents) w).

Definition localStorage_removeItem : M unit :=
  consult RemoveItem o_storage ;;
  fun w => (Ok tt, set_localItem Missing w).

(** *** The client of the vector service *)

Definition client_listIndexes : M (option (list JSString)) :=
  consult ListIndexes o_listIndexes.

Definition client_createIndex (name : JSString) : M unit :=
  consult (CreateIndex name) o_createIndex.

Definition index_describeIndexStats (index : JSString) : M unit :=
  consult (DescribeIndexStats index) o_describeIndexStats.

Definition index_upsert (index : JSString) (batch : list DocumentVector) : M unit :=
  consult (Upsert index batch) o_upsert.

Definition index_query (index : JSString) (request : QueryRequest)
  : M (option (list Match)) :=
  consult (Query index request) o_query.

Definition index_deleteMany (index : JSString) (ids : list JSString) : M unit :=
  consult (DeleteMany index ids) o_deleteMany.

(** ** localStorage.ts (unnamed/part_001), on the browser's storage *)

(** [getStoredDocuments]: a failing read or parse yields the empty
    collection. *)
Definition getStoredDocuments : M (list LocalDocument) :=
  try_catch
    (stored <- localStorage_getItem ;;
     match stored with
     | Missing => ret []
     | Docs documents => ret documents
     | Corrupt => throw (js "Unexpected token in JSON")
     end)
    (fun _ => ret []).

(** [clearAllDocuments] *)
Definition clearAllDocuments : M unit := localStorage_removeItem.

Section Program.
Variable rt : Runtime.

(** [storeDocumentLocal] *)
Definition storeDocumentLocal (fileName fileType content : JSString)
    (userId : option JSString) : M unit :=
  try_catch
    (now <- Date_now ;;
     stamp <- Date_now ;;
     let document :=
       {| ld_id := fileName ++ js "_" ++ decimal now;
          ld_fileName := fileName;
          ld_fileType := fileType;
          ld_content := content;
          ld_timestamp := toISOString rt stamp;
          ld_userId := Some (if truthy userId
                             then match userId with Some u => u | None => [] end
                             else js "current-user") |} in
     existing <- getStoredDocuments ;;
     localStorage_setItem (existing ++ [document]))
    (fun error => throw error).

(** [getUserDocumentsLocal] and [searchDocumentsLocal] reading the store;
    their [catch] returns the empty list. *)
Definition readUserDocumentsLocal (userId : option JSString) : M (list LocalDocument) :=
  try_catch
    (documents <- getStoredDocuments ;;
     ret (getUserDocumentsLocal documents userId))
    (fun _ => ret []).

Definition readSearchDocumentsLocal (query : JSString) (userId : option JSString)
  : M (list LocalDocument) :=
  try_catch
    (documents <- getStoredDocuments ;;
     ret (searchDocumentsLocal rt documents query userId))
    (fun _ => ret []).

(** ** pinecone.ts *)

Definition initializePinecone : M unit :=
  cached <- get pineconeClient ;;
  if cached then ret tt
  else
    try_catch
      (apiKey <- get VITE_PINECONE_API_KEY ;;
       if negb (truthy apiKey)
       then throw (js "Pinecone API key not found in environment variables")
       else fun w => (Ok tt, set_pineconeClient true w))
      (fun error => throw error).

(** The readiness poll after [createIndex]: at most [retries] failed
    attempts, 2 s apart; it gives up silently. *)
Fixpoint waitForIndex (indexName : JSString) (retries : nat) : M unit :=
  match retries with
  | O => ret tt
  | S retries' =>
      try_catch (index_describeIndexStats indexName)
                (fun _ => sleep 2000 ;; waitForIndex indexName retries')
  end.

Definition getIndex : M JSString :=
  initializePinecone ;;
  configured <- get VITE_PINECONE_INDEX_NAME ;;
  let indexName :=
    if truthy configured then match configured with Some n => n | None => [] end
    else js "pulse-documents" in
  try_catch
    (indexes <- client_listIndexes ;;
     let indexExists :=
       match indexes with
       | Some names => existsb (fun name => jsstring_eqb name indexName) names
       | None => false
       end in
     when (negb indexExists)
          (client_createIndex indexName ;; waitForIndex indexName 30) ;;
     ret indexName)
    (fun error => throw error).

(** ** vectorUtils.ts *)

(** [generateEmbedding]: the [try] block, and on an exception the random
    vector of the [catch] block. *)
Definition generateEmbedding (text : JSString) : M (list float) :=
  match generateEmbedding_try rt text with
  | Ok embedding => ret embedding
  | Throw _ => draws <- Math_random 384 ;; ret (fallbackEmbedding draws)
  end.

(** The body of the loop over the chunks of one batch: [vectors.push] of
    the vector of chunk [chunkIndex], or nothing when preparing it throws. *)
Definition prepareVector (fileName fileType : JSString) (userId : option JSString)
    (totalChunks : nat) (vectors : list DocumentVector)
    (chunkIndex : nat) (chunk : JSString) : M (list DocumentVector) :=
  try_catch
    (embedding <- generateEmbedding chunk ;;
     now <- Date_now ;;
     stamp <- Date_now ;;
     let vector :=
       {| dv_id := sanitizeFileName fileName ++ js "_" ++ decimal now
                   ++ js "_" ++ decimal (Z.of_nat chunkIndex);
          dv_values := embedding;
          dv_metadata :=
            {| md_fileName := fileName;
               md_fileType := fileType;
               md_content := substring0 1000 chunk;
               md_timestamp := toISOString rt stamp;
               md_userId := if truthy userId
                            then match userId with Some u => u | None => [] end
                            else js "default-user";
               md_chunkIndex := Z.of_nat chunkIndex;
               md_totalChunks := Z.of_nat totalChunks;
               md_chunkLength := Z.of_nat (length chunk) |} |} in
     ret (vectors ++ [vector]))
    (fun _ => ret vectors).

(** The loop that embeds the chunks, five at a time, 100 ms apart. *)
Definition prepareVectors (fileName fileType : JSString) (userId : option JSString)
    (chunks : list JSString) : M (list DocumentVector) :=
  let batchSize := 5 in
  fold_each (loop_starts (length chunks) batchSize)
    (fun vectors i =>
       let batch := slice i (i + batchSize) chunks in
       vectors <- fold_each (combine (seq 0 (length batch)) batch)
                    (fun vectors jc =>
                       prepareVector fileName fileType userId (length chunks)
                                     vectors (i + fst jc) (snd jc))
                    vectors ;;
       when (i + batchSize <? length chunks) (sleep 100) ;;
       ret vectors)
    [].

(** The body of the upsert loop for the batch that starts at [i]: a
    failing batch is logged and nothing more. *)
Definition upsertBatch (index : JSString) (vectors : list DocumentVector) (i : nat)
  : M unit :=
  let upsertBatchSize := 10 in
  let batch := slice i (i + upsertBatchSize) vectors in
  try_catch
    (index_upsert index batch ;;
     when (i + upsertBatchSize <? length vectors) (sleep 200))
    (fun _ => ret tt).

(** The upsert loop: batches of ten, 200 ms apart. *)
Definition upsertBatches (index : JSString) (vectors : list DocumentVector) : M unit :=
  let upsertBatchSize := 10 in
  for_each (loop_starts (length vectors) upsertBatchSize) (upsertBatch index vectors).

(** [storeDocument] up to the upsert loop: the index and the vectors. *)
Definition storeDocument_prepare (fileName fileType content : JSString)
    (userId : option JSString) : M (JSString * list DocumentVector) :=
  apiKey <- get VITE_PINECONE_API_KEY ;;
  when (negb (truthy apiKey))
       (throw (js "Pinecone API key not available - check environment variables")) ;;
  index <- getIndex ;;
  let chunks := chunkText (cleanContent content) 800 in
  when (length chunks =? 0) (throw (js "No content chunks to process")) ;;
  vectors <- prepareVectors fileName fileType userId chunks ;;
  when (length vectors =? 0) (throw (js "No vectors were successfully created")) ;;
  ret (index, vectors).

Definition storeDocument (fileName fileType content : JSString)
    (userId : option JSString) : M unit :=
  try_catch
    (prepared <- storeDocument_prepare fileName fileType content userId ;;
     upsertBatches (fst prepared) (snd prepared))
    (fun error => throw error).

Definition userQuery (vector : list float) (topK : Z) (userId : option JSString)
  : QueryRequest :=
  {| q_vector := vector; q_topK := topK;
     q_filter_userId := if truthy userId then userId else None |}.

(** [searchDocuments] *)
Definition searchDocuments (query : JSString) (topK : Z) (userId : option JSString)
  : M (list Match) :=
  try_catch
    (index <- getIndex ;;
     queryEmbedding <- generateEmbedding query ;;
     matches <- index_query index (userQuery queryEmbedding topK userId) ;;
     ret (match matches with Some l => l | None => [] end))
    (fun error => throw error).

(** A document of the listing. *)
Record DocumentSummary := {
  ds_fileName : JSString;
  ds_fileType : option JSString;
  ds_timestamp : option JSString;
  ds_score : option float;
  ds_totalChunks : option Z
}.

(** The callback of [matches.forEach] in [getUserDocuments]: the first
    match of a file name is kept. *)
Definition collectDocument (documentsMap : list DocumentSummary) (m : Match)
  : list DocumentSummary :=
  match match_metadata m with
  | Some metadata =>
      match mm_fileName metadata with
      | Some fileName =>
          if truthy (Some fileName)
             && negb (existsb (fun d => jsstring_eqb (ds_fileName d) fileName) documentsMap)
          then documentsMap ++
               [{| ds_fileName := fileName;
                   ds_fileType := mm_fileType metadata;
                   ds_timestamp := mm_timestamp metadata;
                   ds_score := match_score m;
                   ds_totalChunks :=
                     Some (match mm_totalChunks metadata with
                           | Some n => if (n =? 0)%Z then 1%Z else n
                           | None => 1%Z
                           end) |}]
          else documentsMap
      | None => documentsMap
      end
  | None => documentsMap
  end.

(** The [try] block of [getUserDocuments]. *)
Definition getUserDocuments_try (userId : option JSString) : M (list DocumentSummary) :=
  index <- getIndex ;;
  let dummyVector := repeat 0.1%float 384 in
  matches <- index_query index (userQuery dummyVector 100 userId) ;;
  ret (fold_left collectDocument (match matches with Some l => l | None => [] end) []).

Definition getUserDocuments (userId : option JSString) : M (list DocumentSummary) :=
  try_catch (getUserDocuments_try userId) (fun _ => ret []).

(** The deletion loop: batches of 100, 200 ms apart, failures skipped. *)
Definition deleteBatches (index : JSString) (vectorIds : list JSString) : M unit :=
  let batchSize := 100 in
  for_each (loop_starts (length vectorIds) batchSize)
    (fun i =>
       let batch := slice i (i + batchSize) vectorIds in
       try_catch
         (index_deleteMany index batch ;;
          when (i + batchSize <? length vectorIds) (sleep 200))
         (fun _ => ret tt)).

(** [clearUserDocuments] *)
Definition clearUserDocuments (userId : option JSString) : M unit :=
  try_catch
    (index <- getIndex ;;
     documents <- getUserDocuments userId ;;
     if length documents =? 0 then ret tt
     else
       let dummyVector := repeat 0.1%float 384 in
       matches <- index_query index (userQuery dummyVector 10000 userId) ;;
       let vectorIds := map match_id (match matches with Some l => l | None => [] end) in
       if length vectorIds =? 0 then ret tt
       else deleteBatches index vectorIds)
    (fun error => throw error).

(** [clearAllStoredDocuments] *)
Definition clearAllStoredDocuments (userId : option JSString) : M unit :=
  try_catch
    (clearAllDocuments ;;
     clearUserDocuments userId)
    (fun error =>
       try_catch clearAllDocuments (fun _ => ret tt) ;;
       throw error).

(** ** DocumentManager.tsx: the listing *)

Inductive StorageMethod := pinecone | local | unknown.

(** The state of the component that [loadUserDocuments] writes. *)
Record ManagerState := {
  documents : list DocumentSummary;
  lastError : option JSString;
  storageMethod : StorageMethod;
  isLoading : bool
}.

(** The check of the environment before the remote listing. *)
Definition configured (w : World) : bool :=
  truthy (VITE_PINECONE_API_KEY w) && truthy (VITE_PINECONE_INDEX_NAME w).

Definition localSummary (doc : LocalDocument) : DocumentSummary :=
  {| ds_fileName := ld_fileName doc;
     ds_fileType := Some (ld_fileType doc);
     ds_timestamp := Some (ld_timestamp doc);
     ds_score := Some 1%float;
     ds_totalChunks := None |}.

(** The inner [try]/[catch] of [loadUserDocuments]: the documents, the
    storage method set, and the error message recorded. *)
Definition loadUserDocuments_sources
  : M (list DocumentSummary * StorageMethod * option JSString) :=
  try_catch
    (ok <- get configured ;;
     when (negb ok) (throw (js "Missing Pinecone environment variables")) ;;
     userDocs <- getUserDocuments (Some (js "current-user")) ;;
     ret (userDocs, pinecone, None))
    (fun pineconeError =>
       try_catch
         (localDocs <- readUserDocumentsLocal (Some (js "current-user")) ;;
          ret (map localSummary localDocs, local,
               Some (js "Pinecone error: " ++ pineconeError)))
         (fun localError => throw localError)).

Definition loadUserDocuments (s : ManagerState) : M ManagerState :=
  try_catch
    (loaded <- loadUserDocuments_sources ;;
     let '(userDocs, method, error) := loaded in
     ret {| documents := userDocs; lastError := error;
            storageMethod := method; isLoading := false |})
    (fun error =>
       ret {| documents := []; lastError := Some error;
              storageMethod := storageMethod s; isLoading := false |}).

(** ** The storage step of [processFile] (utils/markdownParser.ts, 508-571) *)

Record ProcessedFile := {
  pf_name : JSString;
  pf_type : JSString;
  pf_size : Z;
  pf_content : JSString;
  pf_error : option JSString
}.

(** What [processFile] does with the [fileInfo] its extraction produced:
    store the cleaned content when it is longer than 50 code units, in the
    index or else locally, and add a note to the content. *)
Definition processFile_store (storeInPinecone : bool) (fileInfo : ProcessedFile)
  : M ProcessedFile :=
  if storeInPinecone
     && truthy (Some (pf_content fileInfo))
     && negb (truthy (pf_error fileInfo))
  then
    let cleaned := processFile_cleanContent (pf_content fileInfo) in
    if 50 <? length cleaned then
      let fileType := if truthy (Some (pf_type fileInfo))
                      then pf_type fileInfo else js "unknown" in
      let user := Some (js "current-user") in
      storageMethod <-
        try_catch
          (storeDocument (pf_name fileInfo) fileType cleaned user ;;
           ret (Some (js "Pinecone vector database")))
          (fun _ =>
             try_catch
               (storeDocumentLocal (pf_name fileInfo) fileType cleaned user ;;
                ret (Some (js "local storage (fallback)")))
               (fun _ => ret None)) ;;
      let note :=
        match storageMethod with
        | Some method =>
            js "**" ++ [55357; 56550]%N ++ js " Document Storage:** Successfully stored in "
            ++ method
            ++ js " for future search and retrieval."
        | None =>
            js "**" ++ [9888; 65039]%N
            ++ js " Storage Note:** Document processing completed, but storage encountered issues. File content is still available for analysis."
        end in
      ret {| pf_name := pf_name fileInfo; pf_type := pf_type fileInfo;
             pf_size := pf_size fileInfo;
             pf_content := pf_content fileInfo ++ [NEWLINE; NEWLINE] ++ note;
             pf_error := pf_error fileInfo |}
    else ret fileInfo
  else ret fileInfo.
End Program.

(** Is the event a write to one of the two stores? *)
Definition is_persistence (e : Event) : bool :=
  match e with
  | Upsert _ _ | SetItem _ => true
  | _ => false
  end.

Definition upserted (e : Event) : list (list DocumentVector) :=
  match e with
  | Upsert _ batch => [batch]
  | _ => []
  end.

(** ** Worlds for the examples *)

(** A service on which every call succeeds and the index exists; the clock
    stands still. *)
Definition healthyOracle : Oracle := {|
  o_listIndexes := fun _ => Ok (Some [js "pulse-documents"]);
  o_createIndex := fun _ => Ok tt;
  o_describeIndexStats := fun _ => Ok tt;
  o_upsert := fun _ => Ok tt;
  o_query := fun _ => Ok (Some []);
  o_deleteMany := fun _ => Ok tt;
  o_storage := fun _ => Ok tt;
  o_now := fun _ => 1700000000000%Z;
  o_random := fun _ => 0.25%float
|}.

Definition emptyWorld (apiKey indexName : option JSString) : World := {|
  oracle := healthyOracle;
  tick := 0;
  VITE_PINECONE_API_KEY := apiKey;
  VITE_PINECONE_INDEX_NAME := indexName;
  pineconeClient := false;
  localItem := Missing;
  trace := []
|}.

Definition configuredWorld : World :=
  emptyWorld (Some (js "pc-key")) (Some (js "pulse-documents")).

Definition unconfiguredWorld : World := emptyWorld None None.

Definition exampleDoc (fileName content : string) : LocalDocument := {|
  ld_id := js fileName;
  ld_fileName := js fileName;
  ld_fileType := js "text/plain";
  ld_content := js content;
  ld_timestamp := js "2024-01-01T00:00:00.000Z";
  ld_userId := Some (js "current-user")
|}.

(** A service that rejects every upsert. *)
Definition rejectingOracle : Oracle := {|
  o_listIndexes := o_listIndexes healthyOracle;
  o_createIndex := o_createIndex healthyOracle;
  o_describeIndexStats := o_describeIndexStats healthyOracle;
  o_upsert := fun _ => Throw (js "429 Too Many Requests");
  o_query := o_query healthyOracle;
  o_deleteMany := o_deleteMany healthyOracle;
  o_storage := o_storage healthyOracle;
  o_now := o_now healthyOracle;
  o_random := o_random healthyOracle
|}.

Definition rejectingWorld : World := {|
  oracle := rejectingOracle;
  tick := 0;
  VITE_PINECONE_API_KEY := Some (js "pc-key");
  VITE_PINECONE_INDEX_NAME := Some (js "pulse-documents");
  pineconeClient := false;
  localItem := Missing;
  trace := []
|}.

(** Twelve sentences of 510 code units each, in tokens of two letters:
    twelve chunks. *)
Definition twelveSentences : JSString :=
  concat (repeat (concat (repeat (js "ab ") 170) ++ [DOT]) 12).

Definition shortFile : ProcessedFile := {|
  pf_name := js "note.txt";
  pf_type := js "text/plain";
  pf_size := 2;
  pf_content := js "hi";
  pf_error := None
|}.

(** ** Kinds of calls *)

(** Calls on the browser's storage. *)
Definition is_local_call (e : Event) : bool :=
  match e with
  | GetItem | SetItem _ | RemoveItem => true
  | _ => false
  end.

(** Calls on the vector service. *)
Definition is_remote_call (e : Event) : bool :=
  match e with
  | ListIndexes | CreateIndex _ | DescribeIndexStats _
  | Upsert _ _ | Query _ _ | DeleteMany _ _ => true
  | _ => false
  end.

(** Calls that change the vectors of an index. *)
Definition is_vector_write (e : Event) : bool :=
  match e with
  | Upsert _ _ | DeleteMany _ _ => true
  | _ => false
  end.

Definition is_poll (e : Event) : bool :=
  match e with
  | DescribeIndexStats _ => true
  | _ => false
  end.

Definition is_create (e : Event) : bool :=
  match e with
  | CreateIndex _ => true
  | _ => false
  end.

Definition deleted (e : Event) : list (list JSString) :=
  match e with
  | DeleteMany _ ids => [ids]
  | _ => []
  end.

(** ** DocumentManager.tsx: searching and clearing *)

(** An element of [searchResults]: a match of the index, or a local record
    reshaped by the fallback. *)
Inductive SearchHit :=
| RemoteHit (m : Match)
| LocalHit (r : SearchResult).

Record SearchState := {
  searchQuery : JSString;
  searchResults : list SearchHit;
  isSearching : bool
}.

Section Manager.
Variable rt : Runtime.

(** [handleSearch] *)
Definition handleSearch (s : SearchState) : M SearchState :=
  if negb (truthy (Some (trim (searchQuery s))))
  then ret {| searchQuery := searchQuery s; searchResults := [];
              isSearching := isSearching s |}
  else
    try_catch
      (results <-
         try_catch
           (results <- searchDocuments rt (searchQuery s) 10 (Some (js "current-user")) ;;
            ret (map RemoteHit results))
           (fun _ =>
              localResults <-
                readSearchDocumentsLocal rt (searchQuery s) (Some (js "current-user")) ;;
              ret (map LocalHit (managerFallbackResults localResults))) ;;
       ret {| searchQuery := searchQuery s; searchResults := results;
              isSearching := false |})
      (fun _ =>
         ret {| searchQuery := searchQuery s; searchResults := [];
                isSearching := false |}).

(** The state [handleClearAllDocuments] writes. *)
Record ClearState := {
  listing : ManagerState;
  search : SearchState;
  isClearing : bool;
  showClearDialog : bool
}.

(** [handleClearAllDocuments] *)
Definition handleClearAllDocuments (s : ClearState) : M ClearState :=
  let cleared :=
    {| documents := documents (listing s); lastError := None;
       storageMethod := storageMethod (listing s);
       isLoading := isLoading (listing s) |} in
  try_catch
    (clearAllStoredDocuments (Some (js "current-user")) ;;
     loaded <- loadUserDocuments cleared ;;
     ret {| listing := loaded;
            search := {| searchQuery := []; searchResults := [];
                         isSearching := isSearching (search s) |};
            isClearing := false; showClearDialog := false |})
    (fun error =>
       ret {| listing :=
                {| documents := documents cleared;
                   lastError := Some (js "Failed to clear all documents: " ++ error);
                   storageMethod := storageMethod cleared;
                   isLoading := isLoading cleared |};
              search := search s;
              isClearing := false; showClearDialog := false |}).
End Manager.

(** ** Chat history (useChatHistory, in utils/markdownParser.ts 607-741) *)

(** [generateSessionTitle] *)
Definition generateSessionTitle (firstMessage : JSString) : JSString :=
  let cleaned := map (fun c => if (c =? 10)%N then SPACE else c) (trim firstMessage) in
  if 50 <? length cleaned then substring0 47 cleaned ++ js "..." else cleaned.

Inductive Role := role_user | role_assistant.

Definition role_eqb (a b : Role) : bool :=
  match a, b with
  | role_user, role_user | role_assistant, role_assistant => true
  | _, _ => false
  end.

(** A message; the timestamp is the time value of its [Date]. *)
Record ChatMessage := {
  cm_role : Role;
  cm_content : JSString;
  cm_imageUrl : option JSString;
  cm_fileName : option JSString;
  cm_timestamp : option Z
}.

Record ChatSession := {
  cs_id : JSString;
  cs_title : JSString;
  cs_messages : list ChatMessage;
  cs_createdAt : Z;
  cs_updatedAt : Z
}.

Definition optZ_eqb (a b : option Z) : bool :=
  match a, b with
  | Some x, Some y => (x =? y)%Z
  | None, None => true
  | _, _ => false
  end.

(** [a.find(p)] *)
Fixpoint js_find {A : Type} (p : A -> bool) (a : list A) : option A :=
  match a with
  | [] => None
  | x :: a' => if p x then Some x else js_find p a'
  end.

(** The first test of [updateSession], for a session of as many messages:
    every stored message agrees with the new one at its index in content,
    role and time. *)
Definition messagesMatch (stored messages : list ChatMessage) : bool :=
  forallb (fun p => match nth_error messages (fst p) with
                    | Some new =>
                        jsstring_eqb (cm_content (snd p)) (cm_content new)
                        && role_eqb (cm_role (snd p)) (cm_role new)
                        && optZ_eqb (cm_timestamp (snd p)) (cm_timestamp new)
                    | None => false
                    end)
          (combine (seq 0 (length stored)) stored).

(** The second test: as many messages, the last ones agreeing in content
    and role. *)
Definition lastMessageMatches (stored messages : list ChatMessage) : bool :=
  match nth_error stored (length stored - 1), nth_error messages (length messages - 1) with
  | Some lastExisting, Some lastNew =>
      (0 <? length messages)
      && jsstring_eqb (cm_content lastExisting) (cm_content lastNew)
      && role_eqb (cm_role lastExisting) (cm_role lastNew)
      && (length messages =? length stored)
  | _, _ => false
  end.

(** [messages.map(msg => ({...msg, timestamp: msg.timestamp || new Date()}))] *)
Fixpoint stampMessages (messages : list ChatMessage) : M (list ChatMessage) :=
  match messages with
  | [] => ret []
  | msg :: rest =>
      stamped <-
        match cm_timestamp msg with
        | Some _ => ret msg
        | None =>
            now <- Date_now ;;
            ret {| cm_role := cm_role msg; cm_content := cm_content msg;
                   cm_imageUrl := cm_imageUrl msg; cm_fileName := cm_fileName msg;
                   cm_timestamp := Some now |}
        end ;;
      rest' <- stampMessages rest ;;
      ret (stamped :: rest')
  end.

(** The callback of [prev.map] in [updateSession]. *)
Definition updateOne (sessionId : JSString) (messages : list ChatMessage)
    (session : ChatSession) : M ChatSession :=
  if jsstring_eqb (cs_id session) sessionId then
    stamped <- stampMessages messages ;;
    updatedAt <- Date_now ;;
    ret {| cs_id := cs_id session;
           cs_title :=
             match cs_messages session, messages with
             | [], first :: _ => generateSessionTitle (cm_content first)
             | _, _ => cs_title session
             end;
           cs_messages := stamped;
           cs_createdAt := cs_createdAt session;
           cs_updatedAt := updatedAt |}
  else ret session.

Fixpoint map_each {A B : Type} (f : A -> M B) (l : list A) : M (list B) :=
  match l with
  | [] => ret []
  | x :: l' => y <- f x ;; ys <- map_each f l' ;; ret (y :: ys)
  end.

(** The state update of [updateSession]: from the sessions [prev] to the
    next ones. *)
Definition updateSession (sessionId : JSString) (messages : list ChatMessage)
    (prev : list ChatSession) : M (list ChatSession) :=
  let existingSession := js_find (fun s => jsstring_eqb (cs_id s) sessionId) prev in
  match existingSession with
  | Some existing =>
      if (length (cs_messages existing) =? length messages)
         && messagesMatch (cs_messages existing) messages
      then ret prev
      else if lastMessageMatches (cs_messages existing) messages
      then ret prev
      else map_each (updateOne sessionId messages) prev
  | None => map_each (updateOne sessionId messages) prev
  end.

(** ** Invariants used in the proofs *)

(** The loop invariant: the closed chunks are the renderings of the groups
    [done], the buffer is the rendering of the open group [g]. *)
Definition chunk_inv (done : list (list JSString)) (g : list JSString)
    (st : list JSString * JSString) : Prop :=
  fst st = map trim (render_groups done) /\
  snd st = render (match done with [] => true | _ => false end) g /\
  Forall (fun g0 => g0 <> []) done /\
  (g = [] -> done = []).

(** The sizes the loop keeps: a closed chunk, and the open buffer, is
    within maxChunkSize + 1, or is one over-long sentence of [all]; the buffer
    may also be empty. *)
Definition sized_chunk (maxChunkSize : Z) (all : list JSString) (chunk : JSString)
  : Prop :=
  (Z.of_nat (length chunk) <= maxChunkSize + 1)%Z \/
  exists s, In s all /\ (maxChunkSize < Z.of_nat (length s))%Z /\
            (chunk = trim s \/ chunk = trim (s ++ [DOT])).

Definition sized_buffer (maxChunkSize : Z) (all : list JSString) (buffer : JSString)
  : Prop :=
  buffer = [] \/
  (Z.of_nat (length buffer) <= maxChunkSize + 1)%Z \/
  exists s, In s all /\ (maxChunkSize < Z.of_nat (length s))%Z /\
            (buffer = s \/ buffer = s ++ [DOT]).

(** A computation that leaves the local store as it found it. *)
Definition keeps_local {A : Type} (m : M A) : Prop :=
  forall w, localItem (snd (m w)) = localItem w.


(** A computation that makes no call of the kind [p]. *)
Definition quiet {A : Type} (p : Event -> bool) (m : M A) : Prop :=
  forall w, filter p (trace (snd (m w))) = filter p (trace w).

(** Code units a list of sentences takes in the buffer, each with its
    separator. *)
Definition buffer_size (sentences : list JSString) : nat :=
  list_sum (map (fun s => S (length s)) sentences).

(** A computation that neither changes the local collection nor calls the
    browser's storage. *)
Definition leaves_local_store {A : Type} (m : M A) : Prop :=
  keeps_local m /\ quiet is_local_call m.

(** The total of a measure over the calls of a trace, and a computation
    that adds at most [n] to it. *)
Definition cost (measure : Event -> Z) (events : list Event) : Z :=
  fold_right (fun e total => measure e + total)%Z 0%Z events.

Definition costs_at_most {A : Type} (measure : Event -> Z) (n : Z) (m : M A) : Prop :=
  forall w, (cost measure (trace (snd (m w))) <= cost measure (trace w) + n)%Z.

(** The number of calls of kind [p] in a trace. *)
Definition calls (p : Event -> bool) (events : list Event) : Z :=
  cost (fun e => if p e then 1 else 0)%Z events.

(** Milliseconds slept in a trace. *)
Definition sleep_ms (e : Event) : Z :=
  match e with
  | Sleep ms => ms
  | _ => 0%Z
  end.

Definition slept (events : list Event) : Z := cost sleep_ms events.

(** The index name [getIndex] uses in a world. *)
Definition indexName_of (w : World) : JSString :=
  if truthy (VITE_PINECONE_INDEX_NAME w)
  then match VITE_PINECONE_INDEX_NAME w with Some n => n | None => [] end
  else js "pulse-documents".

(** A service with no index yet, whose readiness poll never succeeds. *)
Definition coldOracle : Oracle := {|
  o_listIndexes := fun _ => Ok (Some []);
  o_createIndex := fun _ => Ok tt;
  o_describeIndexStats := fun _ => Throw (js "404 Not Found");
  o_upsert := fun _ => Ok tt;
  o_query := fun _ => Ok (Some []);
  o_deleteMany := fun _ => Ok tt;
  o_storage := fun _ => Ok tt;
  o_now := fun _ => 1700000000000%Z;
  o_random := fun _ => 0.25%float
|}.

Definition coldWorld : World := {|
  oracle := coldOracle;
  tick := 0;
  VITE_PINECONE_API_KEY := Some (js "pc-key");
  VITE_PINECONE_INDEX_NAME := None;
  pineconeClient := false;
  localItem := Missing;
  trace := []
|}.

(** The file name a match carries, if any. *)
Definition match_fileName (m : Match) : option JSString :=
  match match_metadata m with
  | Some metadata => mm_fileName metadata
  | None => None
  end.

(** The collection a read of the local store yields. *)
Definition stored_documents (w : World) : list LocalDocument :=
  match localItem w with
  | Docs documents => documents
  | _ => []
  end.

(** A world with two local documents and no API key. *)
Definition offlineWorld : World := {|
  oracle := healthyOracle;
  tick := 0;
  VITE_PINECONE_API_KEY := None;
  VITE_PINECONE_INDEX_NAME := None;
  pineconeClient := false;
  localItem := Docs [exampleDoc "plan.txt" "the launch plan";
                     exampleDoc "notes.txt" "meeting notes"];
  trace := []
|}.

(** A service whose queries fail. *)
Definition deafOracle : Oracle := {|
  o_listIndexes := o_listIndexes healthyOracle;
  o_createIndex := o_createIndex healthyOracle;
  o_describeIndexStats := o_describeIndexStats healthyOracle;
  o_upsert := o_upsert healthyOracle;
  o_query := fun _ => Throw (js "503 Service Unavailable");
  o_deleteMany := o_deleteMany healthyOracle;
  o_storage := o_storage healthyOracle;
  o_now := o_now healthyOracle;
  o_random := o_random healthyOracle
|}.

Definition deafWorld : World := {|
  oracle := deafOracle;
  tick := 0;
  VITE_PINECONE_API_KEY := Some (js "pc-key");
  VITE_PINECONE_INDEX_NAME := Some (js "pulse-documents");
  pineconeClient := false;
  localItem := Missing;
  trace := []
|}.

(** The file type [processFile] stores a file under. *)
Definition storedType (fileInfo : ProcessedFile) : JSString :=
  if truthy (Some (pf_type fileInfo)) then pf_type fileInfo else js "unknown".

(** The note [processFile] adds to the content after storeDocument returned. *)
Definition pineconeNote : JSString :=
  [NEWLINE; NEWLINE] ++ js "**" ++ [55357; 56550]%N
  ++ js " Document Storage:** Successfully stored in "
  ++ js "Pinecone vector database" ++ js " for future search and retrieval.".

(** A file of twenty two-letter tokens. *)
Definition tokensFile : ProcessedFile := {|
  pf_name := js "tokens.txt";
  pf_type := js "text/plain";
  pf_size := 60;
  pf_content := concat (repeat (js "ab ") 20);
  pf_error := None
|}.

(** ** Chat sessions *)

(** The test of [prev.find] in [updateSession]. *)
Definition has_id (sessionId : JSString) (s : ChatSession) : bool :=
  jsstring_eqb (cs_id s) sessionId.

(** [a[a.length - 1]] *)
Definition last_message (messages : list ChatMessage) : option ChatMessage :=
  nth_error messages (length messages - 1).

(** What an update may do to one session of the list. *)
Definition same_slot (sessionId : JSString) (s s' : ChatSession) : Prop :=
  cs_id s' = cs_id s /\
  cs_createdAt s' = cs_createdAt s /\
  (cs_id s <> sessionId -> s' = s) /\
  (cs_messages s <> [] -> cs_title s' = cs_title s).

(** The session [s] after the messages [messages] were written to it. *)
Definition written (messages : list ChatMessage) (s s' : ChatSession) : Prop :=
  cs_id s' = cs_id s /\
  map cm_content (cs_messages s') = map cm_content messages /\
  map cm_role (cs_messages s') = map cm_role messages /\
  Forall (fun m => cm_timestamp m <> None) (cs_messages s') /\
  (cs_messages s <> [] -> cs_title s' = cs_title s) /\
  (cs_messages s = [] ->
   forall first rest, messages = first :: rest ->
                      cs_title s' = generateSessionTitle (cm_content first)).

Definition message (role : Role) (content : string) (time : Z) : ChatMessage :=
  {| cm_role := role; cm_content := js content; cm_imageUrl := None;
     cm_fileName := None; cm_timestamp := Some time |}.

Definition draftSession : ChatSession :=
  {| cs_id := js "session_1"; cs_title := js "Chat 1";
     cs_messages := [message role_user "draft" 1; message role_assistant "ok" 2];
     cs_createdAt := 0; cs_updatedAt := 2 |}.

Definition emptySession : ChatSession :=
  {| cs_id := js "session_2"; cs_title := js "Chat 2"; cs_messages := [];
     cs_createdAt := 3; cs_updatedAt := 3 |}.

(** A first message of two lines, not yet stamped. *)
Definition twoLines : ChatMessage :=
  {| cm_role := role_user;
     cm_content := js "one line" ++ [NEWLINE] ++ js "and another";
     cm_imageUrl := None; cm_fileName := None; cm_timestamp := None |}.

(** ** Prepared vectors *)

(** The vector [storeDocument] prepares for the chunk [chunk], the chunk
    number [chunkIndex] of [totalChunks], up to the clock readings. *)
Definition prepared_from (fileName fileType : JSString) (userId : option JSString)
    (totalChunks chunkIndex : nat) (chunk : JSString) (v : DocumentVector) : Prop :=
  (exists now, dv_id v = sanitizeFileName fileName ++ js "_" ++ decimal now
                         ++ js "_" ++ decimal (Z.of_nat chunkIndex)) /\
  length (dv_values v) = 384 /\
  md_fileName (dv_metadata v) = fileName /\
  md_fileType (dv_metadata v) = fileType /\
  md_content (dv_metadata v) = substring0 1000 chunk /\
  md_userId (dv_metadata v) = (if truthy userId
                               then match userId with Some u => u | None => [] end
                               else js "default-user") /\
  md_chunkIndex (dv_metadata v) = Z.of_nat chunkIndex /\
  md_totalChunks (dv_metadata v) = Z.of_nat totalChunks /\
  md_chunkLength (dv_metadata v) = Z.of_nat (length chunk).

(** [vectors] holds the vectors of the first [n] chunks, in order. *)
Definition prepared_upto (fileName fileType : JSString) (userId : option JSString)
    (chunks : list JSString) (n : nat) (vectors : list DocumentVector) : Prop :=
  length vectors = n /\
  forall j v, nth_error vectors j = Some v ->
              exists chunk, nth_error chunks j = Some chunk /\
                            prepared_from fileName fileType userId (length chunks) j chunk v.

(** An API key but no index name, and one document in the local store. *)
Definition namelessWorld : World :=
  set_localItem (Docs [exampleDoc "plan.txt" "the launch plan"])
                (emptyWorld (Some (js "pc-key")) None).

(** * Properties *)

(** ** Strings *)

Lemma trimStart_nil_iff (s : JSString) :
  trimStart s = [] <-> forallb isWhiteSpace s = true.
Proof.
  induction s as [|c s IH]; simpl.
  - tauto.
  - destruct (isWhiteSpace c); simpl.
    + exact IH.
    + split; discriminate.
Qed.

Lemma trimStart_fixed (s : JSString) :
  forallb isWhiteSpace (trimStart s) = true -> trimStart s = [].
Proof.
  induction s as [|c s IH]; simpl; auto.
  destruct (isWhiteSpace c) eqn:E; auto.
  simpl. rewrite E. discriminate.
Qed.

Lemma forallb_rev {A} (p : A -> bool) (l : list A) :
  forallb p (rev l) = forallb p l.
Proof.
  induction l as [|a l IH]; simpl; auto.
  rewrite forallb_app, IH. simpl. rewrite andb_true_r. apply andb_comm.
Qed.

Lemma trim_nil_iff (s : JSString) :
  trim s = [] <-> forallb isWhiteSpace s = true.
Proof.
  unfold trim, trimEnd. split.
  - intros H. apply (f_equal (@rev _)) in H. rewrite rev_involutive in H.
    simpl in H. apply trimStart_nil_iff in H. rewrite forallb_rev in H.
    apply trimStart_fixed in H. now apply trimStart_nil_iff.
  - intros H. apply trimStart_nil_iff in H. rewrite H. reflexivity.
Qed.

Lemma nonblank_app_l (s t : JSString) : nonblank s -> nonblank (s ++ t).
Proof.
  unfold nonblank. intros H C. apply H. apply trim_nil_iff.
  apply trim_nil_iff in C. rewrite forallb_app in C.
  now apply andb_true_iff in C.
Qed.

Lemma nonblank_app_r (s t : JSString) : nonblank t -> nonblank (s ++ t).
Proof.
  unfold nonblank. intros H C. apply H. apply trim_nil_iff.
  apply trim_nil_iff in C. rewrite forallb_app in C.
  now apply andb_true_iff in C.
Qed.

Lemma nonblank_length (s : JSString) :
  (0 <? length (trim s)) = true <-> nonblank s.
Proof.
  unfold nonblank. rewrite Nat.ltb_lt. destruct (trim s); simpl; split;
    intros; try lia; congruence.
Qed.

Lemma sentences_nonblank (text : JSString) :
  Forall nonblank (sentences_of text).
Proof.
  apply Forall_forall. intros s Hs. unfold sentences_of in Hs.
  apply filter_In in Hs. now apply nonblank_length.
Qed.

(** ** The chunker *)

Lemma render_snoc (b : bool) (g : list JSString) (s : JSString) :
  g <> [] -> render b (g ++ [s]) = render b g ++ s ++ [DOT].
Proof.
  destruct g as [|s0 rest]; [congruence|]. intros _. simpl.
  rewrite map_app, concat_app. simpl. unfold withDot at 3.
  now rewrite app_nil_r, app_assoc.
Qed.

Lemma render_nonblank (b : bool) (g : list JSString) :
  g <> [] -> Forall nonblank g -> nonblank (render b g).
Proof.
  destruct g as [|s rest]; [congruence|]. intros _ H.
  apply Forall_inv in H. simpl. apply nonblank_app_l.
  destruct b; [apply nonblank_app_l|]; exact H.
Qed.

Lemma render_groups_snoc (done : list (list JSString)) (g : list JSString) :
  render_groups (done ++ [g]) =
  render_groups done ++ [render (match done with [] => true | _ => false end) g].
Proof.
  destruct done as [|g0 done]; simpl; [reflexivity|].
  now rewrite map_app.
Qed.

Lemma chunk_step_inv (maxChunkSize : Z) done g st (s : JSString) :
  chunk_inv done g st ->
  exists done' g',
    chunk_inv done' g' (chunk_step maxChunkSize st s) /\
    g' <> [] /\
    concat done' ++ g' = (concat done ++ g) ++ [s].
Proof.
  destruct st as [chunks cur]. intros (Hc & Hb & Hne & Hg). simpl in Hc, Hb.
  unfold chunk_step.
  destruct ((Z.of_nat (length cur) + Z.of_nat (length s) >? maxChunkSize)%Z
            && (0 <? length cur)) eqn:E.
  - apply andb_true_iff in E. destruct E as [_ E]. apply Nat.ltb_lt in E.
    assert (Hgne : g <> []).
    { intros ->. rewrite Hb in E. destruct done; simpl in E; lia. }
    exists (done ++ [g]), [s]. repeat split.
    + simpl. rewrite render_groups_snoc, map_app, Hc, Hb. reflexivity.
    + simpl. destruct done; simpl. now rewrite app_nil_r. now rewrite app_nil_r.
    + apply Forall_app. split; auto.
    + discriminate.
    + discriminate.
    + rewrite concat_app. simpl. now rewrite app_nil_r.
  - exists done, (g ++ [s]). repeat split.
    + exact Hc.
    + simpl. destruct g as [|s0 rest].
      * rewrite (Hg eq_refl) in *. simpl in Hb. subst cur. simpl.
        unfold withDot. now rewrite app_nil_r.
      * rewrite Hb. symmetry. apply render_snoc. discriminate.
    + exact Hne.
    + intros C. now destruct g.
    + intros C. now destruct g.
    + now rewrite app_assoc.
Qed.

Lemma chunk_loop_inv (maxChunkSize : Z) (sentences : list JSString) :
  forall done g st,
    chunk_inv done g st ->
    exists done' g',
      chunk_inv done' g' (chunk_loop maxChunkSize sentences st) /\
      (sentences <> [] -> g' <> []) /\
      concat done' ++ g' = (concat done ++ g) ++ sentences.
Proof.
  induction sentences as [|s rest IH]; intros done g st Hinv.
  - exists done, g. split; [exact Hinv|]. split; [congruence|].
    now rewrite app_nil_r.
  - destruct (chunk_step_inv maxChunkSize done g st s Hinv)
      as (d1 & g1 & H1 & Hne1 & Hcat1).
    destruct (IH d1 g1 _ H1) as (d2 & g2 & H2 & Hne2 & Hcat2).
    exists d2, g2. split; [|split].
    + exact H2.
    + intros _. destruct rest as [|s' rest'].
      * simpl in H2, Hcat2. rewrite app_nil_r in Hcat2.
        intros ->. rewrite app_nil_r in Hcat2.
        destruct H2 as (_ & _ & _ & H2). rewrite (H2 eq_refl) in Hcat2.
        simpl in Hcat2. destruct (concat d1); destruct g1; simpl in *; congruence.
      * apply Hne2. discriminate.
    + rewrite Hcat2, Hcat1, <- app_assoc. reflexivity.
Qed.

(** The grouping of the sentences behind the chunks: the chunks are the
    trimmed renderings of consecutive, non-empty groups of the sentences.
    A rendering glues the sentence that opens a later chunk to the one
    after it. *)
Lemma chunk_groups (text : JSString) (maxChunkSize : Z) :
  exists groups : list (list JSString),
    concat groups = sentences_of text /\
    Forall (fun g => g <> []) groups /\
    chunkText text maxChunkSize = map trim (render_groups groups).
Proof.
  unfold chunkText.
  destruct (chunk_loop_inv maxChunkSize (sentences_of text) [] [] ([], []))
    as (done & g & Hinv & Hne & Hcat).
  { repeat split; auto. }
  simpl in Hcat.
  destruct (chunk_loop maxChunkSize (sentences_of text) ([], [])) as [chunks cur].
  destruct Hinv as (Hc & Hb & Hdone & Hg). simpl in Hc, Hb.
  unfold chunk_flush.
  destruct g as [|s0 rest].
  - rewrite (Hg eq_refl) in *. simpl in Hb. subst cur. simpl.
    exists []. simpl in *. repeat split; auto.
  - assert (Hnb : nonblank cur).
    { rewrite Hb. apply render_nonblank; [discriminate|].
      pose proof (sentences_nonblank text) as Hs. rewrite <- Hcat in Hs.
      apply Forall_app in Hs. tauto. }
    apply nonblank_length in Hnb. rewrite Hnb.
    exists (done ++ [s0 :: rest]). repeat split.
    + rewrite concat_app. simpl. now rewrite app_nil_r.
    + apply Forall_app. split; auto. constructor; [discriminate|constructor].
    + rewrite render_groups_snoc, map_app, Hc, Hb. reflexivity.
Qed.


Lemma trimStart_length (s : JSString) : length (trimStart s) <= length s.
Proof.
  induction s as [|c s IH]; simpl; [lia|].
  destruct (isWhiteSpace c); simpl; lia.
Qed.

Lemma trim_length (s : JSString) : length (trim s) <= length s.
Proof.
  unfold trim, trimEnd. rewrite length_rev.
  pose proof (trimStart_length (rev (trimStart s))) as H.
  rewrite length_rev in H. pose proof (trimStart_length s). lia.
Qed.

Lemma chunk_step_sizes (maxChunkSize : Z) (all : list JSString)
    (st : list JSString * JSString) (s : JSString) :
  In s all ->
  Forall (sized_chunk maxChunkSize all) (fst st) ->
  sized_buffer maxChunkSize all (snd st) ->
  Forall (sized_chunk maxChunkSize all) (fst (chunk_step maxChunkSize st s)) /\
  sized_buffer maxChunkSize all (snd (chunk_step maxChunkSize st s)).
Proof.
  destruct st as [chunks cur]. simpl. intros Hs Hchunks Hcur. unfold chunk_step.
  destruct ((Z.of_nat (length cur) + Z.of_nat (length s) >? maxChunkSize)%Z
            && (0 <? length cur)) eqn:E; simpl.
  - apply andb_true_iff in E. destruct E as [_ E]. apply Nat.ltb_lt in E. split.
    + apply Forall_app. split; [exact Hchunks|]. constructor; [|constructor].
      destruct Hcur as [->|[H|(s0 & H1 & H2 & H3)]]; [simpl in E; lia| |].
      * left. pose proof (trim_length cur). lia.
      * right. exists s0. repeat split; auto.
        destruct H3 as [->| ->]; [left|right]; reflexivity.
    + right. destruct (Z.leb_spec (Z.of_nat (length s)) (maxChunkSize + 1)) as [L|L].
      * left. exact L.
      * right. exists s. repeat split; auto. lia.
  - split; [exact Hchunks|]. right.
    apply andb_false_iff in E. rewrite !length_app. simpl.
    destruct E as [E|E].
    + left. rewrite Z.gtb_ltb in E. apply Z.ltb_ge in E. lia.
    + apply Nat.ltb_ge in E. destruct cur; simpl in *; [|lia].
      destruct (Z.leb_spec (Z.of_nat (length s)) maxChunkSize) as [L|L].
      * left. lia.
      * right. exists s. repeat split; auto.
Qed.

Lemma chunk_loop_sizes (maxChunkSize : Z) (all : list JSString) :
  forall sentences st,
    (forall s, In s sentences -> In s all) ->
    Forall (sized_chunk maxChunkSize all) (fst st) ->
    sized_buffer maxChunkSize all (snd st) ->
    Forall (sized_chunk maxChunkSize all)
           (fst (chunk_loop maxChunkSize sentences st)) /\
    sized_buffer maxChunkSize all (snd (chunk_loop maxChunkSize sentences st)).
Proof.
  induction sentences as [|s rest IH]; intros st Hin Hchunks Hcur; simpl in *;
    [tauto|].
  destruct (chunk_step_sizes maxChunkSize all st s (Hin s (or_introl eq_refl))
              Hchunks Hcur) as [H1 H2].
  apply IH; auto.
Qed.

(** What the loop does guarantee about sizes: a chunk is at most one code
    unit longer than maxChunkSize, or it is a single sentence that is itself
    longer than maxChunkSize, trimmed, with or without its separator. *)
Lemma chunkText_size_bound (text : JSString) (maxChunkSize : Z) (chunk : JSString) :
  In chunk (chunkText text maxChunkSize) ->
  (Z.of_nat (length chunk) <= maxChunkSize + 1)%Z \/
  exists s, In s (sentences_of text) /\ (maxChunkSize < Z.of_nat (length s))%Z /\
            (chunk = trim s \/ chunk = trim (s ++ [DOT])).
Proof.
  unfold chunkText. intros Hin.
  destruct (chunk_loop_sizes maxChunkSize (sentences_of text) (sentences_of text)
              ([], [])) as [Hc Hb]; simpl; auto.
  { now left. }
  destruct (chunk_loop _ _ _) as [chunks cur]. simpl in *.
  rewrite Forall_forall in Hc. unfold chunk_flush in Hin.
  destruct (0 <? length (trim cur)) eqn:E; [|now apply Hc].
  apply in_app_iff in Hin. destruct Hin as [Hin|[<-|[]]]; [now apply Hc|].
  destruct Hb as [->|[H|(s0 & H1 & H2 & H3)]]; [discriminate| |].
  - left. pose proof (trim_length cur). lia.
  - right. exists s0. repeat split; auto.
    destruct H3 as [->| ->]; [left|right]; reflexivity.
Qed.

(** C4. With maxChunkSize = 3 the text "abc.d" has the sentences "abc" and
    "d", neither longer than 3, and its first chunk, which is not the last,
    is "abc." of length 4: the separator appended to a sentence is not
    counted by the size test of the loop. *)
Theorem chunkText_size_violation :
  sentences_of (js "abc.d") = [js "abc"; js "d"] /\
  chunkText (js "abc.d") 3 = [js "abc."; js "d"] /\
  length (js "abc.") = 4.
Proof. repeat split. Qed.

(** ** Strings: equality and substrings *)

Lemma jsstring_eqb_eq (s t : JSString) : jsstring_eqb s t = true <-> s = t.
Proof.
  revert t. induction s as [|a s IH]; destruct t as [|b t]; simpl;
    try (split; [discriminate|congruence]); [tauto|].
  unfold codeUnit_eqb. rewrite andb_true_iff, N.eqb_eq, IH.
  split; [intros [-> ->]; reflexivity | intros H; inversion H; auto].
Qed.

Lemma startsWith_spec (s t : JSString) :
  startsWith s t = true <-> exists post, s = t ++ post.
Proof.
  revert s. induction t as [|b t IH]; intros s; simpl.
  - split; [exists s; reflexivity | reflexivity].
  - destruct s as [|a s]; simpl.
    + split; [discriminate | intros [post H]; discriminate].
    + unfold codeUnit_eqb. rewrite andb_true_iff, N.eqb_eq, IH. split.
      * intros [-> [post ->]]. now exists post.
      * intros [post H]. inversion H. split; [reflexivity | now exists post].
Qed.

Lemma includes_spec (s t : JSString) :
  includes s t = true <-> substring_of t s.
Proof.
  unfold substring_of. induction s as [|a s IH]; simpl.
  - rewrite orb_false_r, startsWith_spec. split.
    + intros [post H]. now exists [], post.
    + intros (pre & post & H). destruct pre; simpl in H.
      * now exists post.
      * discriminate.
  - rewrite orb_true_iff, IH. change (a :: s) with ([a] ++ s).
    rewrite startsWith_spec. simpl. split.
    + intros [[post H] | (pre & post & H)].
      * now exists [], post.
      * exists (a :: pre), post. simpl. now rewrite H.
    + intros (pre & post & H). destruct pre as [|c pre]; simpl in H.
      * left. now exists post.
      * right. inversion H. now exists pre, post.
Qed.

(** ** The stable sort *)

Section SortByKey.
Context {A : Type} (key : A -> nat).

Let cmp (a b : A) : Z := (Z.of_nat (key b) - Z.of_nat (key a))%Z.

Lemma sort_insert_In (x : A) (l : list A) (y : A) :
  In y (sort_insert cmp x l) <-> y = x \/ In y l.
Proof.
  induction l as [|z l IH]; simpl.
  - intuition congruence.
  - destruct (cmp x z <=? 0)%Z; simpl; [intuition congruence|].
    rewrite IH. intuition congruence.
Qed.

Lemma sort_insert_sorted (x : A) (l : list A) :
  StronglySorted (fun a b => key b <= key a) l ->
  StronglySorted (fun a b => key b <= key a) (sort_insert cmp x l).
Proof.
  induction 1 as [|z l Hs IH Hz]; simpl.
  - repeat constructor.
  - destruct (cmp x z <=? 0)%Z eqn:E.
    + apply Z.leb_le in E. unfold cmp in E.
      constructor; [constructor; assumption|].
      constructor; [lia|].
      rewrite Forall_forall in *. intros y Hy. specialize (Hz y Hy). lia.
    + apply Z.leb_gt in E. unfold cmp in E.
      constructor; [exact IH|].
      rewrite Forall_forall in *. intros y Hy.
      apply sort_insert_In in Hy. destruct Hy as [->|Hy]; [lia|auto].
Qed.

Lemma sort_insert_class (k : nat) (x : A) (l : list A) :
  filter (fun d => key d =? k) (sort_insert cmp x l) =
  filter (fun d => key d =? k) (x :: l).
Proof.
  induction l as [|z l IH]; [reflexivity|].
  simpl. destruct (cmp x z <=? 0)%Z eqn:E; [reflexivity|].
  apply Z.leb_gt in E. unfold cmp in E. simpl. simpl in IH. rewrite IH.
  destruct (key x =? k) eqn:Ex; [|reflexivity].
  apply Nat.eqb_eq in Ex.
  destruct (key z =? k) eqn:Ez; [|reflexivity].
  apply Nat.eqb_eq in Ez. lia.
Qed.

Lemma js_sort_ranked (l : list A) : ranked_by key l (js_sort cmp l).
Proof.
  split.
  - induction l as [|x l IH]; simpl; [constructor|].
    now apply sort_insert_sorted.
  - intros k. induction l as [|x l IH]; [reflexivity|].
    simpl js_sort. rewrite sort_insert_class. simpl. now rewrite IH.
Qed.

Lemma js_sort_In (l : list A) (y : A) : In y (js_sort cmp l) <-> In y l.
Proof.
  induction l as [|x l IH]; simpl; [tauto|].
  rewrite sort_insert_In, IH. intuition congruence.
Qed.
End SortByKey.

(** ** Local search *)

Lemma filterByUser_In (userId : option JSString) (docs : list LocalDocument)
    (d : LocalDocument) :
  In d (filterByUser userId docs) <-> In d docs /\ visible_to userId d.
Proof.
  unfold filterByUser, visible_to. destruct (truthy userId) eqn:T.
  - rewrite filter_In. split; intros [H1 H2]; split; auto.
    + intros _. destruct (ld_userId d) as [u|], userId as [v|];
        simpl in H2; try discriminate; auto.
      apply jsstring_eqb_eq in H2. now subst.
    + rewrite (H2 eq_refl). destruct userId as [v|]; simpl; auto.
      now apply jsstring_eqb_eq.
  - split; [intros H; split; [exact H | discriminate] | tauto].
Qed.

(** C5, as the code has it. The local search returns exactly the records
    visible to the user in which some token of the lowercased,
    whitespace-split query occurs as a substring of the lowercased
    fileName + " " + content, ranked by the number of query tokens found,
    each token counted as often as the query repeats it, ties in insertion
    order. *)
Theorem searchDocumentsLocal_ranked (rt : Runtime)
    (documents : list LocalDocument) (query : JSString) (userId : option JSString) :
  let terms := split_runs isWhiteSpace (toLowerCase rt query) in
  let text d := toLowerCase rt (ld_fileName d ++ [SPACE] ++ ld_content d) in
  let hit d := existsb (fun term => includes (text d) term) terms in
  let result := searchDocumentsLocal rt documents query userId in
  (forall d, In d result <->
             In d documents /\ visible_to userId d /\
             exists term, In term terms /\ substring_of term (text d)) /\
  ranked_by (termMatches rt terms)
            (filter hit (filterByUser userId documents)) result.
Proof.
  intros terms text hit result. split.
  - intros d. unfold result, searchDocumentsLocal.
    rewrite (js_sort_In (termMatches rt (searchTerms rt query))).
    rewrite filter_In, filterByUser_In, existsb_exists.
    fold terms. unfold searchText. fold (text d).
    split.
    + intros [[H1 H2] (term & H3 & H4)]. repeat split; auto.
      exists term. split; auto. now apply includes_spec.
    + intros (H1 & H2 & term & H3 & H4). repeat split; auto.
      exists term. split; auto. now apply includes_spec.
  - apply (js_sort_ranked (termMatches rt terms)).
Qed.

(** ** Fallback scores *)

Lemma slice0_length {A : Type} (n : nat) (l : list A) :
  length (slice 0 n l) = Nat.min n (length l).
Proof. unfold slice. simpl. rewrite Nat.sub_0_r. apply length_firstn. Qed.

Lemma mapi_scores (f : LocalDocument -> nat -> SearchResult) :
  (forall doc index, sr_score (f doc index) = synthesizedScore index) ->
  forall l i, map sr_score (mapi f l i) = map synthesizedScore (seq i (length l)).
Proof.
  intros Hf. induction l as [|x l IH]; intros i; simpl; [reflexivity|].
  now rewrite Hf, IH.
Qed.

Lemma synthesized_prefix (n : nat) :
  n <= 10 ->
  nonincreasing (map synthesizedScore (seq 0 n)) = true /\
  forallb score_in_range (map synthesizedScore (seq 0 n)) = true.
Proof.
  intros H.
  do 11 (destruct n as [|n]; [vm_compute; split; reflexivity|]).
  lia.
Qed.

Lemma synthesized_values (n : nat) :
  map synthesizedScore (seq 0 (Nat.min 3 n))
    = firstn n [0.9; 0.8; 0.7]%float /\
  map synthesizedScore (seq 0 (Nat.min 10 n))
    = firstn n [0.9; 0.8; 0.7; 0.6; 0.5; 0.4; 0.29999999999999993;
                0.19999999999999996; 0.1; 0.1]%float.
Proof.
  do 10 (destruct n as [|n]; [vm_compute; split; reflexivity|]).
  destruct n; vm_compute; split; reflexivity.
Qed.

Lemma nth_error_map_seq {A : Type} (f : nat -> A) (n a i : nat) (x : A) :
  nth_error (map f (seq a n)) i = Some x -> x = f (a + i).
Proof.
  revert a i. induction n as [|n IH]; intros a [|i]; simpl; try discriminate.
  - intros [= <-]. now rewrite Nat.add_0_r.
  - intros H. apply IH in H. rewrite H. f_equal. lia.
Qed.

(** C6. In both fallback paths (chat: the first 3 local matches, document
    manager: the first 10) the result of rank i carries the score
    max(0.9 - 0.1*i, 0.1), computed on binary64 numbers: the scores are
    0.9, 0.8, 0.7, 0.6, 0.5, 0.4, 0.29999999999999993, 0.19999999999999996,
    0.1 and 0.1, cut at the number of matches; they are non-increasing and
    lie in [0.1, 0.9]. *)
Theorem fallback_scores (localResults : list LocalDocument) :
  let chat := map sr_score (chatFallbackResults localResults) in
  let manager := map sr_score (managerFallbackResults localResults) in
  chat = map synthesizedScore (seq 0 (Nat.min 3 (length localResults))) /\
  manager = map synthesizedScore (seq 0 (Nat.min 10 (length localResults))) /\
  nonincreasing chat = true /\ nonincreasing manager = true /\
  forallb score_in_range chat = true /\ forallb score_in_range manager = true /\
  (forall i r, nth_error (chatFallbackResults localResults) i = Some r ->
               sr_score r = Math_max (0.9 - num (Z.of_nat i) * 0.1) 0.1) /\
  (forall i r, nth_error (managerFallbackResults localResults) i = Some r ->
               sr_score r = Math_max (0.9 - num (Z.of_nat i) * 0.1) 0.1) /\
  chat = firstn (length localResults) [0.9; 0.8; 0.7]%float /\
  manager = firstn (length localResults)
              [0.9; 0.8; 0.7; 0.6; 0.5; 0.4; 0.29999999999999993;
               0.19999999999999996; 0.1; 0.1]%float.
Proof.
  intros chat manager.
  assert (Hc : chat = map synthesizedScore (seq 0 (Nat.min 3 (length localResults)))).
  { unfold chat, chatFallbackResults. rewrite mapi_scores by reflexivity.
    now rewrite slice0_length. }
  assert (Hm : manager = map synthesizedScore (seq 0 (Nat.min 10 (length localResults)))).
  { unfold manager, managerFallbackResults. rewrite mapi_scores by reflexivity.
    now rewrite slice0_length. }
  destruct (synthesized_prefix (Nat.min 3 (length localResults))) as [C1 C2]; [lia|].
  destruct (synthesized_prefix (Nat.min 10 (length localResults))) as [M1 M2]; [lia|].
  destruct (synthesized_values (length localResults)) as [V3 V10].
  rewrite <- Hc in C1, C2, V3. rewrite <- Hm in M1, M2, V10.
  assert (R : forall (results : list SearchResult) n i r,
             map sr_score results = map synthesizedScore (seq 0 n) ->
             nth_error results i = Some r ->
             sr_score r = Math_max (0.9 - num (Z.of_nat i) * 0.1) 0.1).
  { intros results n i r E H. apply (map_nth_error sr_score) in H.
    rewrite E in H. apply nth_error_map_seq in H. exact H. }
  repeat (split; [assumption|]).
  split; [intros i r; apply (R _ _ i r Hc)|].
  split; [intros i r; apply (R _ _ i r Hm)|].
  split; assumption.
Qed.

(** ** The embedder *)

Lemma add_at_length (i : nat) (x : float) (a : list float) :
  i < length a -> length (add_at i x a) = length a.
Proof.
  revert i. induction a as [|v a IH]; intros i H; simpl in *; [lia|].
  destruct i as [|i]; simpl; [reflexivity|]. rewrite IH; lia.
Qed.

Lemma and32_mask_nonneg (x : Z) : (0 <= and32 x 2147483647)%Z.
Proof.
  unfold and32. change (toInt32 2147483647) with (Z.ones 31).
  rewrite Z.land_ones by lia.
  pose proof (Z.mod_pos_bound (toInt32 x) (2 ^ 31) ltac:(lia)) as B.
  unfold toInt32 at 1.
  rewrite (Z.mod_small (toInt32 x mod 2 ^ 31) (2 ^ 32)) by lia.
  destruct (_ >=? _)%Z eqn:E; [apply Z.geb_le in E|]; lia.
Qed.

Lemma fold_left_nonneg {A : Type} (f : Z -> A -> Z) (l : list A) :
  (forall h c, (0 <= f h c)%Z) -> forall h0, (0 <= h0)%Z -> (0 <= fold_left f l h0)%Z.
Proof. intros Hf. induction l as [|c l IH]; simpl; auto. Qed.

Lemma wordHash_nonneg (hashFunc : Z) (word : JSString) :
  (0 <= wordHash hashFunc word)%Z.
Proof.
  unfold wordHash. apply fold_left_nonneg; [|lia].
  intros. apply and32_mask_nonneg.
Qed.

Lemma positionHash_nonneg (i : Z) (word : JSString) : (0 <= positionHash i word)%Z.
Proof.
  unfold positionHash. apply fold_left_nonneg; [|lia].
  intros. apply and32_mask_nonneg.
Qed.

Lemma rem_index (h : Z) (n : nat) :
  (0 <= h)%Z -> 0 < n -> Z.to_nat (Z.rem h (Z.of_nat n)) < n.
Proof.
  intros Hh Hn. pose proof (Z.rem_bound_pos h (Z.of_nat n) Hh ltac:(lia)). lia.
Qed.

Section EmbedderFacts.
Variable rt : Runtime.

Lemma hash_pass_length tf uniqueCount wordIndex word embedding hashFunc :
  0 < length embedding ->
  length (hash_pass rt tf uniqueCount wordIndex word embedding hashFunc)
  = length embedding.
Proof.
  intros Hn. unfold hash_pass.
  pose proof (wordHash_nonneg hashFunc word) as Hh.
  rewrite !add_at_length; auto.
  - apply rem_index; [lia|lia].
  - rewrite add_at_length by (apply rem_index; [lia|lia]).
    apply rem_index; [lia|lia].
  - rewrite !add_at_length.
    + apply rem_index; [lia|lia].
    + apply rem_index; [lia|lia].
    + rewrite add_at_length by (apply rem_index; [lia|lia]).
      apply rem_index; [lia|lia].
Qed.

Lemma semantic_features_length words uniqueWords wordFreq embedding word wordIndex :
  0 < length embedding ->
  length (semantic_features rt words uniqueWords wordFreq embedding word wordIndex)
  = length embedding.
Proof.
  intros Hn. unfold semantic_features.
  generalize (freq_number wordFreq word / num (Z.of_nat (length words)))%float.
  intros tf. generalize [0; 1; 2; 3; 4]%Z. intros passes.
  revert embedding Hn. induction passes as [|p passes IH]; intros e Hn; simpl.
  - reflexivity.
  - rewrite IH; rewrite hash_pass_length; auto.
Qed.

Lemma foldi_features_length words uniqueWords wordFreq (l : list JSString) :
  forall i embedding,
    0 < length embedding ->
    length (foldi (semantic_features rt words uniqueWords wordFreq) l i embedding)
    = length embedding.
Proof.
  induction l as [|w l IH]; intros i e Hn; simpl; [reflexivity|].
  rewrite IH; rewrite semantic_features_length; auto.
Qed.

Lemma positional_encoding_ok (words : list JSString) (indices : list nat) :
  Forall (fun i => i < length words) indices ->
  forall embedding,
    0 < length embedding ->
    exists e, positional_encoding words indices embedding = Ok e /\
              length e = length embedding.
Proof.
  induction 1 as [|i rest Hi _ IH]; intros e Hn; simpl.
  - now exists e.
  - destruct (nth_error words i) as [word|] eqn:E.
    + set (e' := add_at _ _ e).
      assert (He' : length e' = length e).
      { apply add_at_length, rem_index; [apply positionHash_nonneg|exact Hn]. }
      destruct (IH e') as (e2 & H2 & L2); [lia|].
      exists e2. split; [exact H2|lia].
    + apply nth_error_None in E. lia.
Qed.

Lemma normalize_length (e : list float) : length (normalize e) = length e.
Proof. unfold normalize. destruct (_ <? _)%float; [apply length_map|reflexivity]. Qed.

(** The [try] block always completes, with 384 components. *)
Lemma generateEmbedding_try_ok (text : JSString) :
  exists v, generateEmbedding_try rt text = Ok v /\ length v = 384.
Proof.
  unfold generateEmbedding_try.
  set (words := words_of rt text).
  set (e1 := foldi _ _ _ _).
  assert (L1 : length e1 = 384).
  { unfold e1. rewrite foldi_features_length; rewrite repeat_length; lia. }
  destruct (positional_encoding_ok words (seq 0 (Nat.min (length words) 50)))
    with (embedding := e1) as (e2 & H2 & L2).
  { apply Forall_forall. intros i Hi. apply in_seq in Hi. lia. }
  { lia. }
  rewrite H2. eexists. split; [reflexivity|].
  rewrite normalize_length.
  repeat (rewrite add_at_length;
          [|repeat (rewrite add_at_length; [|try lia]); try lia]).
  lia.
Qed.
End EmbedderFacts.

(** C7. generateEmbedding is a function of its text alone: from any two
    worlds (random source, clock, storage, service) it returns the same
    vector, of 384 components, and it consumes nothing of the world. *)
Theorem generateEmbedding_deterministic (rt : Runtime) (text : JSString)
    (w1 w2 : World) :
  fst (generateEmbedding rt text w1) = fst (generateEmbedding rt text w2) /\
  snd (generateEmbedding rt text w1) = w1 /\
  exists v, fst (generateEmbedding rt text w1) = Ok v /\ length v = 384.
Proof.
  destruct (generateEmbedding_try_ok rt text) as (v & Hv & Lv).
  unfold generateEmbedding. rewrite Hv. simpl.
  repeat split. now exists v.
Qed.

(** C3. The non-empty text "hi" has no token longer than two code units,
    so the average word length is 0/0: component 0 of the returned vector
    is NaN, and so is the norm. *)
Theorem generateEmbedding_hi_nan (w : World) :
  exists v,
    generateEmbedding asciiRuntime (js "hi") w = (Ok v, w) /\
    words_of asciiRuntime (js "hi") = [] /\
    nth_error v 0 = Some nan /\
    PrimFloat.sqrt (norm2 v) = nan.
Proof.
  unfold generateEmbedding.
  destruct (generateEmbedding_try asciiRuntime (js "hi")) as [v|e] eqn:E.
  - exists v. split; [reflexivity|].
    vm_compute in E. injection E as <-. vm_compute. repeat split.
  - vm_compute in E. discriminate.
Qed.

(** ** Loops over index ranges *)

Lemma loop_starts_nil (k : nat) : 0 < k -> loop_starts 0 k = [].
Proof.
  intros Hk. unfold loop_starts. simpl.
  rewrite Nat.div_small by lia. reflexivity.
Qed.

Lemma loop_starts_step (n k : nat) :
  0 < k -> 0 < n ->
  loop_starts n k = 0 :: map (fun i => i + k) (loop_starts (n - k) k).
Proof.
  intros Hk Hn. unfold loop_starts.
  assert (E : (n + k - 1) / k = S ((n - k + k - 1) / k)).
  { destruct (Nat.le_gt_cases k n) as [Hle|Hlt].
    - replace (n + k - 1) with ((n - k + k - 1) + 1 * k) by lia.
      rewrite Nat.div_add by lia. lia.
    - replace (n - k) with 0 by lia. simpl.
      rewrite (Nat.div_small (k - 1) k) by lia.
      replace (n + k - 1) with ((n - 1) + 1 * k) by lia.
      rewrite Nat.div_add by lia. rewrite Nat.div_small by lia. reflexivity. }
  rewrite E. simpl. f_equal.
  rewrite <- seq_shift, !map_map. apply map_ext. intros j. lia.
Qed.

Lemma slice_shift {A : Type} (i k : nat) (l : list A) :
  slice (i + k) (i + k + k) l = slice i (i + k) (skipn k l).
Proof.
  unfold slice. replace (i + k + k - (i + k)) with k by lia.
  replace (i + k - i) with k by lia.
  now rewrite skipn_skipn.
Qed.

(** The batches of a list: consecutive, of at most [k] elements, none
    empty, and together the whole list. *)
Lemma batches_cover {A : Type} (k : nat) (l : list A) :
  0 < k ->
  let batches := map (fun i => slice i (i + k) l) (loop_starts (length l) k) in
  concat batches = l /\ Forall (fun b => 0 < length b <= k) batches.
Proof.
  intros Hk. remember (length l) as n eqn:Hn.
  revert l Hn. induction n as [n IH] using lt_wf_ind. intros l Hn.
  destruct l as [|x l'].
  - simpl in Hn. subst n. rewrite loop_starts_nil by lia. simpl. split; constructor.
  - assert (Hpos : 0 < n) by (subst n; simpl; lia).
    rewrite loop_starts_step by lia. cbn [map concat].
    set (l := x :: l') in *.
    assert (Hs : length (skipn k l) = n - k) by (rewrite length_skipn; lia).
    destruct (IH (n - k) ltac:(lia) (skipn k l) (eq_sym Hs)) as [Hc Hf].
    rewrite map_map.
    rewrite (map_ext (fun i => slice (i + k) (i + k + k) l)
                     (fun i => slice i (i + k) (skipn k l)))
      by (intros; apply slice_shift).
    split.
    + rewrite Hc. unfold slice. simpl skipn. replace (0 + k - 0) with k by lia.
      apply firstn_skipn.
    + constructor; [|exact Hf].
      unfold slice. simpl skipn. rewrite length_firstn.
      replace (0 + k - 0) with k by lia. lia.
Qed.

(** ** Computations that leave the local store alone *)

Lemma keeps_ret {A : Type} (a : A) : keeps_local (ret a).
Proof. intros w. reflexivity. Qed.

Lemma keeps_throw {A : Type} (e : Error) : keeps_local (@throw A e).
Proof. intros w. reflexivity. Qed.

Lemma keeps_get {A : Type} (f : World -> A) : keeps_local (get f).
Proof. intros w. reflexivity. Qed.

Lemma keeps_bind {A B : Type} (m : M A) (k : A -> M B) :
  keeps_local m -> (forall a, keeps_local (k a)) -> keeps_local (bind m k).
Proof.
  intros Hm Hk w. unfold bind. specialize (Hm w).
  destruct (m w) as [[a|e] w']; simpl in *; [|exact Hm].
  rewrite Hk. exact Hm.
Qed.

Lemma keeps_try_catch {A : Type} (m : M A) (h : Error -> M A) :
  keeps_local m -> (forall e, keeps_local (h e)) -> keeps_local (try_catch m h).
Proof.
  intros Hm Hh w. unfold try_catch. specialize (Hm w).
  destruct (m w) as [[a|e] w']; simpl in *; [exact Hm|].
  rewrite Hh. exact Hm.
Qed.

Lemma keeps_consult {A : Type} (ev : Event) (answer : Oracle -> nat -> Result A) :
  keeps_local (consult ev answer).
Proof. intros w. reflexivity. Qed.

Lemma keeps_sleep (ms : Z) : keeps_local (sleep ms).
Proof. intros w. reflexivity. Qed.

Lemma keeps_Date_now : keeps_local Date_now.
Proof. intros w. reflexivity. Qed.

Lemma keeps_Math_random (n : nat) : keeps_local (Math_random n).
Proof. intros w. reflexivity. Qed.

Lemma keeps_when (c : bool) (m : M unit) : keeps_local m -> keeps_local (when c m).
Proof. intros H. destruct c; simpl; [exact H | apply keeps_ret]. Qed.

Lemma keeps_for_each {A : Type} (l : list A) (body : A -> M unit) :
  (forall x, keeps_local (body x)) -> keeps_local (for_each l body).
Proof.
  intros H. induction l as [|x l IH]; simpl; [apply keeps_ret|].
  apply keeps_bind; auto.
Qed.

Lemma keeps_set_client (b : bool) (a : unit) :
  keeps_local (fun w => (Ok a, set_pineconeClient b w)).
Proof. intros w. reflexivity. Qed.

Create HintDb keeps.
#[local] Hint Resolve keeps_ret keeps_throw keeps_get keeps_consult keeps_sleep
  keeps_Date_now keeps_Math_random keeps_when keeps_for_each keeps_set_client : keeps.

Ltac keeps :=
  repeat first
    [ progress intros
    | apply keeps_bind
    | apply keeps_try_catch
    | apply keeps_when
    | apply keeps_for_each
    | match goal with
      | |- keeps_local (if ?c then _ else _) => destruct c
      | |- keeps_local (match ?x with _ => _ end) => destruct x
      end
    | solve [auto with keeps] ].

Lemma keeps_initializePinecone : keeps_local initializePinecone.
Proof. unfold initializePinecone. keeps. Qed.

Lemma keeps_waitForIndex (indexName : JSString) (retries : nat) :
  keeps_local (waitForIndex indexName retries).
Proof.
  induction retries as [|n IH]; simpl; [apply keeps_ret|].
  unfold index_describeIndexStats. keeps.
Qed.

Lemma keeps_getIndex : keeps_local getIndex.
Proof.
  unfold getIndex, client_listIndexes, client_createIndex.
  pose proof keeps_initializePinecone. pose proof keeps_waitForIndex.
  keeps; auto.
Qed.

Lemma keeps_getUserDocuments (userId : option JSString) :
  keeps_local (getUserDocuments userId).
Proof.
  unfold getUserDocuments, getUserDocuments_try, index_query.
  pose proof keeps_getIndex. keeps; auto.
Qed.

Lemma keeps_deleteBatches (index : JSString) (ids : list JSString) :
  keeps_local (deleteBatches index ids).
Proof. unfold deleteBatches, index_deleteMany. keeps. Qed.

Lemma keeps_clearUserDocuments (userId : option JSString) :
  keeps_local (clearUserDocuments userId).
Proof.
  unfold clearUserDocuments, index_query.
  pose proof keeps_getIndex. pose proof keeps_getUserDocuments.
  pose proof keeps_deleteBatches.
  keeps; auto.
Qed.

(** ** Clearing *)

Lemma clearAllDocuments_cases (w : World) :
  (fst (clearAllDocuments w) = Ok tt /\ localItem (snd (clearAllDocuments w)) = Missing) \/
  (exists e, fst (clearAllDocuments w) = Throw e /\
             localItem (snd (clearAllDocuments w)) = localItem w).
Proof.
  unfold clearAllDocuments, localStorage_removeItem, bind, consult.
  destruct (o_storage (oracle w) (tick w)) as [[]|e]; simpl.
  - left. split; reflexivity.
  - right. exists e. split; reflexivity.
Qed.

(** C2, as the code has it. clearAllStoredDocuments clears the local
    collection first and again in its handler, so the local collection is
    cleared even when the remote deletion path throws; it signals failure to
    its caller whenever the local clear or the remote path throws, and so
    also when only one of the two failed. *)
Theorem clearAllStoredDocuments_outcome (userId : option JSString) (w : World) :
  let first := clearAllDocuments w in
  let remote := clearUserDocuments userId (snd first) in
  let out := clearAllStoredDocuments userId w in
  (fst out = Ok tt <-> fst first = Ok tt /\ fst remote = Ok tt) /\
  (fst first = Ok tt -> localItem (snd out) = Missing).
Proof.
  cbv zeta.
  pose proof (clearAllDocuments_cases w) as Hfirst.
  unfold clearAllStoredDocuments, try_catch, bind.
  destruct (clearAllDocuments w) as [[[]|e1] w1]; simpl in *.
  - pose proof (keeps_clearUserDocuments userId w1) as Hkeep.
    assert (Hw1 : localItem w1 = Missing).
    { destruct Hfirst as [[_ H]|(e & H & _)]; [exact H|discriminate]. }
    destruct (clearUserDocuments userId w1) as [[[]|e2] w2]; simpl in *.
    + split; [tauto|]. intros _. congruence.
    + pose proof (clearAllDocuments_cases w2) as Hagain.
      destruct (clearAllDocuments w2) as [[[]|e3] w3]; simpl in *.
      * split; [split; [discriminate | intros [_ H]; discriminate]|].
        intros _. destruct Hagain as [[_ H]|(e & H & _)]; [exact H|discriminate].
      * split; [split; [discriminate | intros [_ H]; discriminate]|].
        intros _. destruct Hagain as [[H _]|(e & _ & H)]; [discriminate|].
        congruence.
  - split; [|discriminate].
    destruct (clearAllDocuments w1) as [[[]|e3] w3]; simpl;
      (split; [discriminate | intros [H _]; discriminate]).
Qed.

(** ** Listing *)

(** C10. getUserDocuments never throws: it returns what its try block
    returns, and the empty list when that block throws (getIndex or the
    query failed). Hence loadUserDocuments takes the local list exactly when
    its check of the environment fails; with the environment configured the
    listing is the remote one, whatever the remote calls did. *)
Theorem getUserDocuments_never_throws (userId : option JSString)
    (s : ManagerState) (w : World) :
  fst (getUserDocuments userId w) =
    Ok (match fst (getUserDocuments_try userId w) with
        | Ok docs => docs
        | Throw _ => []
        end) /\
  exists s', fst (loadUserDocuments s w) = Ok s' /\
    if configured w
    then storageMethod s' = pinecone /\
         fst (getUserDocuments (Some (js "current-user")) w) = Ok (documents s')
    else storageMethod s' = local /\
         exists localDocs,
           fst (readUserDocumentsLocal (Some (js "current-user")) w) = Ok localDocs /\
           documents s' = map localSummary localDocs.
Proof.
  split.
  - unfold getUserDocuments, try_catch.
    destruct (getUserDocuments_try userId w) as [[docs|e] w']; reflexivity.
  - unfold loadUserDocuments, loadUserDocuments_sources, try_catch, bind, get, when.
    destruct (configured w) eqn:C; simpl.
    + assert (H : exists docs w', getUserDocuments (Some (js "current-user")) w
                                  = (Ok docs, w')).
      { unfold getUserDocuments, try_catch.
        destruct (getUserDocuments_try _ w) as [[docs|e] w']; unfold ret; simpl; eauto. }
      destruct H as (docs & w' & H). rewrite H. simpl.
      eexists. split; [reflexivity|]. simpl. split; reflexivity.
    + assert (H : exists docs w', readUserDocumentsLocal (Some (js "current-user")) w
                                  = (Ok docs, w')).
      { unfold readUserDocumentsLocal, try_catch.
        destruct (bind getStoredDocuments _ w) as [[docs|e] w']; unfold ret; simpl; eauto. }
      destruct H as (docs & w' & H). unfold throw. simpl. rewrite H. simpl.
      eexists. split; [reflexivity|]. simpl. split; [reflexivity|].
      exists docs. split; reflexivity.
Qed.

(** ** Storing *)

Lemma upsert_iteration (index : JSString) (batch : list DocumentVector)
    (more : bool) (w : World) :
  let out := try_catch (index_upsert index batch ;; when more (sleep 200))
                       (fun _ => ret tt) w in
  fst out = Ok tt /\
  flat_map upserted (trace (snd out)) = flat_map upserted (trace w) ++ [batch].
Proof.
  unfold try_catch, bind, index_upsert, consult, when, sleep, ret.
  destruct (o_upsert (oracle w) (tick w)) as [[]|e]; [destruct more|]; simpl;
    (split; [reflexivity|]); rewrite ?flat_map_app; simpl;
    rewrite ?app_nil_r; reflexivity.
Qed.

Lemma upsert_loop (index : JSString) (vectors : list DocumentVector)
    (starts : list nat) (w : World) :
  fst (for_each starts (upsertBatch index vectors) w) = Ok tt /\
  flat_map upserted (trace (snd (for_each starts (upsertBatch index vectors) w))) =
    flat_map upserted (trace w) ++ map (fun i => slice i (i + 10) vectors) starts.
Proof.
  revert w. induction starts as [|i starts IH]; intros w.
  - simpl. split; [reflexivity | now rewrite app_nil_r].
  - cbn [for_each map]. unfold bind.
    pose proof (upsert_iteration index (slice i (i + 10) vectors)
                  (i + 10 <? length vectors) w) as [H1 H2].
    change (try_catch _ _ w) with (upsertBatch index vectors i w) in H1, H2.
    destruct (upsertBatch index vectors i w) as [[[]|e] w1]; simpl in H1, H2;
      [|discriminate].
    destruct (IH w1) as [H3 H4]. split; [exact H3|].
    rewrite H4, H2, <- app_assoc. reflexivity.
Qed.

(** C9. Once storeDocument has prepared its vectors, it offers them to the
    index in consecutive batches of ten (the last one shorter), every batch
    whatever became of the batches before it, and it returns normally
    whatever the index answered. *)
Theorem storeDocument_batches (rt : Runtime) (fileName fileType content : JSString)
    (userId : option JSString) (w w1 : World)
    (index : JSString) (vectors : list DocumentVector) :
  storeDocument_prepare rt fileName fileType content userId w
    = (Ok (index, vectors), w1) ->
  let batches := map (fun i => slice i (i + 10) vectors)
                     (loop_starts (length vectors) 10) in
  let out := storeDocument rt fileName fileType content userId w in
  fst out = Ok tt /\
  flat_map upserted (trace (snd out)) = flat_map upserted (trace w1) ++ batches /\
  concat batches = vectors /\
  Forall (fun b => 0 < length b <= 10) batches.
Proof.
  intros Hprep batches out.
  destruct (upsert_loop index vectors (loop_starts (length vectors) 10) w1)
    as [H1 H2].
  destruct (batches_cover 10 vectors ltac:(lia)) as [H3 H4].
  assert (Hout : out = upsertBatches index vectors w1).
  { unfold out, storeDocument, try_catch, bind. rewrite Hprep. simpl.
    change (upsertBatches index vectors w1)
      with (for_each (loop_starts (length vectors) 10) (upsertBatch index vectors) w1)
      in *.
    destruct (for_each _ _ w1) as [[[]|e] w2]; simpl in *;
      [reflexivity|discriminate]. }
  rewrite Hout.
  change (upsertBatches index vectors w1)
    with (for_each (loop_starts (length vectors) 10) (upsertBatch index vectors) w1).
  repeat split; assumption.
Qed.

(** C1, as the code has it. The guard on short content is processFile's:
    when the content it cleaned has at most 50 code units it calls neither
    storeDocument nor the local store, and returns its file unchanged. *)
Theorem processFile_skips_short_content (rt : Runtime) (storeInPinecone : bool)
    (fileInfo : ProcessedFile) (w : World) :
  length (processFile_cleanContent (pf_content fileInfo)) <= 50 ->
  processFile_store rt storeInPinecone fileInfo w = (Ok fileInfo, w).
Proof.
  intros H. unfold processFile_store.
  apply Nat.ltb_ge in H. rewrite H.
  destruct (_ && _ && _); reflexivity.
Qed.

(** ** Concrete runs *)

Lemma processFile_skips_short_content_witness :
  length (processFile_cleanContent (pf_content shortFile)) <= 50 /\
  processFile_store asciiRuntime true shortFile configuredWorld
    = (Ok shortFile, configuredWorld).
Proof.
  split.
  - vm_compute. lia.
  - apply (processFile_skips_short_content asciiRuntime true shortFile configuredWorld).
    vm_compute. lia.
Defined.

(** C1, as the specification words it, fails: storeDocument has no guard
    on the length. On "hi", with the service configured and healthy, it
    upserts one vector, for the chunk "hi.". *)
Lemma storeDocument_short_content_upserts :
  let out := storeDocument asciiRuntime (js "note.txt") (js "text/plain") (js "hi")
               (Some (js "current-user")) configuredWorld in
  length (cleanContent (js "hi")) = 2 /\
  fst out = Ok tt /\
  existsb is_persistence (trace (snd out)) = true /\
  map (map (fun v => md_content (dv_metadata v)))
      (flat_map upserted (trace (snd out))) = [[js "hi."]].
Proof. vm_compute. repeat split. Qed.

(** C2, as the specification words it, fails: without an API key the
    remote path throws while the local clear succeeds, and the combined
    operation throws all the same. *)
Lemma clearAllStoredDocuments_throws_on_remote_failure :
  fst (clearAllDocuments unconfiguredWorld) = Ok tt /\
  fst (clearAllStoredDocuments (Some (js "current-user")) unconfiguredWorld)
    = Throw (js "Pinecone API key not found in environment variables") /\
  localItem (snd (clearAllStoredDocuments (Some (js "current-user")) unconfiguredWorld))
    = Missing.
Proof. vm_compute. repeat split. Qed.

(** C5, as the specification words it, fails: for the query "foo foo bar"
    the record holding "foo" is found twice and is ranked before the earlier
    record holding "bar", although each holds one distinct token. *)
Lemma searchDocumentsLocal_counts_repeated_tokens :
  let docs := [exampleDoc "b.txt" "bar"; exampleDoc "a.txt" "foo"] in
  let query := js "foo foo bar" in
  let terms := searchTerms asciiRuntime query in
  searchDocumentsLocal asciiRuntime docs query None
    = [exampleDoc "a.txt" "foo"; exampleDoc "b.txt" "bar"] /\
  ~ ranked_by (distinctTermMatches asciiRuntime terms) docs
              (searchDocumentsLocal asciiRuntime docs query None).
Proof.
  split.
  - vm_compute. reflexivity.
  - intros [_ H]. specialize (H 1). vm_compute in H. discriminate.
Qed.

(** The local ranking of the specification: with the query
    "alpha beta gamma", the record holding all three tokens comes before the
    earlier record holding one. *)
Example searchDocumentsLocal_ranking :
  searchDocumentsLocal asciiRuntime
    [exampleDoc "b.txt" "only gamma here"; exampleDoc "a.txt" "alpha, beta and gamma"]
    (js "Alpha beta GAMMA") (Some (js "current-user"))
  = [exampleDoc "a.txt" "alpha, beta and gamma"; exampleDoc "b.txt" "only gamma here"].
Proof. vm_compute. reflexivity. Qed.

(** The cleaning of storeDocument on a small markdown text. *)
Example cleanContent_markdown :
  cleanContent (js "## Title" ++ [NEWLINE; NEWLINE; NEWLINE; NEWLINE]
                ++ js "- **bold** item  ")
  = js "Title" ++ [NEWLINE] ++ js "bold item".
Proof. vm_compute. reflexivity. Qed.

(** The sentence that opens a buffer after a chunk was closed gets no
    separator: " Five" and " Six" share the second chunk. *)
Example chunkText_sentences :
  chunkText (js "One two. Three four! Five? Six") 20
  = [js "One two. Three four."; js "Five Six."].
Proof. vm_compute. reflexivity. Qed.

Lemma storeDocument_batches_witness :
  exists index vectors w1,
    storeDocument_prepare asciiRuntime (js "long.txt") (js "text/plain")
      twelveSentences (Some (js "current-user")) rejectingWorld
      = (Ok (index, vectors), w1) /\
    length vectors = 12 /\
    let out := storeDocument asciiRuntime (js "long.txt") (js "text/plain")
                 twelveSentences (Some (js "current-user")) rejectingWorld in
    fst out = Ok tt /\
    map (@length DocumentVector) (flat_map upserted (trace (snd out))) = [10; 2].
Proof.
  assert (E : exists prepared,
             storeDocument_prepare asciiRuntime (js "long.txt") (js "text/plain")
               twelveSentences (Some (js "current-user")) rejectingWorld = prepared)
    by (eexists; reflexivity).
  assert (F : (let r := storeDocument_prepare asciiRuntime (js "long.txt")
                          (js "text/plain") twelveSentences
                          (Some (js "current-user")) rejectingWorld in
               match fst r with
               | Ok prepared =>
                   Some (length (snd prepared), flat_map upserted (trace (snd r)))
               | Throw _ => None
               end) = Some (12, []))
    by (vm_compute; reflexivity).
  destruct E as [[[[index vectors]|e] w1] E]; rewrite E in F; cbv in F;
    [|discriminate].
  assert (L : length vectors = 12) by (injection F; auto).
  assert (T : flat_map upserted (trace w1) = []) by (injection F; auto).
  exists index, vectors, w1.
  split; [exact E|].
  split; [exact L|].
  destruct (storeDocument_batches _ _ _ _ _ _ _ _ _ E) as (H1 & H2 & _ & _).
  split; [exact H1|].
  rewrite H2, T, L. simpl. unfold slice.
  rewrite !length_firstn, !length_skipn, L. reflexivity.
Defined.

(** * Further properties of the code *)

(** ** The chunker *)

Lemma trimStart_idem (s : JSString) : trimStart (trimStart s) = trimStart s.
Proof.
  induction s as [|c s IH]; simpl; [reflexivity|].
  destruct (isWhiteSpace c) eqn:E; [exact IH|]. simpl. now rewrite E.
Qed.

Lemma trimStart_app_keep (s t : JSString) :
  trimStart s <> [] -> trimStart (s ++ t) = trimStart s ++ t.
Proof.
  induction s as [|c s IH]; simpl; [congruence|].
  destruct (isWhiteSpace c); auto.
Qed.

Lemma trimStart_head (s : JSString) (c : CodeUnit) (t : JSString) :
  trimStart s = c :: t -> isWhiteSpace c = false.
Proof.
  induction s as [|a s IH]; simpl; [discriminate|].
  destruct (isWhiteSpace a) eqn:E; [exact IH|]. intros H. now inversion H; subst.
Qed.

(** Trimming the end of a string that starts with a non-blank keeps the
    start. *)
Lemma trimEnd_keeps_head (c : CodeUnit) (t : JSString) :
  isWhiteSpace c = false -> exists t', trimEnd (c :: t) = c :: t'.
Proof.
  intros Hc. unfold trimEnd. simpl rev.
  assert (H : forall r : JSString, exists t', rev (trimStart (r ++ [c])) = c :: t').
  { induction r as [|a r IH]; simpl.
    - rewrite Hc. now exists [].
    - destruct (isWhiteSpace a); [exact IH|].
      simpl. rewrite rev_app_distr. simpl. eexists. reflexivity. }
  apply H.
Qed.

Lemma trimStart_trim (s : JSString) : trimStart (trim s) = trim s.
Proof.
  unfold trim. destruct (trimStart s) as [|c t] eqn:E; [reflexivity|].
  pose proof (trimStart_head s c t E) as Hc.
  destruct (trimEnd_keeps_head c t Hc) as [t' ->]. simpl. now rewrite Hc.
Qed.

Lemma trimEnd_idem (s : JSString) : trimEnd (trimEnd s) = trimEnd s.
Proof. unfold trimEnd. now rewrite rev_involutive, trimStart_idem. Qed.

(** [trim] is idempotent. *)
Lemma trim_idem (s : JSString) : trim (trim s) = trim s.
Proof.
  unfold trim at 1. rewrite trimStart_trim. unfold trim. apply trimEnd_idem.
Qed.

(** X1. Every chunk chunkText returns is non-empty and carries no white
    space at either end. *)
Theorem chunkText_chunks_trimmed (text : JSString) (maxChunkSize : Z) :
  Forall (fun chunk => chunk <> [] /\ trim chunk = chunk)
         (chunkText text maxChunkSize).
Proof.
  destruct (chunk_groups text maxChunkSize) as (groups & Hcat & Hne & ->).
  pose proof (sentences_nonblank text) as Hnb. rewrite <- Hcat in Hnb.
  assert (Hall : forall b g, In g groups -> nonblank (render b g)).
  { intros b g Hg. apply render_nonblank.
    - rewrite Forall_forall in Hne. now apply Hne.
    - rewrite Forall_forall in *. intros s Hs. apply Hnb.
      apply in_concat. now exists g. }
  apply Forall_forall. intros chunk Hin. apply in_map_iff in Hin.
  destruct Hin as (r & <- & Hr). split; [|apply trim_idem].
  destruct groups as [|g gs]; [contradiction|]. simpl in Hr.
  destruct Hr as [<-|Hr].
  - apply (Hall true g). now left.
  - apply in_map_iff in Hr. destruct Hr as (g' & <- & Hg').
    apply (Hall false g'). now right.
Qed.

Lemma nonempty_groups_length {A : Type} (groups : list (list A)) :
  Forall (fun g => g <> []) groups -> length groups <= length (concat groups).
Proof.
  induction 1 as [|g gs Hg _ IH]; simpl; [lia|].
  rewrite length_app. destruct g; [congruence|simpl; lia].
Qed.

(** X2. chunkText returns at most as many chunks as the text has non-blank
    sentences, and none exactly when it has none (an empty or blank text,
    or terminators only). *)
Theorem chunkText_count (text : JSString) (maxChunkSize : Z) :
  length (chunkText text maxChunkSize) <= length (sentences_of text) /\
  (chunkText text maxChunkSize = [] <-> sentences_of text = []).
Proof.
  destruct (chunk_groups text maxChunkSize) as (groups & Hcat & Hne & E).
  rewrite E, <- Hcat. split.
  - destruct groups as [|g gs]; simpl; [lia|].
    rewrite !length_map.
    pose proof (nonempty_groups_length (g :: gs) Hne) as H. simpl in H. exact H.
  - destruct groups as [|g gs]; simpl; [tauto|].
    split; [discriminate|]. intros H.
    apply Forall_inv in Hne. destruct g; [congruence|discriminate].
Qed.

Lemma split_runs_size (sep : CodeUnit -> bool) (s : JSString) :
  buffer_size (split_runs sep s) <= S (length s).
Proof.
  unfold buffer_size. induction s as [|c s IH]; simpl; [lia|].
  destruct (sep c).
  - destruct s as [|c' s']; [simpl; lia|].
    destruct (sep c'); simpl in *; lia.
  - destruct (split_runs sep s) as [|piece rest]; simpl in *; lia.
Qed.

Lemma buffer_size_filter (p : JSString -> bool) (l : list JSString) :
  buffer_size (filter p l) <= buffer_size l.
Proof.
  unfold buffer_size. induction l as [|s l IH]; simpl; [lia|].
  destruct (p s); simpl; lia.
Qed.

Lemma chunk_loop_fits (maxChunkSize : Z) (sentences : list JSString) :
  forall cur,
    (Z.of_nat (length cur + buffer_size sentences) <= maxChunkSize + 1)%Z ->
    chunk_loop maxChunkSize sentences ([], cur)
    = ([], cur ++ concat (map withDot sentences)).
Proof.
  induction sentences as [|s rest IH]; intros cur H; simpl.
  - now rewrite app_nil_r.
  - unfold buffer_size in H. simpl in H. fold (buffer_size rest) in H.
    replace ((Z.of_nat (length cur) + Z.of_nat (length s) >? maxChunkSize)%Z)
      with false by (symmetry; rewrite Z.gtb_ltb; apply Z.ltb_ge; lia).
    cbn [andb]. rewrite IH.
    + unfold withDot. now rewrite <- !app_assoc.
    + rewrite !length_app. simpl. lia.
Qed.

(** X3. A text no longer than maxChunkSize is not split: chunkText returns
    its sentences, each followed by '.', as a single trimmed chunk (and
    nothing if it has no sentence). *)
Theorem chunkText_short_text (text : JSString) (maxChunkSize : Z) :
  (Z.of_nat (length text) <= maxChunkSize)%Z ->
  chunkText text maxChunkSize =
    match sentences_of text with
    | [] => []
    | sentences => [trim (concat (map withDot sentences))]
    end.
Proof.
  intros H. unfold chunkText.
  pose proof (split_runs_size isTerminator text) as H1.
  pose proof (buffer_size_filter (fun s => 0 <? length (trim s))
                (split_runs isTerminator text)) as H2.
  fold (sentences_of text) in H2.
  rewrite chunk_loop_fits by (simpl; lia).
  pose proof (sentences_nonblank text) as Hnb.
  destruct (sentences_of text) as [|s rest]; [reflexivity|].
  unfold chunk_flush. change ([] ++ concat (map withDot (s :: rest)))
    with (concat (map withDot (s :: rest))).
  assert (N : nonblank (concat (map withDot (s :: rest)))).
  { simpl. apply nonblank_app_l, nonblank_app_l. now apply Forall_inv in Hnb. }
  apply nonblank_length in N. now rewrite N.
Qed.

Lemma chunkText_short_text_witness :
  (Z.of_nat (length (js "One. Two! Three")) <= 800)%Z /\
  chunkText (js "One. Two! Three") 800 = [js "One. Two. Three."].
Proof.
  split; [vm_compute; discriminate|].
  rewrite (chunkText_short_text (js "One. Two! Three") 800).
  - vm_compute. reflexivity.
  - vm_compute. discriminate.
Defined.

(** ** The embedder *)

Lemma nan_add (y : float) : (nan + y)%float = nan.
Proof. apply Prim2SF_inj. rewrite add_spec. reflexivity. Qed.

Lemma sum_squares_nan (l : list float) :
  fold_left (fun sum val => (sum + val * val)%float) l nan = nan.
Proof. induction l as [|x l IH]; simpl; [reflexivity|]. now rewrite nan_add. Qed.

(** A vector whose first component is NaN is left as it is by the
    normalisation: its norm is NaN, which is not greater than 0. *)
Lemma normalize_nan (e : list float) :
  nth_error e 0 = Some nan -> normalize e = e.
Proof.
  destruct e as [|x l]; simpl; [discriminate|]. intros H. injection H as ->.
  unfold normalize. simpl fold_left.
  change (0 + nan * nan)%float with nan. rewrite sum_squares_nan. reflexivity.
Qed.

(** X4. For a text without a token longer than two code units (after
    lowercasing and stripping punctuation), generateEmbedding divides 0 by 0
    for the average word length: the vector it returns has 384 components,
    the first of them NaN, and is returned without normalisation. *)
Theorem generateEmbedding_short_tokens_nan (rt : Runtime) (text : JSString)
    (w : World) :
  words_of rt text = [] ->
  exists v,
    generateEmbedding rt text w = (Ok v, w) /\
    length v = 384 /\
    nth_error v 0 = Some nan /\
    nth_error v 2 =
      Some (0 + num (Z.of_nat (length (split_runs isTerminator text))) * 0.001)%float.
Proof.
  intros H. unfold generateEmbedding, generateEmbedding_try. rewrite H.
  cbn [dedup fold_left length foldi Nat.min seq positional_encoding].
  set (k := (num (Z.of_nat (length (split_runs isTerminator text))) * 0.001)%float).
  set (e := add_at 3 _ (add_at 2 k _)).
  assert (E0 : nth_error e 0 = Some nan) by (vm_compute; reflexivity).
  assert (E2 : nth_error e 2 = Some (0 + k)%float) by (vm_compute; reflexivity).
  assert (L : length e = 384) by (vm_compute; reflexivity).
  exists e. rewrite (normalize_nan e E0). repeat split; assumption.
Qed.

Lemma generateEmbedding_short_tokens_nan_witness :
  words_of asciiRuntime (js "Is it OK?") = [] /\
  exists v,
    generateEmbedding asciiRuntime (js "Is it OK?") configuredWorld
      = (Ok v, configuredWorld) /\
    nth_error v 0 = Some nan.
Proof.
  split; [vm_compute; reflexivity|].
  destruct (generateEmbedding_short_tokens_nan asciiRuntime (js "Is it OK?")
              configuredWorld) as (v & H1 & _ & H2 & _).
  - vm_compute. reflexivity.
  - exists v. split; assumption.
Defined.

(** ** Which calls a computation makes *)

Section Quiet.
Variable p : Event -> bool.

Lemma quiet_ret {A : Type} (a : A) : quiet p (ret a).
Proof. intros w. reflexivity. Qed.

Lemma quiet_throw {A : Type} (e : Error) : quiet p (@throw A e).
Proof. intros w. reflexivity. Qed.

Lemma quiet_get {A : Type} (f : World -> A) : quiet p (get f).
Proof. intros w. reflexivity. Qed.

Lemma quiet_bind {A B : Type} (m : M A) (k : A -> M B) :
  quiet p m -> (forall a, quiet p (k a)) -> quiet p (bind m k).
Proof.
  intros Hm Hk w. unfold bind. specialize (Hm w).
  destruct (m w) as [[a|e] w']; simpl in *; [|exact Hm].
  rewrite Hk. exact Hm.
Qed.

Lemma quiet_try_catch {A : Type} (m : M A) (h : Error -> M A) :
  quiet p m -> (forall e, quiet p (h e)) -> quiet p (try_catch m h).
Proof.
  intros Hm Hh w. unfold try_catch. specialize (Hm w).
  destruct (m w) as [[a|e] w']; simpl in *; [exact Hm|].
  rewrite Hh. exact Hm.
Qed.

Lemma quiet_consult {A : Type} (ev : Event) (answer : Oracle -> nat -> Result A) :
  p ev = false -> quiet p (consult ev answer).
Proof.
  intros H w. unfold consult, advance. simpl.
  rewrite filter_app. simpl. rewrite H. apply app_nil_r.
Qed.

Lemma quiet_sleep (ms : Z) : p (Sleep ms) = false -> quiet p (sleep ms).
Proof.
  intros H w. unfold sleep, advance. simpl.
  rewrite filter_app. simpl. rewrite H. apply app_nil_r.
Qed.

Lemma quiet_Date_now : quiet p Date_now.
Proof. intros w. unfold Date_now, advance. simpl. now rewrite app_nil_r. Qed.

Lemma quiet_Math_random (n : nat) : quiet p (Math_random n).
Proof. intros w. unfold Math_random, advance. simpl. now rewrite app_nil_r. Qed.

Lemma quiet_set_client (b : bool) (a : unit) :
  quiet p (fun w => (Ok a, set_pineconeClient b w)).
Proof. intros w. reflexivity. Qed.

Lemma quiet_set_item (item : StoredItem) (a : unit) :
  quiet p (fun w => (Ok a, set_localItem item w)).
Proof. intros w. reflexivity. Qed.

Lemma quiet_when (c : bool) (m : M unit) : quiet p m -> quiet p (when c m).
Proof. intros H. destruct c; simpl; [exact H | apply quiet_ret]. Qed.

Lemma quiet_for_each {A : Type} (l : list A) (body : A -> M unit) :
  (forall x, quiet p (body x)) -> quiet p (for_each l body).
Proof.
  intros H. induction l as [|x l IH]; simpl; [apply quiet_ret|].
  apply quiet_bind; auto.
Qed.

Lemma quiet_fold_each {A S : Type} (l : list A) (body : S -> A -> M S) :
  (forall s x, quiet p (body s x)) -> forall s, quiet p (fold_each l body s).
Proof.
  intros H. induction l as [|x l IH]; intros s; simpl; [apply quiet_ret|].
  apply quiet_bind; auto.
Qed.

Lemma quiet_map_each {A B : Type} (f : A -> M B) (l : list A) :
  (forall x, quiet p (f x)) -> quiet p (map_each f l).
Proof.
  intros H. induction l as [|x l IH]; simpl; [apply quiet_ret|].
  apply quiet_bind; auto. intros y. apply quiet_bind; auto.
  intros ys. apply quiet_ret.
Qed.
End Quiet.

Lemma keeps_fold_each {A S : Type} (l : list A) (body : S -> A -> M S) :
  (forall s x, keeps_local (body s x)) -> forall s, keeps_local (fold_each l body s).
Proof.
  intros H. induction l as [|x l IH]; intros s; simpl; [apply keeps_ret|].
  apply keeps_bind; auto.
Qed.

Ltac quiet_step :=
  first
    [ apply quiet_bind
    | apply quiet_try_catch
    | apply quiet_when
    | apply quiet_for_each
    | apply quiet_fold_each
    | apply quiet_map_each
    | apply quiet_ret
    | apply quiet_throw
    | apply quiet_get
    | apply quiet_Date_now
    | apply quiet_Math_random
    | apply quiet_set_client
    | apply quiet_set_item
    | apply quiet_consult; reflexivity
    | apply quiet_sleep; reflexivity
    | match goal with
      | |- quiet _ (if ?c then _ else _) => destruct c
      | |- quiet _ (match ?x with _ => _ end) => destruct x
      | |- quiet _ (let '(_, _) := ?x in _) => destruct x
      end ].

Ltac quiet_auto := repeat (intros; first [assumption | quiet_step]).

Ltac keeps_more :=
  repeat (intros;
          first [ assumption
                | apply keeps_fold_each
                | progress keeps ]).

Section Calls.
Variable rt : Runtime.
Variable p : Event -> bool.

Lemma quiet_initializePinecone : quiet p initializePinecone.
Proof. unfold initializePinecone. quiet_auto. Qed.

Lemma quiet_generateEmbedding (text : JSString) : quiet p (generateEmbedding rt text).
Proof. unfold generateEmbedding. quiet_auto. Qed.
End Calls.

Lemma quiet_waitForIndex (p : Event -> bool) (indexName : JSString) (retries : nat) :
  (forall ms, p (Sleep ms) = false) ->
  p (DescribeIndexStats indexName) = false ->
  quiet p (waitForIndex indexName retries).
Proof.
  intros Hs Hd. induction retries as [|n IH]; simpl; [apply quiet_ret|].
  apply quiet_try_catch.
  - apply quiet_consult. exact Hd.
  - intros e. apply quiet_bind; [apply quiet_sleep, Hs | intros; exact IH].
Qed.

(** [getIndex] makes only ListIndexes, CreateIndex and DescribeIndexStats
    calls, and sleeps. *)
Lemma quiet_getIndex (p : Event -> bool) :
  (forall ms, p (Sleep ms) = false) ->
  p ListIndexes = false ->
  (forall n, p (CreateIndex n) = false) ->
  (forall n, p (DescribeIndexStats n) = false) ->
  quiet p getIndex.
Proof.
  intros Hs Hl Hc Hd. unfold getIndex.
  apply quiet_bind; [apply quiet_initializePinecone|]. intros _.
  apply quiet_bind; [apply quiet_get|]. intros configured.
  apply quiet_try_catch; [|intros; apply quiet_throw].
  apply quiet_bind; [apply quiet_consult, Hl|]. intros indexes.
  apply quiet_bind; [|intros; apply quiet_ret].
  apply quiet_when. apply quiet_bind; [apply quiet_consult, Hc|].
  intros _. apply quiet_waitForIndex; auto.
Qed.

Lemma quiet_getUserDocuments (p : Event -> bool) (userId : option JSString) :
  (forall ms, p (Sleep ms) = false) ->
  p ListIndexes = false ->
  (forall n, p (CreateIndex n) = false) ->
  (forall n, p (DescribeIndexStats n) = false) ->
  (forall i r, p (Query i r) = false) ->
  quiet p (getUserDocuments userId).
Proof.
  intros Hs Hl Hc Hd Hq. unfold getUserDocuments, getUserDocuments_try.
  apply quiet_try_catch; [|intros; apply quiet_ret].
  apply quiet_bind; [now apply quiet_getIndex|]. intros index.
  apply quiet_bind; [apply quiet_consult, Hq | intros; apply quiet_ret].
Qed.

Lemma quiet_searchDocuments (rt : Runtime) (p : Event -> bool)
    (query : JSString) (topK : Z) (userId : option JSString) :
  (forall ms, p (Sleep ms) = false) ->
  p ListIndexes = false ->
  (forall n, p (CreateIndex n) = false) ->
  (forall n, p (DescribeIndexStats n) = false) ->
  (forall i r, p (Query i r) = false) ->
  quiet p (searchDocuments rt query topK userId).
Proof.
  intros Hs Hl Hc Hd Hq. unfold searchDocuments.
  apply quiet_try_catch; [|intros; apply quiet_throw].
  apply quiet_bind; [now apply quiet_getIndex|]. intros index.
  apply quiet_bind; [apply quiet_generateEmbedding|]. intros e.
  apply quiet_bind; [apply quiet_consult, Hq | intros; apply quiet_ret].
Qed.

Lemma quiet_deleteBatches (p : Event -> bool) (index : JSString) (ids : list JSString) :
  (forall ms, p (Sleep ms) = false) ->
  (forall i l, p (DeleteMany i l) = false) ->
  quiet p (deleteBatches index ids).
Proof.
  intros Hs Hd. unfold deleteBatches. apply quiet_for_each. intros i.
  apply quiet_try_catch; [|intros; apply quiet_ret].
  apply quiet_bind; [apply quiet_consult, Hd|]. intros _.
  apply quiet_when, quiet_sleep, Hs.
Qed.

Lemma quiet_clearUserDocuments (p : Event -> bool) (userId : option JSString) :
  (forall ms, p (Sleep ms) = false) ->
  p ListIndexes = false ->
  (forall n, p (CreateIndex n) = false) ->
  (forall n, p (DescribeIndexStats n) = false) ->
  (forall i r, p (Query i r) = false) ->
  (forall i l, p (DeleteMany i l) = false) ->
  quiet p (clearUserDocuments userId).
Proof.
  intros Hs Hl Hc Hd Hq Hm. unfold clearUserDocuments.
  apply quiet_try_catch; [|intros; apply quiet_throw].
  apply quiet_bind; [now apply quiet_getIndex|]. intros index.
  apply quiet_bind; [now apply quiet_getUserDocuments|]. intros docs.
  destruct (length docs =? 0); [apply quiet_ret|].
  apply quiet_bind; [apply quiet_consult, Hq|]. intros matches.
  destruct (length _ =? 0); [apply quiet_ret|].
  now apply quiet_deleteBatches.
Qed.

Lemma quiet_prepareVectors (rt : Runtime) (p : Event -> bool)
    (fileName fileType : JSString) (userId : option JSString) (chunks : list JSString) :
  (forall ms, p (Sleep ms) = false) ->
  quiet p (prepareVectors rt fileName fileType userId chunks).
Proof.
  intros Hs. unfold prepareVectors. apply quiet_fold_each. intros vectors i.
  apply quiet_bind.
  - apply quiet_fold_each. intros vs jc. unfold prepareVector.
    apply quiet_try_catch; [|intros; apply quiet_ret].
    apply quiet_bind; [apply quiet_generateEmbedding|]. intros e.
    apply quiet_bind; [apply quiet_Date_now|]. intros now.
    apply quiet_bind; [apply quiet_Date_now|]. intros stamp. apply quiet_ret.
  - intros vs. apply quiet_bind; [apply quiet_when, quiet_sleep, Hs|].
    intros _. apply quiet_ret.
Qed.

Lemma quiet_upsertBatches (p : Event -> bool) (index : JSString)
    (vectors : list DocumentVector) :
  (forall ms, p (Sleep ms) = false) ->
  (forall i b, p (Upsert i b) = false) ->
  quiet p (upsertBatches index vectors).
Proof.
  intros Hs Hu. unfold upsertBatches. apply quiet_for_each. intros i.
  unfold upsertBatch. apply quiet_try_catch; [|intros; apply quiet_ret].
  apply quiet_bind; [apply quiet_consult, Hu|]. intros _.
  apply quiet_when, quiet_sleep, Hs.
Qed.

Lemma quiet_storeDocument (rt : Runtime) (p : Event -> bool)
    (fileName fileType content : JSString) (userId : option JSString) :
  (forall ms, p (Sleep ms) = false) ->
  p ListIndexes = false ->
  (forall n, p (CreateIndex n) = false) ->
  (forall n, p (DescribeIndexStats n) = false) ->
  (forall i b, p (Upsert i b) = false) ->
  quiet p (storeDocument rt fileName fileType content userId).
Proof.
  intros Hs Hl Hc Hd Hu. unfold storeDocument, storeDocument_prepare.
  apply quiet_try_catch; [|intros; apply quiet_throw].
  apply quiet_bind; [|intros; now apply quiet_upsertBatches].
  apply quiet_bind; [apply quiet_get|]. intros apiKey.
  apply quiet_bind; [apply quiet_when, quiet_throw|]. intros _.
  apply quiet_bind; [now apply quiet_getIndex|]. intros index.
  apply quiet_bind; [apply quiet_when, quiet_throw|]. intros _.
  apply quiet_bind; [now apply quiet_prepareVectors|]. intros vectors.
  apply quiet_bind; [apply quiet_when, quiet_throw|]. intros _.
  apply quiet_ret.
Qed.

Lemma keeps_generateEmbedding (rt : Runtime) (text : JSString) :
  keeps_local (generateEmbedding rt text).
Proof. unfold generateEmbedding. keeps. Qed.

Lemma keeps_storeDocument (rt : Runtime) (fileName fileType content : JSString)
    (userId : option JSString) :
  keeps_local (storeDocument rt fileName fileType content userId).
Proof.
  unfold storeDocument, storeDocument_prepare, upsertBatches, upsertBatch,
    prepareVectors, prepareVector, index_upsert.
  pose proof keeps_getIndex. pose proof (keeps_generateEmbedding rt).
  keeps_more.
Qed.

Lemma keeps_searchDocuments (rt : Runtime) (query : JSString) (topK : Z)
    (userId : option JSString) :
  keeps_local (searchDocuments rt query topK userId).
Proof.
  unfold searchDocuments, index_query.
  pose proof keeps_getIndex. pose proof (keeps_generateEmbedding rt).
  keeps_more.
Qed.

(** X5. The remote operations of vectorUtils.ts (store, search, list,
    clear) never change the local collection and never call the browser's
    storage: a store that goes to the index is not mirrored locally. *)
Theorem remote_operations_leave_local_store (rt : Runtime)
    (fileName fileType content query : JSString) (topK : Z)
    (userId : option JSString) :
  leaves_local_store (storeDocument rt fileName fileType content userId) /\
  leaves_local_store (searchDocuments rt query topK userId) /\
  leaves_local_store (getUserDocuments userId) /\
  leaves_local_store (clearUserDocuments userId).
Proof.
  unfold leaves_local_store. repeat split.
  - apply keeps_storeDocument.
  - apply quiet_storeDocument; reflexivity.
  - apply keeps_searchDocuments.
  - apply quiet_searchDocuments; reflexivity.
  - apply keeps_getUserDocuments.
  - apply quiet_getUserDocuments; reflexivity.
  - apply keeps_clearUserDocuments.
  - apply quiet_clearUserDocuments; reflexivity.
Qed.

(** X6. Listing and searching the index are read-only on its vectors:
    getUserDocuments and searchDocuments never upsert and never delete. *)
Theorem listing_and_search_write_no_vectors (rt : Runtime) (query : JSString)
    (topK : Z) (userId : option JSString) :
  quiet is_vector_write (getUserDocuments userId) /\
  quiet is_vector_write (searchDocuments rt query topK userId).
Proof.
  split.
  - apply quiet_getUserDocuments; reflexivity.
  - apply quiet_searchDocuments; reflexivity.
Qed.

Lemma quiet_remote_getStoredDocuments : quiet is_remote_call getStoredDocuments.
Proof.
  unfold getStoredDocuments, localStorage_getItem. quiet_auto.
Qed.

(** X7. The operations of localStorage.ts never call the vector service. *)
Theorem local_operations_call_no_service (rt : Runtime)
    (fileName fileType content query : JSString) (userId : option JSString) :
  quiet is_remote_call (storeDocumentLocal rt fileName fileType content userId) /\
  quiet is_remote_call getStoredDocuments /\
  quiet is_remote_call (readUserDocumentsLocal userId) /\
  quiet is_remote_call (readSearchDocumentsLocal rt query userId) /\
  quiet is_remote_call clearAllDocuments.
Proof.
  pose proof quiet_remote_getStoredDocuments as H.
  repeat split.
  - unfold storeDocumentLocal, localStorage_setItem. quiet_auto.
  - exact H.
  - unfold readUserDocumentsLocal. quiet_auto.
  - unfold readSearchDocumentsLocal. quiet_auto.
  - unfold clearAllDocuments, localStorage_removeItem. quiet_auto.
Qed.

(** ** Obtaining the index *)

Lemma cost_app (measure : Event -> Z) (a b : list Event) :
  cost measure (a ++ b) = (cost measure a + cost measure b)%Z.
Proof.
  unfold cost. induction a as [|e a IH]; simpl; [reflexivity|].
  rewrite IH. lia.
Qed.

Section Costs.
Variable measure : Event -> Z.

Lemma costs_weaken {A : Type} (n n' : Z) (m : M A) :
  (n <= n')%Z -> costs_at_most measure n m -> costs_at_most measure n' m.
Proof. intros H Hm w. specialize (Hm w). lia. Qed.

Lemma costs_ret {A : Type} (a : A) : costs_at_most measure 0 (ret a).
Proof. intros w. simpl. lia. Qed.

Lemma costs_throw {A : Type} (e : Error) : costs_at_most measure 0 (@throw A e).
Proof. intros w. simpl. lia. Qed.

Lemma costs_get {A : Type} (f : World -> A) : costs_at_most measure 0 (get f).
Proof. intros w. simpl. lia. Qed.

Lemma costs_bind {A B : Type} (n1 n2 : Z) (m : M A) (k : A -> M B) :
  (0 <= n2)%Z ->
  costs_at_most measure n1 m -> (forall a, costs_at_most measure n2 (k a)) ->
  costs_at_most measure (n1 + n2) (bind m k).
Proof.
  intros H2 Hm Hk w. unfold bind. specialize (Hm w).
  destruct (m w) as [[a|e] w']; simpl in *; [|lia].
  specialize (Hk a w'). lia.
Qed.

Lemma costs_try_catch {A : Type} (n1 n2 : Z) (m : M A) (h : Error -> M A) :
  (0 <= n2)%Z ->
  costs_at_most measure n1 m -> (forall e, costs_at_most measure n2 (h e)) ->
  costs_at_most measure (n1 + n2) (try_catch m h).
Proof.
  intros H2 Hm Hh w. unfold try_catch. specialize (Hm w).
  destruct (m w) as [[a|e] w']; simpl in *; [lia|].
  specialize (Hh e w'). lia.
Qed.

Lemma costs_consult {A : Type} (ev : Event) (answer : Oracle -> nat -> Result A) :
  costs_at_most measure (measure ev) (consult ev answer).
Proof.
  intros w. unfold consult, advance. simpl. rewrite cost_app. simpl. lia.
Qed.

Lemma costs_sleep (ms : Z) : costs_at_most measure (measure (Sleep ms)) (sleep ms).
Proof.
  intros w. unfold sleep, advance. simpl. rewrite cost_app. simpl. lia.
Qed.

Lemma costs_when (n : Z) (c : bool) (m : M unit) :
  (0 <= n)%Z -> costs_at_most measure n m -> costs_at_most measure n (when c m).
Proof.
  intros Hn H. destruct c; simpl; [exact H|].
  apply (costs_weaken 0); [exact Hn | apply costs_ret].
Qed.

Lemma costs_initializePinecone : costs_at_most measure 0 initializePinecone.
Proof.
  intros w. unfold initializePinecone, bind, get, try_catch, throw. simpl.
  destruct (pineconeClient w); simpl; [lia|].
  destruct (truthy (VITE_PINECONE_API_KEY w)); simpl; lia.
Qed.

(** The readiness poll: each of the at most [retries] rounds costs a poll
    and a sleep of 2 s. *)
Lemma costs_waitForIndex (indexName : JSString) (retries : nat) (round : Z) :
  (0 <= measure (DescribeIndexStats indexName))%Z ->
  (0 <= measure (Sleep 2000))%Z ->
  (measure (DescribeIndexStats indexName) + measure (Sleep 2000) <= round)%Z ->
  costs_at_most measure (Z.of_nat retries * round) (waitForIndex indexName retries).
Proof.
  intros Hp Hs Hr. induction retries as [|n IH].
  - apply costs_ret.
  - replace (Z.of_nat (S n) * round)%Z
      with (measure (DescribeIndexStats indexName)
            + (measure (Sleep 2000) + (Z.of_nat n * round
               + (round - measure (DescribeIndexStats indexName)
                  - measure (Sleep 2000)))))%Z by lia.
    cbn [waitForIndex]. apply costs_try_catch; [nia | apply costs_consult|].
    intros e. apply costs_bind; [nia | apply costs_sleep|].
    intros _. eapply costs_weaken; [|exact IH]. lia.
Qed.

Lemma costs_getIndex (create round : Z) :
  measure ListIndexes = 0%Z ->
  (forall n, 0 <= measure (CreateIndex n) <= create)%Z ->
  (forall n, 0 <= measure (DescribeIndexStats n))%Z ->
  (0 <= measure (Sleep 2000))%Z ->
  (forall n, measure (DescribeIndexStats n) + measure (Sleep 2000) <= round)%Z ->
  costs_at_most measure (create + 30 * round) getIndex.
Proof.
  intros Hl Hc Hp Hs Hr.
  assert (Hround : (0 <= round)%Z) by (specialize (Hr []); specialize (Hp []); lia).
  assert (Hcreate : (0 <= create)%Z) by (specialize (Hc []); lia).
  unfold getIndex.
  replace (create + 30 * round)%Z with (0 + (0 + ((0 + ((create + 30 * round) + 0)) + 0)))%Z
    by lia.
  apply costs_bind; [lia | apply costs_initializePinecone|]. intros _.
  apply costs_bind; [lia | apply costs_get|]. intros configured.
  apply costs_try_catch; [lia | | intros; apply costs_throw].
  apply costs_bind; [lia | |].
  { rewrite <- Hl. apply costs_consult. }
  intros indexes. apply costs_bind; [lia | | intros; apply costs_ret].
  apply costs_when; [lia|].
  apply costs_bind; [lia | |].
  - eapply costs_weaken; [|apply costs_consult]. apply Hc.
  - intros _. apply (costs_waitForIndex _ 30 round); auto.
Qed.
End Costs.

(** X8. However the service answers, one call of getIndex creates at most
    one index, polls its readiness at most 30 times and sleeps at most 60
    seconds in all. *)
Theorem getIndex_bounded (w : World) :
  let t := trace (snd (getIndex w)) in
  (calls is_create t <= calls is_create (trace w) + 1)%Z /\
  (calls is_poll t <= calls is_poll (trace w) + 30)%Z /\
  (slept t <= slept (trace w) + 60000)%Z.
Proof.
  repeat split.
  - apply (costs_getIndex _ 1 0); simpl; intros; lia.
  - apply (costs_getIndex _ 0 1); simpl; intros; lia.
  - apply (costs_getIndex _ 0 2000); simpl; intros; lia.
Qed.

Lemma waitForIndex_returns (indexName : JSString) (retries : nat) (w : World) :
  fst (waitForIndex indexName retries w) = Ok tt.
Proof.
  revert w. induction retries as [|n IH]; intros w; [reflexivity|].
  cbn [waitForIndex]. unfold try_catch, index_describeIndexStats, consult.
  destruct (o_describeIndexStats (oracle w) (tick w)) as [[]|e]; [reflexivity|].
  unfold bind, sleep. apply IH.
Qed.

(** X9. When the configured index does not exist yet and the service accepts
    its creation, getIndex returns the index whatever the readiness polls
    answer: a poll that never succeeds does not make it fail. *)
Theorem getIndex_proceeds_after_polling (w : World) (names : option (list JSString)) :
  truthy (VITE_PINECONE_API_KEY w) = true ->
  o_listIndexes (oracle w) (tick w) = Ok names ->
  match names with
  | Some l => existsb (fun name => jsstring_eqb name (indexName_of w)) l
  | None => false
  end = false ->
  o_createIndex (oracle w) (S (tick w)) = Ok tt ->
  fst (getIndex w) = Ok (indexName_of w) /\
  calls is_create (trace (snd (getIndex w))) = (calls is_create (trace w) + 1)%Z.
Proof.
  intros Hkey Hlist Habsent Hcreate.
  assert (E : exists w2,
             getIndex w = (Ok (indexName_of w), w2) /\
             filter is_create (trace w2)
             = filter is_create (trace w) ++ [CreateIndex (indexName_of w)]).
  { unfold getIndex, bind at 1.
    assert (Hinit : exists w0, initializePinecone w = (Ok tt, w0) /\
                               oracle w0 = oracle w /\ tick w0 = tick w /\
                               trace w0 = trace w /\
                               VITE_PINECONE_INDEX_NAME w0 = VITE_PINECONE_INDEX_NAME w).
    { unfold initializePinecone, bind, get, try_catch. simpl.
      destruct (pineconeClient w); simpl; [now exists w|].
      rewrite Hkey. simpl. eexists. repeat split. }
    destruct Hinit as (w0 & -> & Ho & Ht & Htr & Hn).
    unfold bind at 1, get. cbn [fst snd].
    unfold try_catch, bind at 1, client_listIndexes, consult.
    rewrite Ho, Ht, Hlist. unfold indexName_of in *. rewrite Hn.
    set (name := if truthy (VITE_PINECONE_INDEX_NAME w) then _ else _) in *.
    unfold bind at 1. rewrite Habsent. cbn [negb when].
    unfold bind at 1, client_createIndex, consult. cbn [oracle tick advance].
    rewrite Ho, Ht, Nat.add_1_r, Hcreate.
    match goal with
    | |- context [waitForIndex ?n ?r ?w1] =>
        pose proof (waitForIndex_returns n r w1) as Hw;
        pose proof (quiet_waitForIndex is_create n r (fun _ => eq_refl) eq_refl w1) as Hq;
        destruct (waitForIndex n r w1) as [[[]|e] w2]
    end; simpl in Hw, Hq; [|discriminate].
    exists w2. split; [reflexivity|].
    rewrite Hq, Htr, !filter_app. simpl. now rewrite app_nil_r. }
  destruct E as (w2 & -> & Hq). split; [reflexivity|]. simpl.
  assert (C : forall l, calls is_create l = Z.of_nat (length (filter is_create l))).
  { unfold calls. induction l as [|e l IH]; [reflexivity|]. simpl.
    destruct (is_create e); simpl length; rewrite IH; lia. }
  rewrite !C, Hq, length_app. simpl. lia.
Qed.

Lemma getIndex_proceeds_after_polling_witness :
  fst (getIndex coldWorld) = Ok (js "pulse-documents") /\
  calls is_poll (trace (snd (getIndex coldWorld))) = 30%Z /\
  slept (trace (snd (getIndex coldWorld))) = 60000%Z.
Proof.
  split.
  - apply (getIndex_proceeds_after_polling coldWorld (Some [])); reflexivity.
  - vm_compute. split; reflexivity.
Defined.

(** ** Configuration *)

Lemma getIndex_without_key (w : World) :
  truthy (VITE_PINECONE_API_KEY w) = false ->
  pineconeClient w = false ->
  getIndex w = (Throw (js "Pinecone API key not found in environment variables"), w).
Proof.
  intros Hkey Hclient.
  assert (I : initializePinecone w
              = (Throw (js "Pinecone API key not found in environment variables"), w)).
  { unfold initializePinecone, bind, get, try_catch, throw.
    rewrite Hclient, Hkey. reflexivity. }
  unfold getIndex, bind at 1. now rewrite I.
Qed.

Lemma searchDocuments_without_key (rt : Runtime) (query : JSString) (topK : Z)
    (userId : option JSString) (w : World) :
  truthy (VITE_PINECONE_API_KEY w) = false ->
  pineconeClient w = false ->
  searchDocuments rt query topK userId w
    = (Throw (js "Pinecone API key not found in environment variables"), w).
Proof.
  intros Hkey Hclient. unfold searchDocuments, try_catch, bind.
  now rewrite getIndex_without_key.
Qed.

Lemma clearUserDocuments_without_key (userId : option JSString) (w : World) :
  truthy (VITE_PINECONE_API_KEY w) = false ->
  pineconeClient w = false ->
  clearUserDocuments userId w
    = (Throw (js "Pinecone API key not found in environment variables"), w).
Proof.
  intros Hkey Hclient. unfold clearUserDocuments, try_catch, bind.
  now rewrite getIndex_without_key.
Qed.

(** X10. Without an API key and without a client built earlier, none of the
    remote operations reaches the service: storeDocument, searchDocuments
    and clearUserDocuments throw at once, getUserDocuments returns the
    empty list, and the world is left as it was. *)
Theorem missing_api_key (rt : Runtime) (fileName fileType content query : JSString)
    (topK : Z) (userId : option JSString) (w : World) :
  truthy (VITE_PINECONE_API_KEY w) = false ->
  pineconeClient w = false ->
  storeDocument rt fileName fileType content userId w
    = (Throw (js "Pinecone API key not available - check environment variables"), w) /\
  searchDocuments rt query topK userId w
    = (Throw (js "Pinecone API key not found in environment variables"), w) /\
  clearUserDocuments userId w
    = (Throw (js "Pinecone API key not found in environment variables"), w) /\
  getUserDocuments userId w = (Ok [], w).
Proof.
  intros Hkey Hclient. repeat split.
  - unfold storeDocument, storeDocument_prepare, try_catch, bind at 1 2, get, when, throw.
    unfold bind at 1. now rewrite Hkey.
  - now apply searchDocuments_without_key.
  - now apply clearUserDocuments_without_key.
  - unfold getUserDocuments, getUserDocuments_try, try_catch, bind.
    now rewrite getIndex_without_key.
Qed.

Lemma missing_api_key_witness :
  truthy (VITE_PINECONE_API_KEY offlineWorld) = false /\
  fst (storeDocument asciiRuntime (js "a.txt") (js "text/plain") (js "hi") None
         offlineWorld)
  = Throw (js "Pinecone API key not available - check environment variables").
Proof.
  split; [reflexivity|].
  destruct (missing_api_key asciiRuntime (js "a.txt") (js "text/plain") (js "hi")
              (js "hi") 3 None offlineWorld) as (H & _); [reflexivity..|].
  now rewrite H.
Defined.

(** ** The listing *)

Lemma jsstring_eqb_refl (s : JSString) : jsstring_eqb s s = true.
Proof. now apply jsstring_eqb_eq. Qed.

Lemma collectDocument_cases (acc : list DocumentSummary) (m : Match) :
  (collectDocument acc m = acc /\
   (forall name, match_fileName m = Some name -> name <> [] ->
                 In name (map ds_fileName acc))) \/
  (exists d, collectDocument acc m = acc ++ [d] /\
             match_fileName m = Some (ds_fileName d) /\
             ds_fileName d <> [] /\
             ~ In (ds_fileName d) (map ds_fileName acc) /\
             ds_score d = match_score m).
Proof.
  unfold collectDocument, match_fileName.
  destruct (match_metadata m) as [md|]; [|left; split; [reflexivity|discriminate]].
  destruct (mm_fileName md) as [name|]; [|left; split; [reflexivity|discriminate]].
  destruct name as [|c name]; simpl.
  { left. split; [reflexivity|]. intros n H. injection H as <-. congruence. }
  destruct (existsb _ acc) eqn:E; simpl.
  - left. split; [reflexivity|]. intros n H _. injection H as <-.
    apply existsb_exists in E. destruct E as (d & Hd & Hn).
    apply jsstring_eqb_eq in Hn. apply in_map_iff. now exists d.
  - right. eexists. split; [reflexivity|]. simpl. repeat split; try discriminate.
    intros Hin. apply in_map_iff in Hin. destruct Hin as (d & Hn & Hd).
    assert (existsb (fun d0 => jsstring_eqb (ds_fileName d0) (c :: name)) acc = true).
    { apply existsb_exists. exists d. split; [exact Hd|]. now apply jsstring_eqb_eq. }
    congruence.
Qed.

Lemma collect_fold (matches : list Match) :
  forall seen acc,
    NoDup (map ds_fileName acc) ->
    (forall d, In d acc ->
       ds_fileName d <> [] /\
       exists before m after,
         seen = before ++ m :: after /\
         match_fileName m = Some (ds_fileName d) /\
         (forall m', In m' before -> match_fileName m' <> Some (ds_fileName d)) /\
         ds_score d = match_score m) ->
    (forall m name, In m seen -> match_fileName m = Some name -> name <> [] ->
                    In name (map ds_fileName acc)) ->
    let docs := fold_left collectDocument matches acc in
    NoDup (map ds_fileName docs) /\
    (forall d, In d docs ->
       ds_fileName d <> [] /\
       exists before m after,
         seen ++ matches = before ++ m :: after /\
         match_fileName m = Some (ds_fileName d) /\
         (forall m', In m' before -> match_fileName m' <> Some (ds_fileName d)) /\
         ds_score d = match_score m) /\
    (forall m name, In m (seen ++ matches) -> match_fileName m = Some name ->
                    name <> [] -> In name (map ds_fileName docs)).
Proof.
  induction matches as [|m matches IH]; intros seen acc Hnd Hacc Hseen; simpl.
  - rewrite app_nil_r. auto.
  - replace (seen ++ m :: matches) with ((seen ++ [m]) ++ matches)
      by (now rewrite <- app_assoc).
    destruct (collectDocument_cases acc m) as [[-> Hm]|(d & -> & Hn & Hne & Hnew & Hs)].
    + apply IH; auto.
      * intros d Hd. destruct (Hacc d Hd) as (H0 & before & m0 & after & -> & H1 & H2 & H3).
        split; [exact H0|]. exists before, m0, (after ++ [m]).
        rewrite <- app_assoc. simpl. auto.
      * intros m' name Hin. apply in_app_iff in Hin.
        destruct Hin as [Hin|[<-|[]]]; eauto.
    + apply IH.
      * rewrite map_app. simpl.
        rewrite <- (rev_involutive (map ds_fileName acc ++ [ds_fileName d])).
        apply NoDup_rev. rewrite rev_app_distr. simpl.
        constructor; [rewrite <- in_rev; exact Hnew | now apply NoDup_rev].
      * intros d' Hd'. apply in_app_iff in Hd'. destruct Hd' as [Hd'|[<-|[]]].
        -- destruct (Hacc d' Hd') as (H0 & before & m0 & after & -> & H1 & H2 & H3).
           split; [exact H0|]. exists before, m0, (after ++ [m]).
           rewrite <- app_assoc. simpl. auto.
        -- split; [exact Hne|]. exists seen, m, []. repeat split; auto.
           intros m' Hm' Hname. apply Hnew. eapply Hseen; eauto.
      * intros m' name Hin Hname Hnz. rewrite map_app, in_app_iff.
        apply in_app_iff in Hin. destruct Hin as [Hin|[<-|[]]].
        -- left. eauto.
        -- right. simpl. left. congruence.
Qed.

(** X11. The grouping of getUserDocuments keeps one document per file name,
    the one of the first match with that name: the names listed are pairwise
    distinct and non-empty, every named match is represented, and a
    document carries the score of the first match of its name. *)
Theorem collectDocument_first_per_name (matches : list Match) :
  let docs := fold_left collectDocument matches [] in
  NoDup (map ds_fileName docs) /\
  (forall d, In d docs ->
     ds_fileName d <> [] /\
     exists before m after,
       matches = before ++ m :: after /\
       match_fileName m = Some (ds_fileName d) /\
       (forall m', In m' before -> match_fileName m' <> Some (ds_fileName d)) /\
       ds_score d = match_score m) /\
  (forall m name, In m matches -> match_fileName m = Some name -> name <> [] ->
                  In name (map ds_fileName docs)).
Proof.
  apply (collect_fold matches [] []).
  - constructor.
  - intros d [].
  - intros m name [].
Qed.

(** ** The local store *)

Lemma getStoredDocuments_healthy (w : World) :
  o_storage (oracle w) (tick w) = Ok tt ->
  getStoredDocuments w = (Ok (stored_documents w), advance 1 [GetItem] w).
Proof.
  intros H. unfold getStoredDocuments, try_catch, localStorage_getItem, bind,
    consult, get, stored_documents. rewrite H. simpl.
  destruct (localItem w); reflexivity.
Qed.

Lemma getStoredDocuments_returns (w : World) :
  exists docs, fst (getStoredDocuments w) = Ok docs /\
               (localItem (snd (getStoredDocuments w)) = Missing -> docs = []).
Proof.
  unfold getStoredDocuments, try_catch, localStorage_getItem, bind, consult, get.
  destruct (o_storage (oracle w) (tick w)) as [[]|e]; simpl.
  - destruct (localItem w) eqn:E; simpl; eexists; split; try reflexivity;
      simpl; congruence.
  - exists []. split; reflexivity.
Qed.

(** X12. Store and read back. With the browser's storage working and the
    item absent or holding a collection of records (what this module
    writes), storeDocumentLocal appends exactly one record: a later read
    returns the old records followed by the new one, which carries the file
    name, type and content given and the user id (or 'current-user'), and
    the listing of that user contains it. *)
Theorem storeDocumentLocal_round_trip (rt : Runtime)
    (fileName fileType content : JSString) (userId : option JSString) (w : World) :
  (forall n, o_storage (oracle w) n = Ok tt) ->
  (localItem w = Missing \/ exists documents, localItem w = Docs documents) ->
  exists doc w',
    storeDocumentLocal rt fileName fileType content userId w = (Ok tt, w') /\
    fst (getStoredDocuments w') = Ok (stored_documents w ++ [doc]) /\
    ld_fileName doc = fileName /\ ld_fileType doc = fileType /\
    ld_content doc = content /\
    ld_userId doc = Some (if truthy userId
                          then match userId with Some u => u | None => [] end
                          else js "current-user") /\
    exists listed,
      fst (readUserDocumentsLocal (ld_userId doc) w') = Ok listed /\ In doc listed.
Proof.
  intros H _.
  unfold storeDocumentLocal, try_catch, bind at 1, Date_now. cbn [fst snd].
  unfold bind at 1. cbn [fst snd]. unfold bind at 1.
  rewrite getStoredDocuments_healthy by apply H.
  unfold localStorage_setItem, bind, consult. cbn [oracle advance tick]. rewrite H.
  eexists. eexists. split; [reflexivity|].
  rewrite getStoredDocuments_healthy by apply H.
  cbn [fst]. unfold stored_documents at 1. cbn [localItem set_localItem advance].
  split; [reflexivity|]. cbn [ld_fileName ld_fileType ld_content ld_userId].
  repeat (split; [reflexivity|]).
  unfold readUserDocumentsLocal, try_catch, bind.
  rewrite getStoredDocuments_healthy by apply H.
  cbn [stored_documents localItem set_localItem advance].
  unfold ret. eexists. split; [reflexivity|].
  unfold getUserDocumentsLocal, filterByUser.
  set (u := if truthy userId then _ else _).
  assert (Hu : truthy (Some u) = true).
  { unfold u. destruct userId as [[|c s]|]; reflexivity. }
  rewrite Hu. apply filter_In. split.
  - apply in_app_iff. right. now left.
  - simpl. apply jsstring_eqb_refl.
Qed.

Lemma storeDocumentLocal_round_trip_witness :
  (forall n, o_storage (oracle offlineWorld) n = Ok tt) /\
  localItem offlineWorld = Docs [exampleDoc "plan.txt" "the launch plan";
                                 exampleDoc "notes.txt" "meeting notes"] /\
  exists w',
    storeDocumentLocal asciiRuntime (js "todo.txt") (js "text/plain")
      (js "buy milk") None offlineWorld = (Ok tt, w') /\
    match fst (getStoredDocuments w') with
    | Ok docs => map ld_fileName docs = [js "plan.txt"; js "notes.txt"; js "todo.txt"]
    | Throw _ => False
    end.
Proof.
  split; [reflexivity|]. split; [reflexivity|].
  destruct (storeDocumentLocal_round_trip asciiRuntime (js "todo.txt")
              (js "text/plain") (js "buy milk") None offlineWorld)
    as (doc & w' & H1 & H2 & H3 & _);
    [reflexivity | right; eexists; reflexivity |].
  exists w'. split; [exact H1|]. rewrite H2, map_app. simpl. now rewrite H3.
Defined.

(** X13. Clear and read back. Once clearAllDocuments has returned, every
    read of the local store is empty: the collection, the listing of any
    user and the search for any query. *)
Theorem clearAllDocuments_then_empty (rt : Runtime) (query : JSString)
    (userId : option JSString) (w : World) :
  fst (clearAllDocuments w) = Ok tt ->
  let w' := snd (clearAllDocuments w) in
  fst (getStoredDocuments w') = Ok [] /\
  fst (readUserDocumentsLocal userId w') = Ok [] /\
  fst (readSearchDocumentsLocal rt query userId w') = Ok [].
Proof.
  intros H w'.
  assert (Hm : localItem w' = Missing).
  { destruct (clearAllDocuments_cases w) as [[_ Hc]|(e & Hc & _)];
      [exact Hc | congruence]. }
  assert (Hk : keeps_local getStoredDocuments).
  { unfold getStoredDocuments, localStorage_getItem. keeps. }
  destruct (getStoredDocuments_returns w') as (docs & Hd & Hempty).
  rewrite Hk in Hempty. specialize (Hempty Hm). subst docs.
  split; [exact Hd|].
  unfold readUserDocumentsLocal, readSearchDocumentsLocal, try_catch, bind.
  destruct (getStoredDocuments w') as [[docs|e] w2]; simpl in Hd; [|discriminate].
  injection Hd as ->.
  unfold ret, getUserDocumentsLocal, searchDocumentsLocal, filterByUser.
  destruct (truthy userId); split; reflexivity.
Qed.

Lemma clearAllDocuments_then_empty_witness :
  fst (clearAllDocuments offlineWorld) = Ok tt /\
  stored_documents offlineWorld <> [] /\
  fst (readSearchDocumentsLocal asciiRuntime (js "plan")
         (Some (js "current-user")) (snd (clearAllDocuments offlineWorld))) = Ok [].
Proof.
  split; [reflexivity|]. split; [discriminate|].
  apply (clearAllDocuments_then_empty asciiRuntime (js "plan")
           (Some (js "current-user")) offlineWorld).
  reflexivity.
Defined.

(** ** Local search *)

Lemma includes_empty (s : JSString) : includes s [] = true.
Proof. destruct s; reflexivity. Qed.

Lemma filter_all {A : Type} (p : A -> bool) (l : list A) :
  (forall x, In x l -> p x = true) -> filter p l = l.
Proof.
  induction l as [|x l IH]; intros H; simpl; [reflexivity|].
  rewrite (H x (or_introl eq_refl)), IH; auto. intros y Hy. apply H. now right.
Qed.

Lemma sort_insert_length {A : Type} (cmp : A -> A -> Z) (x : A) (l : list A) :
  length (sort_insert cmp x l) = S (length l).
Proof.
  induction l as [|y l IH]; simpl; [reflexivity|].
  destruct (cmp x y <=? 0)%Z; simpl; [reflexivity | now rewrite IH].
Qed.

Lemma js_sort_length {A : Type} (cmp : A -> A -> Z) (l : list A) :
  length (js_sort cmp l) = length l.
Proof.
  induction l as [|x l IH]; simpl; [reflexivity|].
  now rewrite sort_insert_length, IH.
Qed.

(** X14. A query that splits into an empty token (an empty query, or one
    with white space at either end) matches every record: the local search
    then returns all the records visible to the user, none left out. *)
Theorem searchDocumentsLocal_empty_token (rt : Runtime)
    (documents : list LocalDocument) (query : JSString) (userId : option JSString) :
  In [] (searchTerms rt query) ->
  let result := searchDocumentsLocal rt documents query userId in
  length result = length (filterByUser userId documents) /\
  forall d, In d result <-> In d (filterByUser userId documents).
Proof.
  intros H result. unfold result, searchDocumentsLocal.
  rewrite filter_all.
  - split; [apply js_sort_length|]. intros d.
    apply (js_sort_In (termMatches rt (searchTerms rt query))).
  - intros d _. apply existsb_exists. exists []. split; [exact H|].
    apply includes_empty.
Qed.

Lemma searchDocumentsLocal_empty_token_witness :
  In [] (searchTerms asciiRuntime (js "budget ")) /\
  length (searchDocumentsLocal asciiRuntime (stored_documents offlineWorld)
            (js "budget ") (Some (js "current-user"))) = 2.
Proof.
  assert (H : In [] (searchTerms asciiRuntime (js "budget "))).
  { vm_compute. right. now left. }
  split; [exact H|].
  destruct (searchDocumentsLocal_empty_token asciiRuntime
              (stored_documents offlineWorld) (js "budget ")
              (Some (js "current-user")) H) as [-> _].
  reflexivity.
Defined.

(** ** The fallback results *)

Lemma mapi_map {A B C : Type} (f : A -> nat -> B) (g : B -> C) (h : A -> C)
    (l : list A) :
  (forall x i, g (f x i) = h x) -> forall i, map g (mapi f l i) = map h l.
Proof.
  intros H. induction l as [|x l IH]; intros i; simpl; [reflexivity|].
  now rewrite H, IH.
Qed.

Lemma mapi_Forall {A B : Type} (f : A -> nat -> B) (P : B -> Prop) (l : list A) :
  (forall x i, P (f x i)) -> forall i, Forall P (mapi f l i).
Proof.
  intros H. induction l as [|x l IH]; intros i; simpl; constructor; auto.
Qed.

(** X15. The fallback of the document manager shows the first ten local
    matches, in their order, each with its file name and time stamp and a
    content preview of at most 203 code units (200 and an ellipsis); the
    fallback of the chat passes on the first three with their whole
    content. *)
Theorem fallback_results_shape (localResults : list LocalDocument) :
  map sr_fileName (managerFallbackResults localResults)
    = map ld_fileName (firstn 10 localResults) /\
  map sr_timestamp (managerFallbackResults localResults)
    = map (fun d => Some (ld_timestamp d)) (firstn 10 localResults) /\
  Forall (fun r => length (sr_content r) <= 203) (managerFallbackResults localResults) /\
  map sr_fileName (chatFallbackResults localResults)
    = map ld_fileName (firstn 3 localResults) /\
  map sr_content (chatFallbackResults localResults)
    = map ld_content (firstn 3 localResults).
Proof.
  unfold managerFallbackResults, chatFallbackResults, slice. simpl skipn.
  change (10 - 0) with 10. change (3 - 0) with 3.
  repeat split; try (apply mapi_map; reflexivity).
  apply mapi_Forall. intros d i. cbn [sr_content]. unfold substring0.
  rewrite length_app, length_firstn.
  destruct (200 <? length (ld_content d)); cbn [length js map list_ascii_of_string];
    simpl length; lia.
Qed.

(** ** Deleting *)

Lemma delete_iteration (index : JSString) (batch : list JSString)
    (more : bool) (w : World) :
  let out := try_catch (index_deleteMany index batch ;; when more (sleep 200))
                       (fun _ => ret tt) w in
  fst out = Ok tt /\
  flat_map deleted (trace (snd out)) = flat_map deleted (trace w) ++ [batch].
Proof.
  unfold try_catch, bind, index_deleteMany, consult, when, sleep, ret.
  destruct (o_deleteMany (oracle w) (tick w)) as [[]|e]; [destruct more|]; simpl;
    (split; [reflexivity|]); rewrite ?flat_map_app; simpl;
    rewrite ?app_nil_r; reflexivity.
Qed.

Lemma delete_loop (index : JSString) (ids : list JSString)
    (starts : list nat) (w : World) :
  let body i :=
    try_catch
      (index_deleteMany index (slice i (i + 100) ids) ;;
       when (i + 100 <? length ids) (sleep 200))
      (fun _ => ret tt) in
  fst (for_each starts body w) = Ok tt /\
  flat_map deleted (trace (snd (for_each starts body w))) =
    flat_map deleted (trace w) ++ map (fun i => slice i (i + 100) ids) starts.
Proof.
  intros body. revert w. induction starts as [|i starts IH]; intros w.
  - simpl. split; [reflexivity | now rewrite app_nil_r].
  - cbn [for_each map]. unfold bind.
    pose proof (delete_iteration index (slice i (i + 100) ids)
                  (i + 100 <? length ids) w) as [H1 H2].
    change (try_catch _ _ w) with (body i w) in H1, H2.
    destruct (body i w) as [[[]|e] w1]; simpl in H1, H2; [|discriminate].
    destruct (IH w1) as [H3 H4]. split; [exact H3|].
    rewrite H4, H2, <- app_assoc. reflexivity.
Qed.

(** X16. The deletion loop of clearUserDocuments offers the vector ids to
    the index in consecutive batches of 100 (the last one shorter), every
    batch whatever became of the ones before, and completes normally
    whatever the index answered. *)
Theorem deleteBatches_all_attempted (index : JSString) (vectorIds : list JSString)
    (w : World) :
  let batches := map (fun i => slice i (i + 100) vectorIds)
                     (loop_starts (length vectorIds) 100) in
  let out := deleteBatches index vectorIds w in
  fst out = Ok tt /\
  flat_map deleted (trace (snd out)) = flat_map deleted (trace w) ++ batches /\
  concat batches = vectorIds /\
  Forall (fun b => 0 < length b <= 100) batches.
Proof.
  intros batches out.
  destruct (delete_loop index vectorIds (loop_starts (length vectorIds) 100) w)
    as [H1 H2].
  destruct (batches_cover 100 vectorIds ltac:(lia)) as [H3 H4].
  repeat split; assumption.
Qed.

(** X17. clearUserDocuments trusts the listing: when the query behind
    getUserDocuments fails, the listing is empty, and clearUserDocuments
    returns normally without a single upsert or delete call, so a failed
    listing looks like a cleared index. *)
Theorem clearUserDocuments_listing_failure (userId : option JSString)
    (w w1 : World) (index : JSString) (e : Error) :
  getIndex w = (Ok index, w1) ->
  fst (getUserDocuments_try userId w1) = Throw e ->
  fst (clearUserDocuments userId w) = Ok tt /\
  filter is_vector_write (trace (snd (clearUserDocuments userId w)))
    = filter is_vector_write (trace w).
Proof.
  intros Hi Hl.
  assert (Hq1 : filter is_vector_write (trace w1) = filter is_vector_write (trace w)).
  { pose proof (quiet_getIndex is_vector_write (fun _ => eq_refl) eq_refl
                  (fun _ => eq_refl) (fun _ => eq_refl) w) as H.
    now rewrite Hi in H. }
  pose proof (quiet_getUserDocuments is_vector_write userId (fun _ => eq_refl) eq_refl
                (fun _ => eq_refl) (fun _ => eq_refl) (fun _ _ => eq_refl) w1) as Hq2.
  assert (E : clearUserDocuments userId w
              = (Ok tt, snd (getUserDocuments userId w1))).
  { unfold clearUserDocuments, try_catch, bind at 1. rewrite Hi.
    unfold bind at 1, getUserDocuments, try_catch.
    destruct (getUserDocuments_try userId w1) as [[docs|e'] w2]; simpl in Hl;
      [discriminate | reflexivity]. }
  rewrite E. cbn [fst snd]. split; [reflexivity | congruence].
Qed.

Lemma clearUserDocuments_listing_failure_witness :
  exists index w1 e,
    getIndex deafWorld = (Ok index, w1) /\
    fst (getUserDocuments_try (Some (js "current-user")) w1) = Throw e /\
    fst (clearUserDocuments (Some (js "current-user")) deafWorld) = Ok tt.
Proof.
  assert (F : match fst (getIndex deafWorld) with
              | Ok _ => fst (getUserDocuments_try (Some (js "current-user"))
                               (snd (getIndex deafWorld)))
              | Throw e => Ok []
              end = Throw (js "503 Service Unavailable"))
    by (vm_compute; reflexivity).
  destruct (getIndex deafWorld) as [[index|e0] w1] eqn:Hi; cbn [fst snd] in F;
    [|discriminate].
  exists index, w1, (js "503 Service Unavailable").
  split; [reflexivity|]. split; [exact F|].
  exact (proj1 (clearUserDocuments_listing_failure _ _ _ _ _ Hi F)).
Defined.

(** ** The storage step of processFile *)

Lemma storeDocument_prepared (rt : Runtime) (fileName fileType content : JSString)
    (userId : option JSString) (w w1 : World)
    (index : JSString) (vectors : list DocumentVector) :
  storeDocument_prepare rt fileName fileType content userId w
    = (Ok (index, vectors), w1) ->
  fst (storeDocument rt fileName fileType content userId w) = Ok tt.
Proof.
  intros Hprep. unfold storeDocument, try_catch, bind. rewrite Hprep. simpl.
  pose proof (upsert_loop index vectors (loop_starts (length vectors) 10) w1)
    as [H _].
  change (for_each _ _ w1) with (upsertBatches index vectors w1) in H.
  destruct (upsertBatches index vectors w1) as [[[]|e] w2]; simpl in *;
    [reflexivity|discriminate].
Qed.

Lemma try_both_returns {A : Type} (m1 m2 : M unit) (x y : A) (w : World) :
  exists r w',
    try_catch (m1 ;; ret (Some x))
              (fun _ => try_catch (m2 ;; ret (Some y)) (fun _ => ret None)) w
    = (Ok r, w').
Proof.
  unfold try_catch, bind, ret.
  destruct (m1 w) as [[[]|e] w1]; [eauto|].
  destruct (m2 w1) as [[[]|e'] w2]; eauto.
Qed.

(** X18. The storage step of processFile never throws, whatever both
    backends do: it returns the file it was given, with the name, type, size
    and error unchanged and the content either unchanged or followed by a
    note. *)
Theorem processFile_store_never_throws (rt : Runtime) (storeInPinecone : bool)
    (fileInfo : ProcessedFile) (w : World) :
  exists out note,
    fst (processFile_store rt storeInPinecone fileInfo w) = Ok out /\
    pf_name out = pf_name fileInfo /\ pf_type out = pf_type fileInfo /\
    pf_size out = pf_size fileInfo /\ pf_error out = pf_error fileInfo /\
    pf_content out = pf_content fileInfo ++ note.
Proof.
  unfold processFile_store.
  destruct (_ && _ && _);
    [|exists fileInfo, []; rewrite app_nil_r; repeat split].
  destruct (50 <? _);
    [|exists fileInfo, []; rewrite app_nil_r; repeat split].
  unfold bind at 1.
  match goal with
  | |- context [try_catch (bind ?m1 _) (fun _ => try_catch (bind ?m2 _) _) w] =>
      destruct (try_both_returns m1 m2 (js "Pinecone vector database")
                  (js "local storage (fallback)") w) as (r & w' & ->)
  end.
  cbn. eexists. eexists. repeat split.
Qed.

(** X19. processFile takes a completed storeDocument for a stored document.
    Once storeDocument has prepared its vectors, whatever the index answers
    to the upserts, even if it rejects every batch, processFile reports the
    document as stored in the index and does not write it to the local
    store. *)
Theorem processFile_store_trusts_upsert (rt : Runtime) (fileInfo : ProcessedFile)
    (w w1 : World) (index : JSString) (vectors : list DocumentVector) :
  truthy (Some (pf_content fileInfo)) = true ->
  truthy (pf_error fileInfo) = false ->
  50 < length (processFile_cleanContent (pf_content fileInfo)) ->
  storeDocument_prepare rt (pf_name fileInfo) (storedType fileInfo)
    (processFile_cleanContent (pf_content fileInfo)) (Some (js "current-user")) w
    = (Ok (index, vectors), w1) ->
  let out := processFile_store rt true fileInfo w in
  (exists stored, fst out = Ok stored /\
                  pf_content stored = pf_content fileInfo ++ pineconeNote) /\
  localItem (snd out) = localItem w /\
  filter is_local_call (trace (snd out)) = filter is_local_call (trace w).
Proof.
  intros Hc He Hlen Hprep.
  pose proof (storeDocument_prepared rt _ _ _ _ _ _ _ _ Hprep) as Hok.
  pose proof (keeps_storeDocument rt (pf_name fileInfo) (storedType fileInfo)
                (processFile_cleanContent (pf_content fileInfo))
                (Some (js "current-user")) w) as Hkeep.
  pose proof (quiet_storeDocument rt is_local_call (pf_name fileInfo)
                (storedType fileInfo)
                (processFile_cleanContent (pf_content fileInfo))
                (Some (js "current-user")) (fun _ => eq_refl) eq_refl
                (fun _ => eq_refl) (fun _ => eq_refl) (fun _ _ => eq_refl) w) as Hquiet.
  assert (E : exists stored w2,
             processFile_store rt true fileInfo w = (Ok stored, w2) /\
             pf_content stored = pf_content fileInfo ++ pineconeNote /\
             w2 = snd (storeDocument rt (pf_name fileInfo) (storedType fileInfo)
                         (processFile_cleanContent (pf_content fileInfo))
                         (Some (js "current-user")) w)).
  { unfold processFile_store. rewrite Hc, He. cbn [andb negb].
    apply Nat.ltb_lt in Hlen. rewrite Hlen.
    fold (storedType fileInfo).
    unfold bind at 1, try_catch at 1, bind at 1.
    destruct (storeDocument rt (pf_name fileInfo) (storedType fileInfo)
                (processFile_cleanContent (pf_content fileInfo))
                (Some (js "current-user")) w) as [[[]|e] w2]; [|discriminate].
    eexists. eexists. split; [reflexivity|]. split; reflexivity. }
  destruct E as (stored & w2 & E & Hcontent & ->).
  cbv zeta. rewrite E. cbn [fst snd]. split; [|split; assumption].
  now exists stored.
Qed.

Lemma processFile_store_trusts_upsert_witness :
  exists index vectors w1,
    storeDocument_prepare asciiRuntime (pf_name tokensFile) (storedType tokensFile)
      (processFile_cleanContent (pf_content tokensFile)) (Some (js "current-user"))
      rejectingWorld = (Ok (index, vectors), w1) /\
    let out := processFile_store asciiRuntime true tokensFile rejectingWorld in
    (exists stored, fst out = Ok stored /\
                    pf_content stored = pf_content tokensFile ++ pineconeNote) /\
    localItem (snd out) = Missing.
Proof.
  assert (E : exists prepared,
             storeDocument_prepare asciiRuntime (pf_name tokensFile)
               (storedType tokensFile)
               (processFile_cleanContent (pf_content tokensFile))
               (Some (js "current-user")) rejectingWorld = prepared)
    by (eexists; reflexivity).
  assert (F : match fst (storeDocument_prepare asciiRuntime (pf_name tokensFile)
                           (storedType tokensFile)
                           (processFile_cleanContent (pf_content tokensFile))
                           (Some (js "current-user")) rejectingWorld) with
              | Ok _ => true
              | Throw _ => false
              end = true) by (vm_compute; reflexivity).
  destruct E as [[[[index vectors]|e] w1] E]; rewrite E in F; cbn in F;
    [|discriminate].
  exists index, vectors, w1. split; [exact E|].
  destruct (processFile_store_trusts_upsert asciiRuntime tokensFile rejectingWorld
              w1 index vectors) as (H1 & H2 & _);
    [reflexivity | reflexivity | vm_compute; lia | exact E |].
  split; [exact H1 | exact H2].
Defined.

(** ** The document manager *)

Lemma readSearchDocumentsLocal_returns (rt : Runtime) (query : JSString)
    (userId : option JSString) (w : World) :
  exists results w', readSearchDocumentsLocal rt query userId w = (Ok results, w').
Proof.
  unfold readSearchDocumentsLocal, try_catch, bind, ret.
  destruct (getStoredDocuments w) as [[docs|e] w']; eauto.
Qed.

(** X20. handleSearch never throws and never changes the query. With a
    query that is empty or blank it empties the results, leaves the
    searching flag as it was and calls no backend; otherwise it ends with
    the searching flag down, whichever backend answered. *)
Theorem handleSearch_never_throws (rt : Runtime) (s : SearchState) (w : World) :
  exists s',
    fst (handleSearch rt s w) = Ok s' /\
    searchQuery s' = searchQuery s /\
    (trim (searchQuery s) = [] ->
     searchResults s' = [] /\ isSearching s' = isSearching s /\
     snd (handleSearch rt s w) = w) /\
    (trim (searchQuery s) <> [] -> isSearching s' = false).
Proof.
  unfold handleSearch. destruct (trim (searchQuery s)) as [|c t] eqn:E.
  - simpl. eexists. repeat split. congruence.
  - cbn [truthy negb]. unfold try_catch at 1, bind at 1, try_catch at 1.
    unfold bind at 1.
    destruct (searchDocuments rt (searchQuery s) 10 (Some (js "current-user")) w)
      as [[results|e] w1].
    + cbn. eexists. repeat split; discriminate.
    + unfold bind at 1.
      destruct (readSearchDocumentsLocal_returns rt (searchQuery s)
                  (Some (js "current-user")) w1) as (l & w2 & ->).
      cbn. eexists. repeat split; discriminate.
Qed.

(** X21. Fallback. Without an API key (and no client built earlier) a
    non-blank search is answered by the local store alone: the results are
    the first ten local matches in the shape of remote ones, and nothing but
    the local read happened. *)
Theorem handleSearch_offline (rt : Runtime) (s : SearchState) (w : World) :
  truthy (VITE_PINECONE_API_KEY w) = false ->
  pineconeClient w = false ->
  trim (searchQuery s) <> [] ->
  exists localResults w',
    readSearchDocumentsLocal rt (searchQuery s) (Some (js "current-user")) w
      = (Ok localResults, w') /\
    handleSearch rt s w
      = (Ok {| searchQuery := searchQuery s;
               searchResults := map LocalHit (managerFallbackResults localResults);
               isSearching := false |}, w').
Proof.
  intros Hkey Hclient Hq.
  destruct (readSearchDocumentsLocal_returns rt (searchQuery s)
              (Some (js "current-user")) w) as (l & w' & Hl).
  exists l, w'. split; [exact Hl|].
  unfold handleSearch. destruct (trim (searchQuery s)); [congruence|].
  cbn [truthy negb]. unfold try_catch at 1, bind at 1, try_catch at 1.
  unfold bind at 1. rewrite searchDocuments_without_key by assumption.
  unfold bind at 1. rewrite Hl. reflexivity.
Qed.

Lemma handleSearch_offline_witness :
  trim (js "plan") <> [] /\
  fst (handleSearch asciiRuntime
         {| searchQuery := js "plan"; searchResults := []; isSearching := false |}
         offlineWorld)
  = Ok {| searchQuery := js "plan";
          searchResults :=
            [LocalHit {| sr_score := 0.9%float;
                         sr_fileName := js "plan.txt";
                         sr_fileType := js "text/plain";
                         sr_content := js "the launch plan";
                         sr_timestamp := Some (js "2024-01-01T00:00:00.000Z") |}];
          isSearching := false |}.
Proof.
  split; [discriminate|].
  destruct (handleSearch_offline asciiRuntime
              {| searchQuery := js "plan"; searchResults := []; isSearching := false |}
              offlineWorld) as (l & w' & Hl & ->);
    [reflexivity | reflexivity | discriminate |].
  apply (f_equal fst) in Hl. vm_compute in Hl. injection Hl as <-.
  vm_compute. reflexivity.
Defined.

(** X22. Clearing without an API key: the local collection is cleared, yet
    handleClearAllDocuments shows the failure of the remote path and, not
    reloading the list, keeps showing the documents it showed before; the
    search box is left as it was. *)
Theorem handleClearAllDocuments_offline (s : ClearState) (w : World) :
  truthy (VITE_PINECONE_API_KEY w) = false ->
  pineconeClient w = false ->
  o_storage (oracle w) (tick w) = Ok tt ->
  exists s' w',
    handleClearAllDocuments s w = (Ok s', w') /\
    localItem w' = Missing /\
    documents (listing s') = documents (listing s) /\
    lastError (listing s')
      = Some (js "Failed to clear all documents: Pinecone API key not found in environment variables") /\
    search s' = search s /\
    isClearing s' = false /\ showClearDialog s' = false.
Proof.
  intros Hkey Hclient Hstorage.
  assert (C : exists w1, clearAllDocuments w = (Ok tt, w1) /\ localItem w1 = Missing /\
                         truthy (VITE_PINECONE_API_KEY w1) = false /\
                         pineconeClient w1 = false).
  { unfold clearAllDocuments, localStorage_removeItem, bind, consult.
    rewrite Hstorage. eexists. repeat split; assumption. }
  destruct C as (w1 & C1 & Hm & Hkey1 & Hclient1).
  assert (S : exists w2, clearAllStoredDocuments (Some (js "current-user")) w
                = (Throw (js "Pinecone API key not found in environment variables"), w2)
                /\ localItem w2 = Missing).
  { unfold clearAllStoredDocuments, try_catch at 1, bind at 1. rewrite C1.
    rewrite clearUserDocuments_without_key by assumption.
    unfold bind at 1, try_catch, throw.
    pose proof (clearAllDocuments_cases w1) as Hcase.
    destruct (clearAllDocuments w1) as [[[]|e] w2]; simpl in *;
      eexists; (split; [reflexivity|]);
      destruct Hcase as [[_ H]|(e' & _ & H)]; congruence. }
  destruct S as (w2 & S & Hm2).
  unfold handleClearAllDocuments, try_catch, bind at 1. rewrite S.
  eexists. eexists. split; [reflexivity|]. repeat split. exact Hm2.
Qed.

Lemma handleClearAllDocuments_offline_witness :
  stored_documents offlineWorld <> [] /\
  exists s' w',
    handleClearAllDocuments
      {| listing := {| documents := [localSummary (exampleDoc "plan.txt" "the launch plan")];
                       lastError := None; storageMethod := local; isLoading := false |};
         search := {| searchQuery := []; searchResults := []; isSearching := false |};
         isClearing := false; showClearDialog := true |} offlineWorld = (Ok s', w') /\
    stored_documents w' = [] /\
    length (documents (listing s')) = 1.
Proof.
  split; [discriminate|].
  destruct (handleClearAllDocuments_offline
              {| listing := {| documents := [localSummary (exampleDoc "plan.txt" "the launch plan")];
                               lastError := None; storageMethod := local;
                               isLoading := false |};
                 search := {| searchQuery := []; searchResults := [];
                              isSearching := false |};
                 isClearing := false; showClearDialog := true |} offlineWorld)
    as (s' & w' & H & Hm & Hd & _); [reflexivity..|].
  exists s', w'. split; [exact H|]. unfold stored_documents. rewrite Hm, Hd.
  split; reflexivity.
Defined.

Lemma readUserDocumentsLocal_returns (userId : option JSString) (w : World) :
  exists docs w',
    readUserDocumentsLocal userId w = (Ok docs, w') /\
    filter is_remote_call (trace w') = filter is_remote_call (trace w).
Proof.
  unfold readUserDocumentsLocal, try_catch at 1, bind.
  pose proof (quiet_remote_getStoredDocuments w) as Q.
  destruct (getStoredDocuments w) as [[docs|e] w']; simpl in Q;
    eexists; eexists; (split; [reflexivity|exact Q]).
Qed.

(** X29. The listing asks the index only when both the API key and the
    index name are set, although getIndex has a default name: without
    either, loadUserDocuments makes no remote call, lists what the local
    store holds for the user and records the reason; it does not fail. *)
Theorem loadUserDocuments_unconfigured (s : ManagerState) (w : World) :
  configured w = false ->
  exists docs w',
    readUserDocumentsLocal (Some (js "current-user")) w = (Ok docs, w') /\
    loadUserDocuments s w
      = (Ok {| documents := map localSummary docs;
               lastError :=
                 Some (js "Pinecone error: Missing Pinecone environment variables");
               storageMethod := local; isLoading := false |}, w') /\
    filter is_remote_call (trace w') = filter is_remote_call (trace w).
Proof.
  intros Hc.
  destruct (readUserDocumentsLocal_returns (Some (js "current-user")) w)
    as (docs & w' & Hr & Hq).
  exists docs, w'. split; [exact Hr|]. split; [|exact Hq].
  unfold loadUserDocuments, try_catch at 1, bind at 1.
  unfold loadUserDocuments_sources, try_catch at 1, bind at 1, get at 1.
  rewrite Hc. cbn [negb when]. unfold bind at 1, throw at 1.
  unfold try_catch at 1, bind at 1. rewrite Hr. reflexivity.
Qed.

Lemma loadUserDocuments_unconfigured_witness :
  truthy (VITE_PINECONE_API_KEY namelessWorld) = true /\
  fst (loadUserDocuments
         {| documents := []; lastError := None; storageMethod := unknown;
            isLoading := true |} namelessWorld)
  = Ok {| documents := [localSummary (exampleDoc "plan.txt" "the launch plan")];
          lastError :=
            Some (js "Pinecone error: Missing Pinecone environment variables");
          storageMethod := local; isLoading := false |}.
Proof.
  split; [reflexivity|].
  destruct (loadUserDocuments_unconfigured
              {| documents := []; lastError := None; storageMethod := unknown;
                 isLoading := true |} namelessWorld)
    as (docs & w' & Hr & -> & _); [reflexivity|].
  apply (f_equal fst) in Hr. vm_compute in Hr. injection Hr as <-.
  reflexivity.
Defined.

(** ** Chat sessions *)

Lemma trimStart_no_longer (s : JSString) : length (trimStart s) <= length s.
Proof.
  induction s as [|c s IH]; simpl; [lia|].
  destruct (isWhiteSpace c); simpl; lia.
Qed.

(** X23. A session title has at most 50 code units and no line feed; a
    first message of at most 50 code units after trimming keeps its
    length. *)
Theorem generateSessionTitle_bounds (firstMessage : JSString) :
  length (generateSessionTitle firstMessage) <= 50 /\
  ~ In NEWLINE (generateSessionTitle firstMessage) /\
  (length (trim firstMessage) <= 50 ->
   length (generateSessionTitle firstMessage) = length (trim firstMessage)).
Proof.
  unfold generateSessionTitle.
  set (cleaned := map (fun c => if (c =? 10)%N then SPACE else c) (trim firstMessage)).
  assert (L : length cleaned = length (trim firstMessage))
    by (unfold cleaned; apply length_map).
  assert (N : ~ In NEWLINE cleaned).
  { unfold cleaned. rewrite in_map_iff. intros (c & E & _).
    destruct (c =? 10)%N eqn:Ec; [discriminate E|].
    apply N.eqb_neq in Ec. apply Ec. exact E. }
  destruct (Nat.ltb_spec 50 (length cleaned)) as [Hlong|Hshort].
  - split; [|split].
    + unfold substring0. rewrite length_app, length_firstn.
      change (length (js "...")) with 3. lia.
    + rewrite in_app_iff. intros [H|H].
      * apply N. unfold substring0 in H.
        rewrite <- (firstn_skipn 47 cleaned). apply in_or_app. left. exact H.
      * simpl in H. unfold NEWLINE in H.
        repeat (destruct H as [H|H]; [discriminate H|]). exact H.
    + lia.
  - split; [lia|]. split; [exact N|]. intros _. exact L.
Qed.

Lemma stampMessages_returns (messages : list ChatMessage) (w : World) :
  exists stamped w',
    stampMessages messages w = (Ok stamped, w') /\
    map cm_content stamped = map cm_content messages /\
    map cm_role stamped = map cm_role messages /\
    Forall (fun m => cm_timestamp m <> None) stamped.
Proof.
  revert w. induction messages as [|msg rest IH]; intros w.
  - exists [], w. repeat split; constructor.
  - cbn [stampMessages]. unfold bind at 1.
    assert (S : exists m w1,
               match cm_timestamp msg with
               | Some _ => ret msg
               | None =>
                   bind Date_now (fun now =>
                   ret {| cm_role := cm_role msg; cm_content := cm_content msg;
                          cm_imageUrl := cm_imageUrl msg; cm_fileName := cm_fileName msg;
                          cm_timestamp := Some now |})
               end w = (Ok m, w1) /\
               cm_content m = cm_content msg /\ cm_role m = cm_role msg /\
               cm_timestamp m <> None).
    { destruct (cm_timestamp msg) eqn:E.
      - exists msg, w. repeat split. congruence.
      - eexists. eexists. split; [reflexivity|]. repeat split. discriminate. }
    destruct S as (m & w1 & -> & Hc & Hr & Ht).
    unfold bind at 1. destruct (IH w1) as (stamped & w2 & -> & Hcs & Hrs & Hts).
    exists (m :: stamped), w2. split; [reflexivity|]. simpl.
    rewrite Hc, Hr, Hcs, Hrs. repeat split. constructor; assumption.
Qed.

Lemma updateOne_cases (sessionId : JSString) (messages : list ChatMessage)
    (s : ChatSession) (w : World) :
  exists s' w',
    updateOne sessionId messages s w = (Ok s', w') /\
    same_slot sessionId s s' /\
    (has_id sessionId s = true -> written messages s s') /\
    (has_id sessionId s = false -> s' = s).
Proof.
  unfold updateOne, has_id. destruct (jsstring_eqb (cs_id s) sessionId) eqn:E.
  - unfold bind at 1.
    destruct (stampMessages_returns messages w) as (stamped & w1 & -> & Hc & Hr & Ht).
    apply jsstring_eqb_eq in E.
    eexists. eexists. split; [reflexivity|]. cbn.
    split; [|split; [|discriminate]].
    + split; [reflexivity|]. split; [reflexivity|]. split; [intros ne; contradiction|].
      cbn. destruct (cs_messages s); congruence.
    + intros _. split; [reflexivity|]. split; [exact Hc|]. split; [exact Hr|].
      split; [exact Ht|]. cbn. split.
      * destruct (cs_messages s); congruence.
      * intros -> first rest ->. reflexivity.
  - exists s, w. split; [reflexivity|]. split; [|split; [discriminate|reflexivity]].
    split; [reflexivity|]. split; [reflexivity|]. split; reflexivity.
Qed.

Lemma map_each_updateOne (sessionId : JSString) (messages : list ChatMessage)
    (prev : list ChatSession) (w : World) :
  exists next w',
    map_each (updateOne sessionId messages) prev w = (Ok next, w') /\
    Forall2 (fun s s' => same_slot sessionId s s' /\
                         (has_id sessionId s = true -> written messages s s') /\
                         (has_id sessionId s = false -> s' = s)) prev next.
Proof.
  revert w. induction prev as [|s prev IH]; intros w.
  - exists [], w. split; [reflexivity|constructor].
  - cbn [map_each]. unfold bind at 1.
    destruct (updateOne_cases sessionId messages s w) as (s' & w1 & -> & H).
    unfold bind at 1. destruct (IH w1) as (next & w2 & -> & F).
    exists (s' :: next), w2. split; [reflexivity|]. constructor; assumption.
Qed.

Lemma same_slot_refl (sessionId : JSString) (l : list ChatSession) :
  Forall2 (same_slot sessionId) l l.
Proof.
  induction l; constructor; [|assumption].
  split; [reflexivity|]. split; [reflexivity|]. split; reflexivity.
Qed.

(** X24. updateSession never fails, and whatever it decides it keeps the
    sessions in place: as many sessions, each with the identifier and
    creation time it had; a session with another identifier is untouched,
    and a session that had messages keeps its title. *)
Theorem updateSession_keeps_sessions (sessionId : JSString)
    (messages : list ChatMessage) (prev : list ChatSession) (w : World) :
  exists next,
    fst (updateSession sessionId messages prev w) = Ok next /\
    Forall2 (same_slot sessionId) prev next.
Proof.
  assert (U : exists next,
             fst (map_each (updateOne sessionId messages) prev w) = Ok next /\
             Forall2 (same_slot sessionId) prev next).
  { destruct (map_each_updateOne sessionId messages prev w) as (next & w' & -> & F).
    exists next. split; [reflexivity|].
    eapply Forall2_impl; [|exact F]. intros a b H. apply H. }
  unfold updateSession.
  destruct (js_find _ prev) as [existing|]; [|exact U].
  destruct (_ && _); [exists prev; split; [reflexivity|apply same_slot_refl]|].
  destruct (lastMessageMatches _ _); [|exact U].
  exists prev; split; [reflexivity|apply same_slot_refl].
Qed.

Lemma role_eqb_eq (a b : Role) : role_eqb a b = true <-> a = b.
Proof. destruct a, b; simpl; split; congruence. Qed.

Lemma optZ_eqb_refl (a : option Z) : optZ_eqb a a = true.
Proof. destruct a; simpl; [apply Z.eqb_refl|reflexivity]. Qed.

Lemma combine_seq_nth {A : Type} (l : list A) (a i : nat) (x : A) :
  In (i, x) (combine (seq a (length l)) l) -> a <= i /\ nth_error l (i - a) = Some x.
Proof.
  revert a. induction l as [|y l IH]; intros a; simpl; [tauto|].
  intros [E|H].
  - inversion E; subst. rewrite Nat.sub_diag. split; [lia|reflexivity].
  - apply IH in H as [Hle Hn]. split; [lia|].
    replace (i - a) with (S (i - S a)) by lia. exact Hn.
Qed.

Lemma messagesMatch_refl (l : list ChatMessage) : messagesMatch l l = true.
Proof.
  unfold messagesMatch. apply forallb_forall. intros [i x] H.
  apply combine_seq_nth in H as [_ H]. rewrite Nat.sub_0_r in H. simpl. rewrite H.
  rewrite jsstring_eqb_refl, optZ_eqb_refl.
  destruct (cm_role x); reflexivity.
Qed.

(** X25. Writing back to a session the messages it holds changes nothing:
    the list of sessions is returned as it is and the clock is not read. *)
Theorem updateSession_stored_messages (sessionId : JSString)
    (prev : list ChatSession) (existing : ChatSession) (w : World) :
  js_find (has_id sessionId) prev = Some existing ->
  updateSession sessionId (cs_messages existing) prev w = (Ok prev, w).
Proof.
  intros H. unfold updateSession. unfold has_id in H. rewrite H.
  rewrite Nat.eqb_refl, messagesMatch_refl. reflexivity.
Qed.

Lemma updateSession_stored_messages_witness :
  js_find (has_id (js "session_1")) [draftSession] = Some draftSession /\
  forall w, updateSession (js "session_1") (cs_messages draftSession) [draftSession] w
            = (Ok [draftSession], w).
Proof.
  split; [reflexivity|]. intros w.
  apply (updateSession_stored_messages (js "session_1") [draftSession] draftSession w).
  reflexivity.
Defined.

(** X26. An update of as many messages whose last message has the content
    and role of the stored last message is dropped, whatever the earlier
    messages are: the sessions stay as they were. *)
Theorem updateSession_same_last_message (sessionId : JSString)
    (messages : list ChatMessage) (prev : list ChatSession)
    (existing : ChatSession) (lastExisting lastNew : ChatMessage) (w : World) :
  js_find (has_id sessionId) prev = Some existing ->
  length messages = length (cs_messages existing) ->
  last_message (cs_messages existing) = Some lastExisting ->
  last_message messages = Some lastNew ->
  cm_content lastExisting = cm_content lastNew ->
  cm_role lastExisting = cm_role lastNew ->
  updateSession sessionId messages prev w = (Ok prev, w).
Proof.
  intros H Hlen HlastE HlastN Hc Hr. unfold updateSession. unfold has_id in H.
  rewrite H. unfold last_message in *.
  assert (L : lastMessageMatches (cs_messages existing) messages = true).
  { unfold lastMessageMatches. rewrite HlastE, HlastN, Hc, Hr, Hlen.
    rewrite jsstring_eqb_refl, Nat.eqb_refl.
    assert (0 < length (cs_messages existing)).
    { destruct (cs_messages existing); [discriminate HlastE|simpl; lia]. }
    destruct (Nat.ltb_spec 0 (length (cs_messages existing))); [|lia].
    destruct (cm_role lastNew); reflexivity. }
  rewrite L. destruct (_ && _); reflexivity.
Qed.

Lemma updateSession_same_last_message_witness :
  map cm_content [message role_user "edited" 1; message role_assistant "ok" 2]
    <> map cm_content (cs_messages draftSession) /\
  forall w, updateSession (js "session_1")
              [message role_user "edited" 1; message role_assistant "ok" 2]
              [draftSession] w
            = (Ok [draftSession], w).
Proof.
  split; [discriminate|]. intros w.
  apply (updateSession_same_last_message (js "session_1") _ [draftSession] draftSession
           (message role_assistant "ok" 2) (message role_assistant "ok" 2) w);
    reflexivity.
Defined.

Lemma js_find_written (sessionId : JSString) (messages : list ChatMessage)
    (prev next : list ChatSession) (existing : ChatSession) :
  Forall2 (fun s s' => same_slot sessionId s s' /\
                       (has_id sessionId s = true -> written messages s s') /\
                       (has_id sessionId s = false -> s' = s)) prev next ->
  js_find (has_id sessionId) prev = Some existing ->
  exists updated,
    js_find (has_id sessionId) next = Some updated /\ written messages existing updated.
Proof.
  induction 1 as [|s s' prev next (Hslot & Hw & Hsame) F IH]; simpl; [discriminate|].
  destruct (has_id sessionId s) eqn:E.
  - intros [= <-]. exists s'. split; [|auto].
    assert (Hid : has_id sessionId s' = true).
    { unfold has_id in *. destruct Hslot as (-> & _). exact E. }
    rewrite Hid. reflexivity.
  - rewrite (Hsame eq_refl), E. exact IH.
Qed.

(** X27. An update with another number of messages is written: afterwards
    the session found under the identifier holds the new messages, in
    content and role, each with a time; it is named after the first
    message if it was empty, and keeps its title otherwise. *)
Theorem updateSession_writes (sessionId : JSString) (messages : list ChatMessage)
    (prev : list ChatSession) (existing : ChatSession) (w : World) :
  js_find (has_id sessionId) prev = Some existing ->
  length messages <> length (cs_messages existing) ->
  exists next updated,
    fst (updateSession sessionId messages prev w) = Ok next /\
    js_find (has_id sessionId) next = Some updated /\
    written messages existing updated.
Proof.
  intros H Hlen. unfold updateSession. pose proof H as H'. unfold has_id in H'.
  rewrite H'.
  assert (E1 : (length (cs_messages existing) =? length messages) = false)
    by (apply Nat.eqb_neq; congruence).
  assert (E2 : lastMessageMatches (cs_messages existing) messages = false).
  { unfold lastMessageMatches.
    destruct (nth_error _ _); [|reflexivity]. destruct (nth_error _ _); [|reflexivity].
    assert (E : (length messages =? length (cs_messages existing)) = false)
      by (apply Nat.eqb_neq; congruence).
    rewrite E. apply andb_false_r. }
  rewrite E1, E2. cbn [andb].
  destruct (map_each_updateOne sessionId messages prev w) as (next & w' & -> & F).
  destruct (js_find_written sessionId messages prev next existing F H)
    as (updated & Hf & Hw).
  exists next, updated. repeat split; try assumption; apply Hw.
Qed.

Lemma updateSession_writes_witness :
  exists next updated,
    fst (updateSession (js "session_2") [twoLines] [draftSession; emptySession]
           configuredWorld) = Ok next /\
    js_find (has_id (js "session_2")) next = Some updated /\
    cs_title updated = js "one line and another".
Proof.
  destruct (updateSession_writes (js "session_2") [twoLines]
              [draftSession; emptySession] emptySession configuredWorld)
    as (next & updated & H1 & H2 & Hw); [reflexivity|simpl; lia|].
  exists next, updated. split; [exact H1|]. split; [exact H2|].
  destruct Hw as (_ & _ & _ & _ & _ & Ht).
  exact (Ht eq_refl _ _ eq_refl).
Defined.

(** ** The vectors of a document *)

Lemma generateEmbedding_returns (rt : Runtime) (text : JSString) (w : World) :
  exists v, generateEmbedding rt text w = (Ok v, w) /\ length v = 384.
Proof.
  unfold generateEmbedding.
  destruct (generateEmbedding_try_ok rt text) as (v & -> & L).
  exists v. split; [reflexivity|exact L].
Qed.

Lemma prepareVector_pushes (rt : Runtime) (fileName fileType : JSString)
    (userId : option JSString) (totalChunks : nat) (vectors : list DocumentVector)
    (chunkIndex : nat) (chunk : JSString) (w : World) :
  exists v w',
    prepareVector rt fileName fileType userId totalChunks vectors chunkIndex chunk w
      = (Ok (vectors ++ [v]), w') /\
    prepared_from fileName fileType userId totalChunks chunkIndex chunk v.
Proof.
  unfold prepareVector, try_catch. unfold bind at 1.
  destruct (generateEmbedding_returns rt chunk w) as (e & -> & L).
  eexists. eexists. split; [reflexivity|].
  split; [eexists; reflexivity|]. cbn. repeat split. exact L.
Qed.

Lemma nth_error_slice {A : Type} (i k p : nat) (l : list A) (x : A) :
  nth_error (slice i (i + k) l) p = Some x -> nth_error l (i + p) = Some x.
Proof.
  unfold slice. replace (i + k - i) with k by lia.
  rewrite <- nth_error_skipn. generalize (skipn i l). clear l. intros l.
  revert p l. induction k as [|k IH]; intros p l.
  - destruct p; discriminate.
  - destruct l as [|y l]; [destruct p; discriminate|].
    destruct p as [|p]; simpl; [auto|apply IH].
Qed.

Lemma slice_length {A : Type} (i k : nat) (l : list A) :
  length (slice i (i + k) l) = Nat.min k (length l - i).
Proof.
  unfold slice. rewrite length_firstn, length_skipn. lia.
Qed.

Lemma prepared_upto_push (fileName fileType : JSString) (userId : option JSString)
    (chunks : list JSString) (n : nat) (vectors : list DocumentVector)
    (chunk : JSString) (v : DocumentVector) :
  prepared_upto fileName fileType userId chunks n vectors ->
  nth_error chunks n = Some chunk ->
  prepared_from fileName fileType userId (length chunks) n chunk v ->
  prepared_upto fileName fileType userId chunks (S n) (vectors ++ [v]).
Proof.
  intros [Hlen Hall] Hc Hv. split; [rewrite length_app; simpl; lia|].
  intros j v' Hj. destruct (Nat.lt_ge_cases j (length vectors)) as [Hlt|Hge].
  - rewrite nth_error_app1 in Hj by exact Hlt. apply Hall, Hj.
  - rewrite nth_error_app2 in Hj by exact Hge.
    destruct (j - length vectors) as [|d] eqn:E; simpl in Hj;
      [|destruct d; discriminate].
    injection Hj as <-. assert (j = n) as -> by lia. exists chunk. split; assumption.
Qed.

Section PrepareLoop.
Variable rt : Runtime.
Variables fileName fileType : JSString.
Variable userId : option JSString.
Variable chunks : list JSString.

Lemma prepare_batch (i : nat) (batch : list JSString) (a : nat)
    (vectors : list DocumentVector) (w : World) :
  prepared_upto fileName fileType userId chunks (i + a) vectors ->
  (forall p c, nth_error batch p = Some c -> nth_error chunks (i + a + p) = Some c) ->
  exists vectors' w',
    fold_each (combine (seq a (length batch)) batch)
      (fun vectors jc =>
         prepareVector rt fileName fileType userId (length chunks)
                       vectors (i + fst jc) (snd jc))
      vectors w = (Ok vectors', w') /\
    prepared_upto fileName fileType userId chunks (i + a + length batch) vectors'.
Proof.
  revert a vectors w. induction batch as [|c batch IH]; intros a vectors w Hinv Hnth.
  - exists vectors, w. split; [reflexivity|].
    simpl. rewrite Nat.add_0_r. exact Hinv.
  - cbn [length seq combine fold_each fst snd]. unfold bind at 1.
    destruct (prepareVector_pushes rt fileName fileType userId (length chunks)
                vectors (i + a) c w) as (v & w1 & -> & Hv).
    assert (Hc : nth_error chunks (i + a) = Some c).
    { rewrite <- (Nat.add_0_r (i + a)). apply Hnth. reflexivity. }
    destruct (IH (S a) (vectors ++ [v]) w1) as (vectors' & w' & E & Hinv').
    + replace (i + S a) with (S (i + a)) by lia.
      apply prepared_upto_push with (chunk := c); assumption.
    + intros p c' Hp. replace (i + S a + p) with (i + a + S p) by lia.
      apply Hnth. exact Hp.
    + exists vectors', w'. split; [exact E|].
      replace (i + a + S (length batch)) with (i + S a + length batch) by lia.
      exact Hinv'.
Qed.

Lemma prepare_batches (len a : nat) (vectors : list DocumentVector) (w : World) :
  prepared_upto fileName fileType userId chunks
                (Nat.min (a * 5) (length chunks)) vectors ->
  exists vectors' w',
    fold_each (map (fun k => k * 5) (seq a len))
      (fun vectors i =>
         let batch := slice i (i + 5) chunks in
         bind (fold_each (combine (seq 0 (length batch)) batch)
                 (fun vectors jc =>
                    prepareVector rt fileName fileType userId (length chunks)
                                  vectors (i + fst jc) (snd jc))
                 vectors)
              (fun vectors =>
                 bind (when (i + 5 <? length chunks) (sleep 100))
                      (fun _ => ret vectors)))
      vectors w = (Ok vectors', w') /\
    prepared_upto fileName fileType userId chunks
                  (Nat.min ((a + len) * 5) (length chunks)) vectors'.
Proof.
  revert a vectors w. induction len as [|len IH]; intros a vectors w Hinv.
  - exists vectors, w. split; [reflexivity|]. rewrite Nat.add_0_r. exact Hinv.
  - cbn [seq map fold_each]. cbv zeta. unfold bind at 1. unfold bind at 1.
    assert (B : exists vectors1 w1,
               fold_each (combine (seq 0 (length (slice (a * 5) (a * 5 + 5) chunks)))
                                  (slice (a * 5) (a * 5 + 5) chunks))
                 (fun vectors jc =>
                    prepareVector rt fileName fileType userId (length chunks)
                                  vectors (a * 5 + fst jc) (snd jc))
                 vectors w = (Ok vectors1, w1) /\
               prepared_upto fileName fileType userId chunks
                             (Nat.min (S a * 5) (length chunks)) vectors1).
    { destruct (Nat.le_gt_cases (a * 5) (length chunks)) as [Hle|Hgt].
      - destruct (prepare_batch (a * 5) (slice (a * 5) (a * 5 + 5) chunks) 0 vectors w)
          as (vectors1 & w1 & E & Hinv1).
        + rewrite Nat.add_0_r. rewrite Nat.min_l in Hinv by exact Hle. exact Hinv.
        + intros p c Hp. rewrite Nat.add_0_r. eapply nth_error_slice, Hp.
        + exists vectors1, w1. split; [exact E|].
          rewrite slice_length in Hinv1.
          replace (Nat.min (S a * 5) (length chunks))
            with (a * 5 + 0 + Nat.min 5 (length chunks - a * 5)) by lia.
          exact Hinv1.
      - assert (E : slice (a * 5) (a * 5 + 5) chunks = []).
        { apply length_zero_iff_nil. rewrite slice_length. lia. }
        rewrite E. exists vectors, w. split; [reflexivity|].
        replace (Nat.min (S a * 5) (length chunks))
          with (Nat.min (a * 5) (length chunks)) by lia.
        exact Hinv. }
    destruct B as (vectors1 & w1 & -> & Hinv1).
    assert (S : exists w2, bind (when (a * 5 + 5 <? length chunks) (sleep 100))
                             (fun _ => ret vectors1) w1 = (Ok vectors1, w2)).
    { unfold bind, when, sleep, ret.
      destruct (a * 5 + 5 <? length chunks); eexists; reflexivity. }
    destruct S as (w2 & ->).
    destruct (IH (S a) vectors1 w2 Hinv1) as (vectors' & w' & E & Hinv').
    exists vectors', w'. split; [exact E|].
    replace ((a + S len) * 5) with ((S a + len) * 5) by lia. exact Hinv'.
Qed.

Lemma prepareVectors_returns (w : World) :
  exists vectors w',
    prepareVectors rt fileName fileType userId chunks w = (Ok vectors, w') /\
    prepared_upto fileName fileType userId chunks (length chunks) vectors.
Proof.
  unfold prepareVectors, loop_starts. cbv zeta.
  destruct (prepare_batches ((length chunks + 5 - 1) / 5) 0 [] w)
    as (vectors & w' & E & Hinv).
  { split; [reflexivity|]. intros [|j] v H; discriminate H. }
  exists vectors, w'. split; [exact E|].
  replace (Nat.min ((0 + (length chunks + 5 - 1) / 5) * 5) (length chunks))
    with (length chunks) in Hinv; [exact Hinv|].
  pose proof (Nat.div_mod_eq (length chunks + 5 - 1) 5).
  pose proof (Nat.mod_upper_bound (length chunks + 5 - 1) 5). lia.
Qed.
End PrepareLoop.

(** X28. With an API key, a reachable index and at least one chunk,
    storeDocument prepares exactly one vector per chunk, in the order of the
    chunks: vector [j] has 384 values and carries the file's name and type,
    the user, the chunk number [j], the number of chunks, the length of the
    chunk and its first 1000 code units. No chunk is skipped. *)
Theorem storeDocument_prepares_every_chunk (rt : Runtime)
    (fileName fileType content : JSString) (userId : option JSString)
    (w : World) (index : JSString) :
  truthy (VITE_PINECONE_API_KEY w) = true ->
  fst (getIndex w) = Ok index ->
  chunkText (cleanContent content) 800 <> [] ->
  let chunks := chunkText (cleanContent content) 800 in
  exists vectors,
    fst (storeDocument_prepare rt fileName fileType content userId w)
      = Ok (index, vectors) /\
    length vectors = length chunks /\
    forall j chunk, nth_error chunks j = Some chunk ->
      exists v, nth_error vectors j = Some v /\
                prepared_from fileName fileType userId (length chunks) j chunk v.
Proof.
  intros Hkey Hidx Hne chunks.
  unfold storeDocument_prepare. unfold bind at 1, get at 1. rewrite Hkey.
  cbn [negb when]. unfold bind at 1, ret at 1. unfold bind at 1.
  destruct (getIndex w) as [[index'|e] w1]; simpl in Hidx; [|discriminate].
  injection Hidx as ->.
  fold chunks. unfold bind at 1.
  destruct (length chunks =? 0) eqn:E0.
  { apply Nat.eqb_eq, length_zero_iff_nil in E0. contradiction. }
  cbn [when]. unfold ret at 1. unfold bind at 1.
  destruct (prepareVectors_returns rt fileName fileType userId chunks w1)
    as (vectors & w2 & -> & Hlen & Hall).
  unfold bind at 1. rewrite Hlen, E0. cbn [when]. unfold ret.
  exists vectors. split; [reflexivity|]. split; [exact Hlen|].
  intros j chunk Hj.
  assert (Hlt : j < length vectors).
  { rewrite Hlen. apply nth_error_Some. congruence. }
  destruct (nth_error vectors j) as [v|] eqn:Ev;
    [|apply nth_error_None in Ev; lia].
  exists v. split; [reflexivity|].
  destruct (Hall j v Ev) as (chunk' & Hc & Hp). congruence.
Qed.

Lemma storeDocument_prepares_every_chunk_witness :
  length (chunkText (cleanContent (js "First point. Second point.")) 800) = 1 /\
  exists vectors,
    fst (storeDocument_prepare asciiRuntime (js "notes.txt") (js "text/plain")
           (js "First point. Second point.") None configuredWorld)
      = Ok (js "pulse-documents", vectors) /\
    length vectors = 1.
Proof.
  split; [vm_compute; reflexivity|].
  destruct (storeDocument_prepares_every_chunk asciiRuntime (js "notes.txt")
              (js "text/plain") (js "First point. Second point.") None
              configuredWorld (js "pulse-documents"))
    as (vectors & H & Hlen & _).
  - reflexivity.
  - vm_compute. reflexivity.
  - vm_compute. discriminate.
  - exists vectors. split; [exact H|]. rewrite Hlen. vm_compute. reflexivity.
Defined.

(** *** Identifiers *)

Lemma js_inj (s t : string) : js s = js t -> s = t.
Proof.
  unfold js. revert t. induction s as [|a s IH]; destruct t as [|b t]; simpl;
    try discriminate; [reflexivity|].
  intros H. injection H as Hab Hst. f_equal; [|apply IH, Hst].
  rewrite <- (ascii_N_embedding a), <- (ascii_N_embedding b), Hab. reflexivity.
Qed.

Lemma decimal_inj (m n : Z) : decimal m = decimal n -> m = n.
Proof.
  unfold decimal. intros H. apply js_inj in H.
  assert (Nonnil : forall z d, Z.to_int z = d -> d <> Decimal.Pos Decimal.Nil /\
                                                 d <> Decimal.Neg Decimal.Nil).
  { intros z d E. split; intros ->; pose proof (DecimalZ.of_to z) as O;
      rewrite E in O; destruct z; try discriminate O; discriminate E. }
  destruct (Nonnil m _ eq_refl) as [Hm1 Hm2].
  destruct (Nonnil n _ eq_refl) as [Hn1 Hn2].
  apply DecimalZ.to_int_inj.
  pose proof (NilZero.isi _ Hm1 Hm2) as Im. pose proof (NilZero.isi _ Hn1 Hn2) as In'.
  rewrite H in Im. congruence.
Qed.

Lemma digits_no_underscore (d : Decimal.uint) :
  ~ In 95%N (js (NilEmpty.string_of_uint d)).
Proof.
  induction d; simpl; intros H; try exact H;
    destruct H as [H|H]; try discriminate H; apply IHd, H.
Qed.

Lemma decimal_no_underscore (n : nat) : ~ In 95%N (decimal (Z.of_nat n)).
Proof.
  unfold decimal. destruct (Z.of_nat n) as [|p|p] eqn:E; [| |lia].
  - simpl. intros [H|[]]. discriminate H.
  - cbn [Z.to_int NilZero.string_of_int]. unfold NilZero.string_of_uint.
    destruct (Pos.to_uint p) eqn:Ep; try (rewrite <- Ep; apply digits_no_underscore).
    simpl. intros [H|[]]. discriminate H.
Qed.

Lemma last_segment {A : Type} (u : A) (a a' b b' : list A) :
  ~ In u b -> ~ In u b' -> a ++ u :: b = a' ++ u :: b' -> b = b'.
Proof.
  revert a'. induction a as [|x a IH]; intros [|y a'] Hb Hb' E; simpl in E.
  - congruence.
  - injection E as <- E. exfalso. apply Hb. rewrite E. apply in_or_app. right. now left.
  - injection E as <- E. exfalso. apply Hb'. rewrite <- E. apply in_or_app. right. now left.
  - injection E as _ E. eapply IH; eassumption.
Qed.

(** X30. The vectors prepared for one document have pairwise distinct
    identifiers, whatever the clock read and whatever the file name is: the
    identifier ends with the chunk number. *)
Theorem prepareVectors_ids_distinct (rt : Runtime) (fileName fileType : JSString)
    (userId : option JSString) (chunks : list JSString) (w : World) :
  exists vectors,
    fst (prepareVectors rt fileName fileType userId chunks w) = Ok vectors /\
    NoDup (map dv_id vectors).
Proof.
  destruct (prepareVectors_returns rt fileName fileType userId chunks w)
    as (vectors & w' & -> & Hlen & Hall).
  exists vectors. split; [reflexivity|].
  apply NoDup_nth_error. intros i j Hi E. rewrite length_map in Hi.
  rewrite !nth_error_map in E.
  destruct (nth_error vectors i) as [v|] eqn:Ei;
    [|apply nth_error_None in Ei; lia].
  destruct (nth_error vectors j) as [v'|] eqn:Ej; [|discriminate E].
  simpl in E. injection E as E.
  destruct (Hall i v Ei) as (c & _ & (now & Hid) & _).
  destruct (Hall j v' Ej) as (c' & _ & (now' & Hid') & _).
  rewrite Hid, Hid' in E.
  change (js "_") with [95%N] in E.
  rewrite !app_assoc in E. rewrite <- !(app_assoc _ [95%N]) in E. simpl in E.
  apply last_segment in E; try apply decimal_no_underscore.
  apply decimal_inj in E. lia.
Qed.
